(** * SaddleUp.io browser client: a shallow embedding of [SaddleUpGame]

    The client is one JavaScript class whose methods mutate the fields of
    a single game object in response to WebSocket frames and to clicks.
    Every method is embedded as a function on an explicit [Game] record;
    the numbers of the program are IEEE-754 binary64 values, embedded as
    [spec_float] at precision 53 and maximal exponent 1024.

    Inbound messages are embedded with the payloads of the wire protocol,
    one constructor for each [type]: the runs in which a handler stops on
    a [TypeError] because a payload has another shape are left out. The
    user object of a message is any map of fields: where its balance is
    not a number, [updateBalance] throws and the handler stops there,
    with the writes it has made. Of the writes to the page, the state
    keeps the notices of [showError] and the display of the betting
    panel. *)

From Stdlib Require Import ZArith String Ascii List DecimalString DecimalN.
From Stdlib Require Import Floats.SpecFloat.
From stdpp Require Import base gmap strings list.

Open Scope Z_scope.

(** * Numbers *)

Module Num.

(** A JavaScript number. *)
Definition number : Type := spec_float.

Definition prec : Z := 53.
Definition emax : Z := 1024.

(** The binary64 value nearest to [m * 2^e]; used for the literals of the
    source. *)
Definition lit (m e : Z) : number := binary_normalize prec emax m e false.

Definition n0 : number := S754_zero false.
Definition n1 : number := Eval vm_compute in lit 1 0.
Definition n1_5 : number := Eval vm_compute in lit 3 (-1).
Definition n2 : number := Eval vm_compute in lit 2 0.
Definition n2_5 : number := Eval vm_compute in lit 5 (-1).
Definition n4 : number := Eval vm_compute in lit 4 0.
Definition n8 : number := Eval vm_compute in lit 8 0.

(** The literal [1.2]: the binary64 value nearest to it. *)
Definition n1_2 : number :=
  Eval vm_compute in SFdiv prec emax (lit 12 0) (lit 10 0).

(** [x <= y], [x < y] and [x * y] on numbers. *)
Definition le_num (x y : number) : bool := SFleb x y.
Definition lt_num (x y : number) : bool := SFltb x y.
Definition mul_num (x y : number) : number := SFmul prec emax x y.

Definition is_nan (x : number) : bool :=
  match x with S754_nan => true | _ => false end.

Definition is_zero (x : number) : bool :=
  match x with S754_zero _ => true | _ => false end.

(** ** [Number.prototype.toFixed] *)

(** Decimal digits of a natural number, most significant first. *)
Definition digits_of (n : N) : list ascii :=
  list_ascii_of_string (NilZero.string_of_uint (N.to_uint n)).

Definition zero_char : ascii := "0"%char.
Definition point_char : ascii := "."%char.

(** Step 10.c of [toFixed]: at least [f + 1] digits, padded on the left
    with zeros. *)
Definition pad_fraction (f : nat) (m : list ascii) : list ascii :=
  let k := length m in
  if (k <=? f)%nat then replicate (f + 1 - k)%nat zero_char ++ m else m.

(** Steps 10.c.iv and 10.c.v: the point goes before the last [f] digits. *)
Definition insert_point (f : nat) (m : list ascii) : list ascii :=
  let k := length m in
  take (k - f)%nat m ++ point_char :: drop (k - f)%nat m.

(** The integer [n] for which [n / 10^f - m * 2^e] is as close to zero as
    possible, the larger one when there are two. *)
Definition scaled_round (f : nat) (m : positive) (e : Z) : N :=
  match e with
  | Zneg k =>
      Z.to_N ((2 * Zpos m * 10 ^ Z.of_nat f + 2 ^ Zpos k) / (2 * 2 ^ Zpos k))
  | _ => Z.to_N (Zpos m * 2 ^ e * 10 ^ Z.of_nat f)
  end.

(** [m * 2^e >= 10^21]. *)
Definition ge_1e21 (m : positive) (e : Z) : bool :=
  match e with
  | Zneg k => 10 ^ 21 * 2 ^ Zpos k <=? Zpos m
  | _ => 10 ^ 21 <=? Zpos m * 2 ^ e
  end.

Definition fixed_digits (f : nat) (n : N) : list ascii :=
  let m := pad_fraction f (digits_of n) in
  match f with
  | O => m
  | _ => insert_point f m
  end.

(** [x.toFixed(f)]. At magnitudes of [10^21] and more the result is the
    exponent notation of [Number::toString], which is not embedded: the
    function answers [None] there. *)
Definition toFixed (f : nat) (x : number) : option string :=
  match x with
  | S754_nan => Some "NaN"%string
  | S754_infinity s => Some (if s then "-Infinity" else "Infinity")%string
  | S754_zero _ => Some (string_of_list_ascii (fixed_digits f 0%N))
  | S754_finite s m e =>
      if ge_1e21 m e then None
      else Some ((if s then "-" else "")
                 +:+ string_of_list_ascii (fixed_digits f (scaled_round f m e)))
  end.

End Num.

Import Num.

(** * Odds *)

(** What the wire can carry where an odds value is expected: the field is
    missing, [null], or a number. *)
Inductive oddsval : Type :=
  | OUndefined
  | ONull
  | ONum (x : number).

(** [!!v] *)
Definition truthy (v : oddsval) : bool :=
  match v with
  | OUndefined | ONull => false
  | ONum x => negb (is_zero x || is_nan x)
  end.

(** The global [isNaN(v)]: [ToNumber(undefined)] is [NaN],
    [ToNumber(null)] is [+0]. *)
Definition isNaN (v : oddsval) : bool :=
  match v with
  | OUndefined => true
  | ONull => false
  | ONum x => is_nan x
  end.

Definition default_odds_text : string := "$2.00".

(** The template [`$${x.toFixed(2)}`]. *)
Definition dollar_text (x : number) : option string :=
  s ← toFixed 2 x; Some ("$" +:+ s).

(** The guard of [formatOdds]: [!odds || isNaN(odds)]. *)
Definition formatOdds_falls_back (odds : oddsval) : bool :=
  negb (truthy odds) || isNaN odds.

(** [formatOdds(odds)] *)
Definition formatOdds (odds : oddsval) : option string :=
  if formatOdds_falls_back odds then Some default_odds_text
  else
    match odds with
    | ONum x => dollar_text x
    | _ => Some default_odds_text
    end.

(** The five colour tiers; [tier_class] is the CSS class the source
    returns. *)
Inductive Tier : Type := Favorite | Strong | Moderate | Long | Longshot.

Definition tier_class (t : Tier) : string :=
  match t with
  | Favorite => "odds-favorite"
  | Strong => "odds-strong"
  | Moderate => "odds-moderate"
  | Long => "odds-long"
  | Longshot => "odds-longshot"
  end.

(** [getOddsTier(winnerOdds)] *)
Definition getOddsTier (winnerOdds : number) : Tier :=
  if le_num winnerOdds n1_5 then Favorite
  else if le_num winnerOdds n2_5 then Strong
  else if le_num winnerOdds n4 then Moderate
  else if le_num winnerOdds n8 then Long
  else Longshot.

(** Position of a tier on the scale from favourite to longshot. *)
Definition tier_rank (t : Tier) : nat :=
  match t with
  | Favorite => 0
  | Strong => 1
  | Moderate => 2
  | Long => 3
  | Longshot => 4
  end.

(** * Data model *)

(** A JSON scalar, as the fields of a user object carry them. *)
Inductive value : Type :=
  | VNull
  | VBool (b : bool)
  | VNum (x : number)
  | VStr (s : string).

(** [!!v] on a scalar. *)
Definition value_truthy (v : value) : bool :=
  match v with
  | VNull => false
  | VBool b => b
  | VNum x => negb (is_zero x || is_nan x)
  | VStr s => negb (String.eqb s "")
  end.

(** A user object: a JavaScript object used as a map from field names. *)
Abbreviation User := (gmap string value).

Record Horse : Type := {
  horse_id : Z;
  horse_name : string;
  horse_position : number;
  horse_finished : bool
}.

Record OddsEntry : Type := {
  winner : oddsval;
  place : oddsval
}.

(** The odds object of a message: horse id to entry. *)
Abbreviation Odds := (gmap Z OddsEntry).

Record Race : Type := {
  race_id : Z;
  race_phase : string;
  race_time_remaining : number;
  race_horses : list Horse;
  race_odds : Odds
}.

(** The [bet] object of a [bet_placed] message. *)
Record Bet : Type := {
  bet_type : string;
  bet_amount : number;
  bet_selection : list Z
}.

(** [oddsAtBetting]: the string ['Variable'] or what
    [getHorseCurrentOdds] returned. *)
Inductive odds_at_betting : Type :=
  | OddsVariable
  | OddsRecorded (v : oddsval).

(** An entry of [currentRaceBets]: the bet and the display fields
    [addBetToCurrentRace] adds to its copy; a field that was not set is
    [None]. *)
Record BetInfo : Type := {
  info_bet : Bet;
  displayText : option string;
  horseName : option string;
  oddsAtBetting : option odds_at_betting
}.

(** Outbound frames, the argument of [send]. *)
Inductive Frame : Type :=
  | FLogin (username : string)
  | FPlaceBet (bet_type : string) (amount : number) (selection : list Z)
  | FGetRaceState
  | FGetLeaderboard.

Record Leader : Type := {
  leader_username : string;
  leader_rank : oddsval
}.

(** Inbound messages, by [type]. *)
Inductive Payload : Type :=
  | ConnectionEstablished
  | LoginSuccess
  | RaceState (race : Race)
  | OddsUpdate (odds : Odds) (time_remaining : number)
  | PhaseUpdate (phase : string) (time_remaining : number)
  | RaceUpdate (horses : list Horse)
  | RaceResults
  | BetPlaced (new_balance : number) (bet : Bet)
  | LeaderboardMsg (leaders : list Leader) (current_user_rank : oddsval)
  | ErrorMsg (message : string)
  | UnknownType (type : string).

Record Message : Type := {
  msg_user : option User;
  msg_payload : Payload
}.

(** [readyState] of a WebSocket. *)
Inductive ReadyState : Type := CONNECTING | OPEN | CLOSING | CLOSED.

(** The fields of the game object that carry state, the WebSocket objects
    it has created, the timers it has started with
    [setTimeout(() => this.connect(), delay)], the frames handed to
    [ws.send], the texts handed to [showError], oldest first, and whether
    the betting panel of the page is displayed. Other writes to the page
    are not part of the state. *)
Record Game : Type := {
  sockets : list ReadyState;
  ws : option nat;
  connected : bool;
  timers : list Z;
  user : option User;
  currentRace : option Race;
  selectedBetType : string;
  selectedHorse : option Z;
  trifectaSelection : list Z;
  currentRaceBets : list BetInfo;
  currentOdds : Odds;
  usernameInput : string;
  outbox : list Frame;
  notices : list string;
  bettingPanelShown : bool
}.

(** Assignment to one field of the game object. *)

Definition set_sockets (v : list ReadyState) (g : Game) : Game :=
  {| sockets := v; ws := ws g; connected := connected g; timers := timers g;
     user := user g; currentRace := currentRace g;
     selectedBetType := selectedBetType g; selectedHorse := selectedHorse g;
     trifectaSelection := trifectaSelection g;
     currentRaceBets := currentRaceBets g; currentOdds := currentOdds g;
     usernameInput := usernameInput g; outbox := outbox g;
     notices := notices g; bettingPanelShown := bettingPanelShown g |}.

Definition set_ws (v : option nat) (g : Game) : Game :=
  {| sockets := sockets g; ws := v; connected := connected g;
     timers := timers g; user := user g; currentRace := currentRace g;
     selectedBetType := selectedBetType g; selectedHorse := selectedHorse g;
     trifectaSelection := trifectaSelection g;
     currentRaceBets := currentRaceBets g; currentOdds := currentOdds g;
     usernameInput := usernameInput g; outbox := outbox g;
     notices := notices g; bettingPanelShown := bettingPanelShown g |}.

Definition set_connected (v : bool) (g : Game) : Game :=
  {| sockets := sockets g; ws := ws g; connected := v; timers := timers g;
     user := user g; currentRace := currentRace g;
     selectedBetType := selectedBetType g; selectedHorse := selectedHorse g;
     trifectaSelection := trifectaSelection g;
     currentRaceBets := currentRaceBets g; currentOdds := currentOdds g;
     usernameInput := usernameInput g; outbox := outbox g;
     notices := notices g; bettingPanelShown := bettingPanelShown g |}.

Definition set_timers (v : list Z) (g : Game) : Game :=
  {| sockets := sockets g; ws := ws g; connected := connected g; timers := v;
     user := user g; currentRace := currentRace g;
     selectedBetType := selectedBetType g; selectedHorse := selectedHorse g;
     trifectaSelection := trifectaSelection g;
     currentRaceBets := currentRaceBets g; currentOdds := currentOdds g;
     usernameInput := usernameInput g; outbox := outbox g;
     notices := notices g; bettingPanelShown := bettingPanelShown g |}.

Definition set_user (v : option User) (g : Game) : Game :=
  {| sockets := sockets g; ws := ws g; connected := connected g;
     timers := timers g; user := v; currentRace := currentRace g;
     selectedBetType := selectedBetType g; selectedHorse := selectedHorse g;
     trifectaSelection := trifectaSelection g;
     currentRaceBets := currentRaceBets g; currentOdds := currentOdds g;
     usernameInput := usernameInput g; outbox := outbox g;
     notices := notices g; bettingPanelShown := bettingPanelShown g |}.

Definition set_currentRace (v : option Race) (g : Game) : Game :=
  {| sockets := sockets g; ws := ws g; connected := connected g;
     timers := timers g; user := user g; currentRace := v;
     selectedBetType := selectedBetType g; selectedHorse := selectedHorse g;
     trifectaSelection := trifectaSelection g;
     currentRaceBets := currentRaceBets g; currentOdds := currentOdds g;
     usernameInput := usernameInput g; outbox := outbox g;
     notices := notices g; bettingPanelShown := bettingPanelShown g |}.

Definition set_selectedBetType (v : string) (g : Game) : Game :=
  {| sockets := sockets g; ws := ws g; connected := connected g;
     timers := timers g; user := user g; currentRace := currentRace g;
     selectedBetType := v; selectedHorse := selectedHorse g;
     trifectaSelection := trifectaSelection g;
     currentRaceBets := currentRaceBets g; currentOdds := currentOdds g;
     usernameInput := usernameInput g; outbox := outbox g;
     notices := notices g; bettingPanelShown := bettingPanelShown g |}.

Definition set_selectedHorse (v : option Z) (g : Game) : Game :=
  {| sockets := sockets g; ws := ws g; connected := connected g;
     timers := timers g; user := user g; currentRace := currentRace g;
     selectedBetType := selectedBetType g; selectedHorse := v;
     trifectaSelection := trifectaSelection g;
     currentRaceBets := currentRaceBets g; currentOdds := currentOdds g;
     usernameInput := usernameInput g; outbox := outbox g;
     notices := notices g; bettingPanelShown := bettingPanelShown g |}.

Definition set_trifectaSelection (v : list Z) (g : Game) : Game :=
  {| sockets := sockets g; ws := ws g; connected := connected g;
     timers := timers g; user := user g; currentRace := currentRace g;
     selectedBetType := selectedBetType g; selectedHorse := selectedHorse g;
     trifectaSelection := v; currentRaceBets := currentRaceBets g;
     currentOdds := currentOdds g; usernameInput := usernameInput g;
     outbox := outbox g; notices := notices g;
     bettingPanelShown := bettingPanelShown g |}.

Definition set_currentRaceBets (v : list BetInfo) (g : Game) : Game :=
  {| sockets := sockets g; ws := ws g; connected := connected g;
     timers := timers g; user := user g; currentRace := currentRace g;
     selectedBetType := selectedBetType g; selectedHorse := selectedHorse g;
     trifectaSelection := trifectaSelection g; currentRaceBets := v;
     currentOdds := currentOdds g; usernameInput := usernameInput g;
     outbox := outbox g; notices := notices g;
     bettingPanelShown := bettingPanelShown g |}.

Definition set_currentOdds (v : Odds) (g : Game) : Game :=
  {| sockets := sockets g; ws := ws g; connected := connected g;
     timers := timers g; user := user g; currentRace := currentRace g;
     selectedBetType := selectedBetType g; selectedHorse := selectedHorse g;
     trifectaSelection := trifectaSelection g;
     currentRaceBets := currentRaceBets g; currentOdds := v;
     usernameInput := usernameInput g; outbox := outbox g;
     notices := notices g; bettingPanelShown := bettingPanelShown g |}.

Definition set_usernameInput (v : string) (g : Game) : Game :=
  {| sockets := sockets g; ws := ws g; connected := connected g;
     timers := timers g; user := user g; currentRace := currentRace g;
     selectedBetType := selectedBetType g; selectedHorse := selectedHorse g;
     trifectaSelection := trifectaSelection g;
     currentRaceBets := currentRaceBets g; currentOdds := currentOdds g;
     usernameInput := v; outbox := outbox g; notices := notices g;
     bettingPanelShown := bettingPanelShown g |}.

Definition set_outbox (v : list Frame) (g : Game) : Game :=
  {| sockets := sockets g; ws := ws g; connected := connected g;
     timers := timers g; user := user g; currentRace := currentRace g;
     selectedBetType := selectedBetType g; selectedHorse := selectedHorse g;
     trifectaSelection := trifectaSelection g;
     currentRaceBets := currentRaceBets g; currentOdds := currentOdds g;
     usernameInput := usernameInput g; outbox := v; notices := notices g;
     bettingPanelShown := bettingPanelShown g |}.

Definition set_notices (v : list string) (g : Game) : Game :=
  {| sockets := sockets g; ws := ws g; connected := connected g;
     timers := timers g; user := user g; currentRace := currentRace g;
     selectedBetType := selectedBetType g; selectedHorse := selectedHorse g;
     trifectaSelection := trifectaSelection g;
     currentRaceBets := currentRaceBets g; currentOdds := currentOdds g;
     usernameInput := usernameInput g; outbox := outbox g; notices := v;
     bettingPanelShown := bettingPanelShown g |}.

Definition set_bettingPanelShown (v : bool) (g : Game) : Game :=
  {| sockets := sockets g; ws := ws g; connected := connected g;
     timers := timers g; user := user g; currentRace := currentRace g;
     selectedBetType := selectedBetType g; selectedHorse := selectedHorse g;
     trifectaSelection := trifectaSelection g;
     currentRaceBets := currentRaceBets g; currentOdds := currentOdds g;
     usernameInput := usernameInput g; outbox := outbox g;
     notices := notices g; bettingPanelShown := v |}.

(** * Methods of [SaddleUpGame] *)

(** ** Notices and transport *)

(** [showError(message)]: the notice is shown; the timer that hides it
    again only touches the page. *)
Definition showError (message : string) (g : Game) : Game :=
  set_notices (notices g ++ [message]) g.

(** [this.ws && this.ws.readyState === WebSocket.OPEN] *)
Definition ws_is_open (g : Game) : bool :=
  match ws g with
  | Some i =>
      match sockets g !! i with
      | Some OPEN => true
      | _ => false
      end
  | None => false
  end.

(** [send(message)] *)
Definition send (message : Frame) (g : Game) : Game :=
  if ws_is_open g then set_outbox (outbox g ++ [message]) g
  else showError "Connection not ready. Please wait and try again." g.

Definition reconnect_delay : Z := 3000.

(** [connect()]: [new WebSocket(wsUrl)] creates a socket in state
    [CONNECTING]; its four handlers are [onopen], [onmessage], [onclose]
    and [onerror] below. *)
Definition connect (g : Game) : Game :=
  set_ws (Some (length (sockets g)))
    (set_sockets (sockets g ++ [CONNECTING]) g).

(** [login()]; [usernameInput] holds the text of the input after
    [trim()]. *)
Definition login (g : Game) : Game :=
  if String.eqb (usernameInput g) ""
  then showError "Please enter a username" g
  else send (FLogin (usernameInput g)) g.

(** ** Session *)

(** [updateBalance(balance)] *)
Definition updateBalance (balance : number) (g : Game) : Game :=
  match user g with
  | Some u => set_user (Some (<["balance" := VNum balance]> u)) g
  | None => g
  end.

(** The state [updateBalance(this.user.balance)] leaves, as [updateUser]
    and [showGameScreen] call it. Where the balance is not a number the
    call throws before it writes anything, see [balance_throws], and the
    state is as before. *)
Definition refreshBalance (g : Game) : Game :=
  match user g with
  | Some u =>
      match u !! "balance" with
      | Some (VNum balance) => updateBalance balance g
      | _ => g
      end
  | None => g
  end.

(** [updateBalance(balance)] begins with [balance.toFixed(2)]: the call
    [updateBalance(this.user.balance)] throws a [TypeError] unless the
    balance of the user is a number. *)
Definition balance_throws (g : Game) : bool :=
  match user g with
  | Some u =>
      match u !! "balance" with
      | Some (VNum _) => false
      | _ => true
      end
  | None => true
  end.

(** [updateUser(userData)]: [{ ...this.user, ...userData }], the fields
    of [userData] winning; the state it leaves, also when its call of
    [updateBalance] throws. *)
Definition updateUser (userData : User) (g : Game) : Game :=
  match user g with
  | Some u => refreshBalance (set_user (Some (userData ∪ u)) g)
  | None => g
  end.

(** Whether [updateUser(userData)] stops on the [TypeError] of
    [updateBalance]: the merged user is in place by then. *)
Definition updateUser_throws (userData : User) (g : Game) : bool :=
  match user g with
  | Some u => balance_throws (set_user (Some (userData ∪ u)) g)
  | None => false
  end.

(** [showGameScreen()]: it stops at [this.user.username] without a user
    and at [updateBalance(this.user.balance)] when the balance is not a
    number, before it sends anything. *)
Definition showGameScreen (g : Game) : Game :=
  match user g with
  | Some _ =>
      if balance_throws g then g
      else send FGetLeaderboard (send FGetRaceState (refreshBalance g))
  | None => g
  end.

(** ** Race state *)

(** [updatePhase(phase, timeRemaining)]: the betting panel is displayed
    for the phase [betting], where the trifecta selection is cleared, and
    hidden for every other phase. *)
Definition updatePhase (phase : string) (timeRemaining : number) (g : Game)
  : Game :=
  if String.eqb phase "betting"
  then set_trifectaSelection [] (set_bettingPanelShown true g)
  else set_bettingPanelShown false g.

(** [!this.currentRace || race.id !== this.currentRace.id] *)
Definition is_new_race (race : Race) (g : Game) : bool :=
  match currentRace g with
  | None => true
  | Some held => negb (race_id race =? race_id held)
  end.

(** The first statement of [updateRaceState]: the [if] that clears the
    bets and the trifecta selection, in this order. *)
Definition resetForNewRace (race : Race) (g : Game) : Game :=
  if is_new_race race g
  then set_trifectaSelection [] (set_currentRaceBets [] g)
  else g.

(** The statements of [updateRaceState(race)] that write to the state, in
    the order of the source. *)
Definition updateRaceState_stmts (race : Race) : list (Game → Game) :=
  [ resetForNewRace race;
    set_currentRace (Some race);
    updatePhase (race_phase race) (race_time_remaining race) ].

Definition run_stmts (stmts : list (Game → Game)) (g : Game) : Game :=
  foldl (λ s f, f s) g stmts.

(** The states a handler passes through: before its first statement and
    after each one. *)
Fixpoint stmts_trace (stmts : list (Game → Game)) (g : Game) : list Game :=
  match stmts with
  | [] => [g]
  | f :: rest => g :: stmts_trace rest (f g)
  end.

(** [updateRaceState(race)] *)
Definition updateRaceState (race : Race) (g : Game) : Game :=
  run_stmts (updateRaceState_stmts race) g.

(** [updateOdds(odds, timeRemaining)] *)
Definition updateOdds (odds : Odds) (timeRemaining : number) (g : Game)
  : Game :=
  set_currentOdds odds g.

(** ** Selection *)

(** [clearSelections()] *)
Definition clearSelections (g : Game) : Game := set_trifectaSelection [] g.

(** [clearTrifectaSelection()] *)
Definition clearTrifectaSelection (g : Game) : Game :=
  set_trifectaSelection [] g.

(** [selectBetType(type)] *)
Definition selectBetType (type : string) (g : Game) : Game :=
  clearSelections
    (set_trifectaSelection []
       (set_selectedHorse None (set_selectedBetType type g))).

(** [bet.type === type] for some bet of [currentRaceBets]. *)
Definition has_bet_of_type (type : string) (g : Game) : bool :=
  existsb (λ bet, String.eqb (bet_type (info_bet bet)) type)
    (currentRaceBets g).

(** [placeTrifectaBet()] *)
Definition placeTrifectaBet (g : Game) : Game :=
  if negb (length (trifectaSelection g) =? 3)%nat
  then showError "Please select exactly 3 horses" g
  else if has_bet_of_type "trifecta" g
  then showError "You can only place one trifecta bet per race" g
  else clearTrifectaSelection
         (send (FPlaceBet "trifecta" n1 (trifectaSelection g)) g).

(** [!this.currentRace || this.currentRace.phase !== 'betting'] *)
Definition betting_closed (g : Game) : bool :=
  match currentRace g with
  | None => true
  | Some race => negb (String.eqb (race_phase race) "betting")
  end.

(** [placeBet()]; a horse id is falsy when it is [null] or [0]. *)
Definition placeBet (g : Game) : Game :=
  if betting_closed g then showError "Betting is closed" g
  else if String.eqb (selectedBetType g) "trifecta" then placeTrifectaBet g
  else
    match selectedHorse g with
    | None | Some 0 => showError "Please select a horse" g
    | Some horse =>
        if has_bet_of_type (selectedBetType g) g
        then showError ("You can only place one " +:+ selectedBetType g
                        +:+ " bet per race") g
        else clearSelections
               (set_selectedHorse None
                  (send (FPlaceBet (selectedBetType g) n1 [horse]) g))
    end.

(** [handleSingleBetSelection(horseId, btnElement)] *)
Definition handleSingleBetSelection (horseId : Z) (g : Game) : Game :=
  placeBet (set_selectedHorse (Some horseId) g).

(** [parseInt(horseId)] on the id of a horse button: an integer of less
    than 22 digits, which [parseInt] returns as it is. *)
Definition parseInt (horseId : Z) : Z := horseId.

(** [selectTrifectaHorse(horseId, btnElement)] *)
Definition selectTrifectaHorse (horseId : Z) (g : Game) : Game :=
  if negb (String.eqb (selectedBetType g) "trifecta") then g
  else
    let horseIdNum := parseInt horseId in
    if bool_decide (horseIdNum ∈ trifectaSelection g)
    then set_trifectaSelection
           (filter (λ id, id ≠ horseIdNum) (trifectaSelection g)) g
    else if (length (trifectaSelection g) <? 3)%nat
    then set_trifectaSelection (trifectaSelection g ++ [horseIdNum]) g
    else showError "You can only select 3 horses for box trifecta" g.

(** [handleTrifectaSelection(horseId, btnElement)] *)
Definition handleTrifectaSelection (horseId : Z) (g : Game) : Game :=
  selectTrifectaHorse horseId g.

(** [selectHorse(horseId, btnElement)] *)
Definition selectHorse (horseId : Z) (g : Game) : Game :=
  if String.eqb (selectedBetType g) "trifecta"
  then handleTrifectaSelection horseId g
  else handleSingleBetSelection horseId g.

(** The source of [Math.floor(Math.random() * n)]: [random_index i n] is
    the value of the [i]-th evaluation when [n] is [S n'], an index below
    [n]. *)
Definition RandomIndex : Type := nat → ∀ n' : nat, fin (S n').

Section Mystery.

Variable random_index : RandomIndex.

(** The loop of [selectMysteryTrifecta]; [budget] is [3 - i]. *)
Fixpoint mystery_loop (budget : nat) (horsesCopy selectedHorses : list Z)
  : list Z :=
  match budget, horsesCopy with
  | S budget', first :: rest =>
      let randomIndex : nat :=
        fin_to_nat (random_index (3 - budget)%nat (length rest)) in
      let selectedHorse := nth randomIndex horsesCopy first in
      mystery_loop budget' (delete randomIndex horsesCopy)
        (selectedHorses ++ [selectedHorse])
  | _, _ => selectedHorses
  end.

(** The horses [selectMysteryTrifecta] draws from [availableHorses]. *)
Definition mystery_picks (availableHorses : list Z) : list Z :=
  mystery_loop 3 availableHorses [].

(** [selectMysteryTrifecta()] *)
Definition selectMysteryTrifecta (g : Game) : Game :=
  if negb (String.eqb (selectedBetType g) "trifecta") then g
  else
    match currentRace g with
    | None => g
    | Some race =>
        let g1 := clearTrifectaSelection g in
        let availableHorses := map horse_id (race_horses race) in
        let selectedHorses := mystery_picks availableHorses in
        set_trifectaSelection (trifectaSelection g1 ++ selectedHorses) g1
    end.

End Mystery.

(** ** Bets of the current race *)

(** [getHorseCurrentOdds(horseId, betType)] *)
Definition getHorseCurrentOdds (horseId : Z) (betType : string) (g : Game)
  : oddsval :=
  match currentOdds g !! horseId with
  | Some entry =>
      if String.eqb betType "winner" then winner entry
      else if String.eqb betType "place" then place entry
      else ONum n2
  | None => ONum n2
  end.

(** [this.currentRace.horses.find(h => h.id === id)], where [id] is
    [bet.selection[0]]: [undefined] when the selection is empty. *)
Definition find_horse (id : option Z) (race : Race) : option Horse :=
  match id with
  | Some id => find (λ h, horse_id h =? id) (race_horses race)
  | None => None
  end.

(** An integer horse id of less than 22 digits as [join] prints it. *)
Definition show_id (id : Z) : string := NilZero.string_of_int (Z.to_int id).

(** [addBetToCurrentRace(bet)] *)
Definition addBetToCurrentRace (bet : Bet) (g : Game) : Game :=
  let betInfo :=
    if String.eqb (bet_type bet) "trifecta" then
      {| info_bet := bet;
         displayText :=
           Some (String.concat "-" (map show_id (bet_selection bet)));
         horseName := None;
         oddsAtBetting := Some OddsVariable |}
    else
      match
        race ← currentRace g; find_horse (head (bet_selection bet)) race
      with
      | Some horse =>
          {| info_bet := bet;
             displayText := Some (horse_name horse);
             horseName := Some (horse_name horse);
             oddsAtBetting :=
               Some (OddsRecorded
                       (getHorseCurrentOdds (horse_id horse) (bet_type bet)
                          g)) |}
      | None =>
          {| info_bet := bet; displayText := None; horseName := None;
             oddsAtBetting := None |}
      end in
  set_currentRaceBets (currentRaceBets g ++ [betInfo]) g.

Definition pending_text : string := "TBD".

(** The text [updateActiveBetsDisplay] computes in [potentialPayout] for
    one bet of the list; [None] where [toFixed] is not embedded. *)
Definition potentialPayout (bet : BetInfo) (g : Game) : option string :=
  match currentRace g with
  | Some race =>
      if negb (String.eqb (bet_type (info_bet bet)) "trifecta") then
        match find_horse (head (bet_selection (info_bet bet))) race with
        | Some horse =>
            let currentOdds :=
              getHorseCurrentOdds (horse_id horse) (bet_type (info_bet bet))
                g in
            if truthy currentOdds then
              match currentOdds with
              | ONum odds =>
                  dollar_text (mul_num (bet_amount (info_bet bet)) odds)
              | _ => Some pending_text
              end
            else Some pending_text
        | None => Some pending_text
        end
      else Some pending_text
  | None => Some pending_text
  end.

(** The potential payouts [updateActiveBetsDisplay()] writes, one for
    each bet of [currentRaceBets]. *)
Definition updateActiveBetsDisplay (g : Game) : list (option string) :=
  map (λ bet, potentialPayout bet g) (currentRaceBets g).

(** ** Leaderboard *)

Definition oddsval_to_value (v : oddsval) : option value :=
  match v with
  | OUndefined => None
  | ONull => Some VNull
  | ONum x => Some (VNum x)
  end.

(** [this.user.rank = rank] *)
Definition set_user_rank (rank : value) (g : Game) : Game :=
  match user g with
  | Some u => set_user (Some (<["rank" := rank]> u)) g
  | None => g
  end.

(** [leader.username === this.user.username] *)
Definition is_current_user (leader : Leader) (g : Game) : bool :=
  match u ← user g; u !! "username" with
  | Some (VStr name) => String.eqb (leader_username leader) name
  | _ => false
  end.

(** The [forEach] of [updateLeaderboard]; the flag is
    [userFoundInLeaderboard]. *)
Fixpoint leaders_loop (index : nat) (leaders : list Leader) (found : bool)
  (g : Game) : bool * Game :=
  match leaders with
  | [] => (found, g)
  | leader :: rest =>
      if is_current_user leader g then
        let userRank :=
          if truthy (leader_rank leader)
          then match leader_rank leader with
               | ONum x => x
               | _ => lit (Z.of_nat index + 1) 0
               end
          else lit (Z.of_nat index + 1) 0 in
        leaders_loop (S index) rest true (set_user_rank (VNum userRank) g)
      else leaders_loop (S index) rest found g
  end.

(** [updateLeaderboard(leaders, currentUserRank)] *)
Definition updateLeaderboard (leaders : list Leader) (currentUserRank : oddsval)
  (g : Game) : Game :=
  let '(userFoundInLeaderboard, g) := leaders_loop 0 leaders false g in
  match user g with
  | Some u =>
      if userFoundInLeaderboard then g
      else
        let rankToUse :=
          if truthy currentUserRank then oddsval_to_value currentUserRank
          else u !! "rank" in
        match rankToUse with
        | Some rank => if value_truthy rank then set_user_rank rank g else g
        | None => g
        end
  | None => g
  end.

(** ** Dispatch *)

(** The [switch] of [handleMessage(message)]. *)
Definition handleMessage_switch (message : Message) (g : Game) : Game :=
  match msg_payload message with
  | ConnectionEstablished => g
  | LoginSuccess => showGameScreen (set_user (msg_user message) g)
  | RaceState race => updateRaceState race g
  | OddsUpdate odds time_remaining => updateOdds odds time_remaining g
  | PhaseUpdate phase time_remaining => updatePhase phase time_remaining g
  | RaceUpdate horses => g
  | RaceResults => g
  | BetPlaced new_balance bet =>
      addBetToCurrentRace bet (updateBalance new_balance g)
  | LeaderboardMsg leaders current_user_rank =>
      updateLeaderboard leaders current_user_rank g
  | ErrorMsg message => showError message g
  | UnknownType _ => g
  end.

(** Whether [handleMessage(message)] gets to its [switch]: it does
    unless [updateUser(message.user)] throws. *)
Definition reaches_switch (message : Message) (g : Game) : bool :=
  match msg_user message with
  | Some userData => negb (updateUser_throws userData g)
  | None => true
  end.

(** [handleMessage(message)] *)
Definition handleMessage (message : Message) (g : Game) : Game :=
  let g1 :=
    match msg_user message with
    | Some userData => updateUser userData g
    | None => g
    end in
  if reaches_switch message g then handleMessage_switch message g1 else g1.

(** ** The handlers of a socket *)

(** [ws.onopen] *)
Definition onopen (g : Game) : Game := login (set_connected true g).

(** [ws.onmessage], on a frame that [JSON.parse] accepts. *)
Definition onmessage (message : Message) (g : Game) : Game :=
  handleMessage message g.

(** [ws.onclose] *)
Definition onclose (g : Game) : Game :=
  set_timers (timers g ++ [reconnect_delay]) (set_connected false g).

(** [ws.onerror] *)
Definition onerror (g : Game) : Game := g.

(** * The event loop *)

(** What the browser delivers to the game object: the events of the
    sockets it has created, the expiry of a timer it has started, and
    the clicks and inputs of the page. [EvClosing] is the start of the
    closing handshake of an open socket, which changes its [readyState]
    and runs no handler. *)
Inductive Event : Type :=
  | EvOpen (i : nat)
  | EvMessage (i : nat) (message : Message)
  | EvError (i : nat)
  | EvClosing (i : nat)
  | EvClose (i : nat)
  | EvTimer (k : nat)
  | UiUsername (text : string)
  | UiSubmitLogin
  | UiBetType (type : string)
  | UiHorse (horseId : Z)
  | UiPlaceTrifecta
  | UiMystery (random_index : RandomIndex)
  | UiClearTrifecta.

Definition set_readyState (i : nat) (st : ReadyState) (g : Game) : Game :=
  set_sockets (<[i := st]> (sockets g)) g.

(** One turn of the event loop. The browser opens a socket that is
    connecting, delivers frames on an open socket, starts the closing
    handshake of an open socket, and closes a socket once; an event that
    it cannot deliver gives [None]. A click runs the handler of its
    button whatever the page displays: the clicks that the page can
    deliver are the ones of [clickable] below. *)
Definition step (ev : Event) (g : Game) : option Game :=
  match ev with
  | EvOpen i =>
      match sockets g !! i with
      | Some CONNECTING => Some (onopen (set_readyState i OPEN g))
      | _ => None
      end
  | EvMessage i message =>
      match sockets g !! i with
      | Some OPEN => Some (onmessage message g)
      | _ => None
      end
  | EvError i =>
      match sockets g !! i with
      | Some CLOSED | None => None
      | Some _ => Some (onerror g)
      end
  | EvClosing i =>
      match sockets g !! i with
      | Some OPEN => Some (set_readyState i CLOSING g)
      | _ => None
      end
  | EvClose i =>
      match sockets g !! i with
      | Some CLOSED | None => None
      | Some _ => Some (onclose (set_readyState i CLOSED g))
      end
  | EvTimer k =>
      match timers g !! k with
      | Some _ => Some (connect (set_timers (delete k (timers g)) g))
      | None => None
      end
  | UiUsername text => Some (set_usernameInput text g)
  | UiSubmitLogin => Some (login g)
  | UiBetType type => Some (selectBetType type g)
  | UiHorse horseId => Some (selectHorse horseId g)
  | UiPlaceTrifecta => Some (placeTrifectaBet g)
  | UiMystery random_index => Some (selectMysteryTrifecta random_index g)
  | UiClearTrifecta => Some (clearTrifectaSelection g)
  end.

(** The game object when its constructor returns. *)
Definition new_game : Game :=
  connect
    {| sockets := []; ws := None; connected := false; timers := [];
       user := None; currentRace := None; selectedBetType := "winner";
       selectedHorse := None; trifectaSelection := [];
       currentRaceBets := []; currentOdds := ∅; usernameInput := "";
       outbox := []; notices := []; bettingPanelShown := true |}.

(** Running a list of events, oldest first. *)
Fixpoint run (evs : list Event) (g : Game) : option Game :=
  match evs with
  | [] => Some g
  | ev :: rest => g' ← step ev g; run rest g'
  end.

Inductive reachable : Game → Prop :=
  | reachable_new : reachable new_game
  | reachable_step ev g g' :
      reachable g → step ev g = Some g' → reachable g'.

(** [updateTrifectaDisplay()] writes [count !== 3] to the [disabled]
    property of the button that places the trifecta; every handler that
    writes to the selection calls it afterwards, and the page starts
    with the button disabled. *)
Definition placeTrifectaBtn_disabled (g : Game) : bool :=
  negb (length (trifectaSelection g) =? 3)%nat.

(** Conditions without which the page delivers no click. A horse has a
    button once a [race_state] has announced it: [updateBettingOptions]
    keeps the buttons of the grid to the horses of the race that is
    held. The buttons of the mystery trifecta, of clearing and of
    placing the trifecta are inside the section [#trifecta-bet], which
    [selectBetType] displays for the trifecta only; the button that
    places the trifecta is disabled unless three horses are selected.
    The display of the screens and of the betting panel is not asked
    for: the page delivers no more clicks than these. *)
Definition clickable (ev : Event) (g : Game) : Prop :=
  match ev with
  | UiHorse horseId =>
      match currentRace g with
      | Some race => horseId ∈ map horse_id (race_horses race)
      | None => False
      end
  | UiMystery _ | UiClearTrifecta => selectedBetType g = "trifecta"%string
  | UiPlaceTrifecta =>
      selectedBetType g = "trifecta"%string
      ∧ placeTrifectaBtn_disabled g = false
  | _ => True
  end.

(** The states the event loop reaches when every click meets these
    conditions: all the states of the page are among them. *)
Inductive page_reachable : Game → Prop :=
  | page_reachable_new : page_reachable new_game
  | page_reachable_step ev g g' :
      page_reachable g → clickable ev g → step ev g = Some g' →
      page_reachable g'.

(** A list of events of which the page can deliver every click, in the
    state in which it comes. *)
Fixpoint clickable_run (evs : list Event) (g : Game) : Prop :=
  match evs with
  | [] => True
  | ev :: rest =>
      clickable ev g
      ∧ match step ev g with
        | Some g' => clickable_run rest g'
        | None => False
        end
  end.

(** * Vocabulary of the properties *)

(** A decimal digit. *)
Definition is_digit (c : ascii) : Prop :=
  (48 ≤ nat_of_ascii c ∧ nat_of_ascii c ≤ 57)%nat.

(** The values for which the specification lets [formatOdds] answer its
    default text. *)
Definition absent_or_nan (v : oddsval) : Prop :=
  v = ONull ∨ v = OUndefined ∨ v = ONum S754_nan.

(** A text with exactly two decimal places: an optional sign, at least
    one digit, the point, two digits. *)
Definition two_decimals (s : string) : Prop :=
  ∃ (sign : bool) (whole : list ascii) (d1 d2 : ascii),
    s = (if sign then "-" else "")
        +:+ string_of_list_ascii (whole ++ [point_char; d1; d2])
    ∧ whole ≠ [] ∧ Forall is_digit whole ∧ is_digit d1 ∧ is_digit d2.

(** [s] is the decimal text of [n] hundredths: an optional sign, the
    digits of [n] padded to three at least, and the point before the last
    two. *)
Definition hundredths_text (sign : bool) (n : N) (s : string) : Prop :=
  ∃ (whole : list ascii) (d1 d2 : ascii),
    s = (if sign then "-" else "")
        +:+ string_of_list_ascii (whole ++ [point_char; d1; d2])
    ∧ whole ≠ []
    ∧ Forall is_digit (whole ++ [d1; d2])
    ∧ whole ++ [d1; d2] = pad_fraction 2 (digits_of n).

(** * Sample data *)

Module Sample.

Definition horse (id : Z) (name : string) : Horse :=
  {| horse_id := id; horse_name := name; horse_position := n0;
     horse_finished := false |}.

Definition horses : list Horse :=
  [horse 1 "Thunder"; horse 2 "Comet"; horse 3 "Blaze"; horse 4 "Storm"].

Definition race (id : Z) (phase : string) : Race :=
  {| race_id := id; race_phase := phase; race_time_remaining := n8;
     race_horses := horses; race_odds := ∅ |}.

Definition plain (payload : Payload) : Message :=
  {| msg_user := None; msg_payload := payload |}.

Definition alice : User :=
  {[ "id" := VStr "u1"; "username" := VStr "alice"; "balance" := VNum n8 ]}.

Definition bet (type : string) (selection : list Z) : Bet :=
  {| bet_type := type; bet_amount := n1; bet_selection := selection |}.

(** The socket opens and the user logs in. *)
Definition logged_in : list Event :=
  [ UiUsername "alice"; EvOpen 0;
    EvMessage 0 {| msg_user := Some alice; msg_payload := LoginSuccess |} ].

(** A session: after the login, race 1 opens for betting. *)
Definition session : list Event :=
  logged_in ++ [ EvMessage 0 (plain (RaceState (race 1 "betting"))) ].

(** The source of random indices that always answers [0]. *)
Definition first_index : RandomIndex := λ _ _, 0%fin.

End Sample.

Module Play.

(** The state after a list of events, from the new game; the new game
    itself when some event cannot be delivered. *)
Definition play (evs : list Event) : Game :=
  default new_game (run evs new_game).

(** The sample session followed by the confirmation of a winner bet on
    horse 1. *)
Definition winner_placed : list Event :=
  Sample.session
  ++ [EvMessage 0 (Sample.plain (BetPlaced n4 (Sample.bet "winner" [1])))].

(** The entry [addBetToCurrentRace] records for that bet. *)
Definition recorded_winner : BetInfo :=
  {| info_bet := Sample.bet "winner" [1];
     displayText := Some "Thunder"%string;
     horseName := Some "Thunder"%string;
     oddsAtBetting := Some (OddsRecorded (ONum n2)) |}.

(** After the winner bet, the user turns to the trifecta and picks horses
    2 and 3. *)
Definition picking : list Event :=
  winner_placed ++ [UiBetType "trifecta"; UiHorse 2; UiHorse 3].

(** The next race arrives. *)
Definition next_race : Message :=
  Sample.plain (RaceState (Sample.race 2 "betting")).

(** Race 1 is reported as racing; a [phase_update] then announces the
    betting phase, which displays the betting panel; the user turns to
    the trifecta and picks horses 1, 2 and 3. *)
Definition picks_while_racing : list Event :=
  Sample.logged_in
  ++ [ EvMessage 0 (Sample.plain (RaceState (Sample.race 1 "racing")));
       EvMessage 0 (Sample.plain (PhaseUpdate "betting" n8));
       UiBetType "trifecta"; UiHorse 1; UiHorse 2; UiHorse 3 ].

(** The server confirms two winner bets in one race. *)
Definition confirmed_twice : list Event :=
  Sample.session
  ++ [ EvMessage 0 (Sample.plain (BetPlaced n4 (Sample.bet "winner" [1])));
       EvMessage 0 (Sample.plain (BetPlaced n2 (Sample.bet "winner" [2]))) ].

End Play.

(** * Vocabulary of the selection *)

(** A list of clicks on horse buttons, each one toggling its horse. *)
Definition toggle_all (horseIds : list Z) (g : Game) : Game :=
  foldl (λ s horseId, selectTrifectaHorse horseId s) g horseIds.

Definition capacity_notice : string :=
  "You can only select 3 horses for box trifecta".

(** * Vocabulary of the bets *)

Definition closed_notice : string := "Betting is closed".

(** The bets of one type among the bets of the current race. *)
Definition bets_of_type (type : string) (bets : list BetInfo) : list BetInfo :=
  filter (λ bet, bet_type (info_bet bet) = type) bets.

(** At most one bet of each type. *)
Definition one_bet_per_type (bets : list BetInfo) : Prop :=
  ∀ type, (length (bets_of_type type bets) ≤ 1)%nat.

(** * Vocabulary of the connection *)

#[global] Instance ReadyState_eq_dec : EqDecision ReadyState.
Proof. solve_decision. Defined.

(** The sockets that have not closed yet: the ones that can still fire
    [onclose]. *)
Definition live_sockets (g : Game) : list ReadyState :=
  filter (λ st, st ≠ CLOSED) (sockets g).

(** The part of the state that reconnection is about. *)
Definition connection (g : Game) : list ReadyState * list Z :=
  (sockets g, timers g).

(** * Vocabulary of the values of numbers *)

(** A binary64 value: the mantissa and the exponent of a finite number
    are the canonical ones. *)
Definition is_binary64 (x : number) : Prop := valid_binary prec emax x = true.

(** The value of a finite number in units of [2^-1074], the least
    positive binary64 value. *)
Definition ulps (x : number) : option Z :=
  match x with
  | S754_zero _ => Some 0
  | S754_finite s m e =>
      Some ((if s then -1 else 1) * (Zpos m * 2 ^ (e + 1074)))
  | _ => None
  end.

(** [x <= y] on the values of two numbers, an infinity below or above
    every finite value and [NaN] not comparable to anything. *)
Definition le_value (x y : number) : Prop :=
  match x, y with
  | S754_nan, _ | _, S754_nan => False
  | S754_infinity true, _ | _, S754_infinity false => True
  | S754_infinity false, _ | _, S754_infinity true => False
  | _, _ =>
      match ulps x, ulps y with
      | Some a, Some b => a ≤ b
      | _, _ => False
      end
  end.

(** [x < y] on the values of two numbers. *)
Definition lt_value (x y : number) : Prop :=
  match x, y with
  | S754_nan, _ | _, S754_nan => False
  | S754_infinity true, S754_infinity true => False
  | S754_infinity false, S754_infinity false => False
  | S754_infinity true, _ | _, S754_infinity false => True
  | S754_infinity false, _ | _, S754_infinity true => False
  | _, _ =>
      match ulps x, ulps y with
      | Some a, Some b => a < b
      | _, _ => False
      end
  end.
(** * Vocabulary of the event loop *)

(** The events of the page: clicks and inputs of the user. *)
Definition is_ui (ev : Event) : bool :=
  match ev with
  | EvOpen _ | EvMessage _ _ | EvError _ | EvClosing _ | EvClose _
  | EvTimer _ => false
  | _ => true
  end.

(** What only the server is the source of: the session, the race, the
    bets of the race and the odds. *)
Definition server_state (g : Game)
  : option User * option Race * list BetInfo * Odds :=
  (user g, currentRace g, currentRaceBets g, currentOdds g).

(** What only the page is the source of: the bet type, the horse picked
    for a single bet and the text of the username input. *)
Definition page_state (g : Game) : string * option Z * string :=
  (selectedBetType g, selectedHorse g, usernameInput g).

(** The sockets, the current one and the reconnect timers. *)
Definition transport (g : Game) : list ReadyState * option nat * list Z :=
  (sockets g, ws g, timers g).

(** [this.ws.readyState], when there is a current socket. *)
Definition current_readyState (g : Game) : option ReadyState :=
  i ← ws g; sockets g !! i.

(** A socket on which the connection is established: open, or in its
    closing handshake. *)
Definition established (st : option ReadyState) : bool :=
  match st with
  | Some OPEN | Some CLOSING => true
  | _ => false
  end.

(** The sockets older than the current one have closed; the current one
    is the last one created. *)
Definition current_is_latest (g : Game) : Prop :=
  ∃ older st, sockets g = older ++ [st] ∧ ws g = Some (length older)
              ∧ Forall (λ s, s = CLOSED) older.

Definition username_notice : string := "Please enter a username".

Definition not_ready_notice : string :=
  "Connection not ready. Please wait and try again.".

(** * Vocabulary of the frames *)

(** A frame as the server expects it: a login names a user; a bet
    stakes one dollar, a trifecta on three horses and any other bet on
    one horse with a non-zero id. *)
Definition well_formed (frame : Frame) : Prop :=
  match frame with
  | FLogin username => username ≠ ""%string
  | FPlaceBet type amount selection =>
      amount = n1
      ∧ if decide (type = "trifecta"%string)
        then length selection = 3%nat
        else ∃ horse, selection = [horse] ∧ horse ≠ 0
  | FGetRaceState | FGetLeaderboard => True
  end.

(** A frame as the handlers build it in the state [g]: a login of the
    username in the input; a bet of a type of which the race has no bet
    yet, a trifecta on the three horses selected, a bet of the selected
    type, not a trifecta, on one horse. *)
Definition sent_from (g : Game) (frame : Frame) : Prop :=
  match frame with
  | FLogin username => username = usernameInput g ∧ username ≠ ""%string
  | FPlaceBet type amount selection =>
      amount = n1
      ∧ has_bet_of_type type g = false
      ∧ if decide (type = "trifecta"%string)
        then selection = trifectaSelection g ∧ length selection = 3%nat
        else type = selectedBetType g
             ∧ ∃ horse, selection = [horse] ∧ horse ≠ 0
  | FGetRaceState | FGetLeaderboard => True
  end.

(** The messages that announce a race announce horses of distinct ids. *)
Definition distinct_horses (ev : Event) : Prop :=
  match ev with
  | EvMessage _ message =>
      match msg_payload message with
      | RaceState race => NoDup (map horse_id (race_horses race))
      | _ => True
      end
  | _ => True
  end.

(** A bet that names no horse twice. *)
Definition distinct_selection (frame : Frame) : Prop :=
  match frame with
  | FPlaceBet _ _ selection => NoDup selection
  | _ => True
  end.

(** * Vocabulary of the selection, continued *)

(** At most three horses are selected, and none while the bet type is
    not the trifecta. *)
Definition selection_ok (g : Game) : Prop :=
  (length (trifectaSelection g) ≤ 3)%nat
  ∧ (selectedBetType g ≠ "trifecta"%string → trifectaSelection g = []).

(** Every selection is free of repetitions: the one on the page, the
    ids of the race that is held and the ones that went out. *)
Definition distinct_ok (g : Game) : Prop :=
  NoDup (trifectaSelection g)
  ∧ (∀ race, currentRace g = Some race →
             NoDup (map horse_id (race_horses race)))
  ∧ Forall distinct_selection (outbox g).

(** The messages that announce a race. *)
Definition announces_race (ev : Event) : bool :=
  match ev with
  | EvMessage _ message =>
      match msg_payload message with
      | RaceState _ => true
      | _ => false
      end
  | _ => false
  end.

(** * Vocabulary of the bets, continued *)

(** The two outcomes of an attempt to bet that takes [g] to [g']: one
    [place_bet] frame of one dollar goes out on the open socket, for a
    type of which the race has no bet, no notice is shown and no horse
    stays selected for a trifecta; or one notice is shown and nothing
    goes out. *)
Definition bet_outcome (g g' : Game) : Prop :=
  (∃ type selection,
     outbox g' = outbox g ++ [FPlaceBet type n1 selection]
     ∧ notices g' = notices g
     ∧ ws_is_open g = true
     ∧ has_bet_of_type type g = false
     ∧ trifectaSelection g' = [])
  ∨ (∃ notice, outbox g' = outbox g ∧ notices g' = notices g ++ [notice]).

(** The [odds_update] messages. *)
Definition updates_odds (ev : Event) : bool :=
  match ev with
  | EvMessage _ message =>
      match msg_payload message with
      | OddsUpdate _ _ => true
      | _ => false
      end
  | _ => false
  end.

(** * More methods of [SaddleUpGame] *)

(** [isHorseInPlayerBets(horseId)] *)
Definition isHorseInPlayerBets (horseId : Z) (g : Game) : bool :=
  existsb
    (λ bet,
       if String.eqb (bet_type (info_bet bet)) "trifecta"
       then bool_decide (horseId ∈ bet_selection (info_bet bet))
       else match head (bet_selection (info_bet bet)) with
            | Some id => id =? horseId
            | None => false
            end)
    (currentRaceBets g).

(** Whether a bet names a horse as [isHorseInPlayerBets] reads it: any
    horse of a trifecta, the first horse of another bet. *)
Definition bet_names (bet : Bet) (horseId : Z) : bool :=
  if String.eqb (bet_type bet) "trifecta"
  then bool_decide (horseId ∈ bet_selection bet)
  else bool_decide (head (bet_selection bet) = Some horseId).

(** * The betting grid and the track *)

(** [ToNumber(v)], as the comparisons of [getOddsTier] apply it to a
    value that is not a number. *)
Definition to_number (v : oddsval) : number :=
  match v with
  | OUndefined => S754_nan
  | ONull => n0
  | ONum x => x
  end.

(** [v || d] with a number for [d]. *)
Definition or_else (v : oddsval) (d : number) : oddsval :=
  if truthy v then v else ONum d.

(** A button of the betting grid: [dataset.horseId], the colour class
    and the texts after [Win: ] and [Place: ]. *)
Record Button : Type := {
  btn_horseId : Z;
  btn_tier : Tier;
  btn_win : option string;
  btn_place : option string
}.

(** [odds[horse.id]?.winner] and [odds[horse.id]?.place] *)
Definition winner_of (odds : Odds) (horseId : Z) : oddsval :=
  match odds !! horseId with
  | Some entry => winner entry
  | None => OUndefined
  end.

Definition place_of (odds : Odds) (horseId : Z) : oddsval :=
  match odds !! horseId with
  | Some entry => place entry
  | None => OUndefined
  end.

(** [createHorseButton(horse, odds)] *)
Definition createHorseButton (horse : Horse) (odds : Odds) : Button :=
  let winnerOdds := or_else (winner_of odds (horse_id horse)) n2 in
  let placeOdds := or_else (place_of odds (horse_id horse)) n1_5 in
  {| btn_horseId := horse_id horse;
     btn_tier := getOddsTier (to_number winnerOdds);
     btn_win := formatOdds winnerOdds;
     btn_place := formatOdds placeOdds |}.

(** [createHorseButtons(horses, odds)]: the grid is emptied and filled
    with one button for each horse. *)
Definition createHorseButtons (horses : list Horse) (odds : Odds)
  : list Button :=
  map (λ horse, createHorseButton horse odds) horses.

(** [updateBettingButtonOdds(odds)] on the buttons of the page: a button
    whose horse has an entry in [odds] takes the texts and the colour of
    the entry, another button stays as it is. *)
Definition updateBettingButtonOdds (odds : Odds) (buttons : list Button)
  : list Button :=
  map (λ btn,
         let horseId := parseInt (btn_horseId btn) in
         match odds !! horseId with
         | Some entry =>
             {| btn_horseId := btn_horseId btn;
                btn_tier := getOddsTier (to_number (winner entry));
                btn_win := formatOdds (winner entry);
                btn_place := formatOdds (place entry) |}
         | None => btn
         end)
      buttons.

(** [needsRecreation] of [updateBettingOptions]; the second operand of
    [||] is evaluated when the lengths are equal, where [horses[index]]
    is the horse at the place of the button. *)
Definition needsRecreation (existingButtons : list Button)
  (horses : list Horse) : bool :=
  negb (length existingButtons =? length horses)%nat
  || existsb (λ '(btn, horse),
                negb (parseInt (btn_horseId btn) =? horse_id horse))
       (zip existingButtons horses).

(** [updateBettingOptions(horses, odds)] on the buttons of the grid. *)
Definition updateBettingOptions (horses : list Horse) (odds : Odds)
  (existingButtons : list Button) : list Button :=
  if needsRecreation existingButtons horses
  then createHorseButtons horses odds
  else updateBettingButtonOdds odds existingButtons.

(** The colour class [createTrack] gives the horse of a lane. *)
Definition lane_tier (horse : Horse) (g : Game) : Tier :=
  match currentOdds g !! horse_id horse with
  | Some entry =>
      if truthy (winner entry) then getOddsTier (to_number (winner entry))
      else Moderate
  | None => Moderate
  end.

(** * The client with three selects for the trifecta

    [src/frontend/script.js] picks the horses of a trifecta in three
    [select] elements; its [send], [showError] and bets of the race are
    the ones above. *)

Module Script.

(** The [value] of a select after [parseInt]: the id of the horse of the
    option, or [NaN] for the empty option, which is [None]. *)
Definition Selects : Type := list (option Z).

(** [!val] on such a value. *)
Definition falsy (val : option Z) : bool :=
  match val with
  | None | Some 0 => true
  | Some _ => false
  end.

(** [placeTrifectaBet()]: the state and the values of the three selects
    when it returns. *)
Definition placeTrifectaBet (trifectaSelects : Selects) (g : Game)
  : Game * Selects :=
  let selection := take 3 trifectaSelects in
  if existsb falsy selection
  then (showError "Please select all three horses" g, trifectaSelects)
  else if negb (length (remove_dups selection) =? 3)%nat
  then (showError "Please select three different horses" g, trifectaSelects)
  else if has_bet_of_type "trifecta" g
  then (showError "You can only place one trifecta bet per race" g,
        trifectaSelects)
  else (send (FPlaceBet "trifecta" n1 (omap id selection)) g,
        map (λ _, None) trifectaSelects).

End Script.

(** * Verified properties *)

(** * Numbers: order *)

Ltac by_compare :=
  change (Pos.compare_cont Eq) with Pos.compare;
  repeat match goal with
    | |- context [Z.compare ?a ?b] => destruct (Z.compare_spec a b); subst
    | |- context [Pos.compare ?a ?b] => destruct (Pos.compare_spec a b); subst
    end;
  simpl; try congruence; try lia.

Ltac split_numbers :=
  repeat match goal with
    | x : number |- _ => destruct x as [? | ? | | ? ? ?]
    | x : spec_float |- _ => destruct x as [? | ? | | ? ? ?]
    end;
  repeat match goal with s : bool |- _ => destruct s end.

Lemma le_num_trans (x y z : number) :
  le_num x y = true → le_num y z = true → le_num x z = true.
Proof.
  unfold le_num, SFleb, SFcompare.
  split_numbers; simpl; try congruence; by_compare.
Qed.

Lemma compare_swap (x y : number) :
  SFcompare y x = CompOpp <$> SFcompare x y.
Proof.
  unfold SFcompare. split_numbers; simpl; try congruence; by_compare.
Qed.

Lemma le_num_not_nan (x y : number) :
  le_num x y = true → is_nan x = false ∧ is_nan y = false.
Proof. unfold le_num, SFleb. by split_numbers. Qed.

(** On numbers that are not [NaN], [x <= y] fails exactly when
    [y < x]. *)
Lemma not_le_num_lt (x y : number) :
  is_nan x = false → is_nan y = false →
  le_num x y = false ↔ lt_num y x = true.
Proof.
  intros Hx Hy. unfold le_num, lt_num, SFleb, SFltb.
  rewrite (compare_swap x y).
  destruct (SFcompare x y) as [[]|] eqn:E; simpl; try (split; congruence).
  destruct x, y; simpl in *; congruence.
Qed.

Lemma lt_num_le_false (c x : number) :
  lt_num c x = true → le_num x c = false.
Proof.
  unfold lt_num, le_num, SFltb, SFleb. rewrite (compare_swap c x).
  by destruct (SFcompare c x) as [[]|].
Qed.

(** Below a bound that it does not exceed, a number is above [c] exactly
    when it is not at most [c]. *)
Lemma lt_num_iff (c x u : number) :
  is_nan c = false → le_num x u = true →
  lt_num c x = true ↔ le_num x c = false.
Proof.
  intros Hc Hu. destruct (le_num_not_nan _ _ Hu) as [Hx _]. split.
  - apply lt_num_le_false.
  - by apply not_le_num_lt.
Qed.

(** * Numbers: the order of binary64 values *)

Lemma digits2_pos_bounds (m : positive) :
  2 ^ (Zpos (digits2_pos m) - 1) ≤ Zpos m < 2 ^ Zpos (digits2_pos m).
Proof.
  induction m as [p IH|p IH|]; cbn [digits2_pos]; [..|by vm_compute].
  all: rewrite Pos2Z.inj_succ.
  all: replace (Z.succ (Zpos (digits2_pos p)) - 1)
         with (Z.succ (Zpos (digits2_pos p) - 1)) by lia.
  all: rewrite !Z.pow_succ_r by lia.
  all: lia.
Qed.

(** A canonical mantissa has at most 53 bits, and exactly 53 above the
    least exponent. *)
Lemma bounded_mantissa (m : positive) (e : Z) :
  bounded prec emax m e = true →
  -1074 ≤ e ∧ Zpos m < 2 ^ 53 ∧ (-1074 < e → 2 ^ 52 ≤ Zpos m).
Proof.
  unfold bounded, canonical_mantissa, fexp, SpecFloat.emin, prec, emax.
  intros [Hc _]%andb_prop. apply Z.eqb_eq in Hc.
  assert (Hbits : -1074 ≤ e ∧ Zpos (digits2_pos m) ≤ 53
                  ∧ (-1074 < e → Zpos (digits2_pos m) = 53)) by lia.
  destruct Hbits as (He & Hd53 & Hnormal).
  pose proof (digits2_pos_bounds m) as [Hlo Hhi].
  split_and!; [done| |].
  - eapply Z.lt_le_trans; [exact Hhi|]. by apply Z.pow_le_mono_r.
  - intros Hlt. by rewrite (Hnormal Hlt) in Hlo.
Qed.

(** Between canonical pairs, the smaller exponent has the smaller
    value. *)
Lemma ulps_exponent_lt (m1 m2 : positive) (e1 e2 : Z) :
  bounded prec emax m1 e1 = true → bounded prec emax m2 e2 = true →
  e1 < e2 →
  Zpos m1 * 2 ^ (e1 + 1074) < Zpos m2 * 2 ^ (e2 + 1074).
Proof.
  intros (He1 & Hm1 & _)%bounded_mantissa (_ & _ & Hm2)%bounded_mantissa Hlt.
  specialize (Hm2 ltac:(lia)).
  replace (e2 + 1074) with ((e2 - e1 - 1) + 1 + (e1 + 1074)) by lia.
  rewrite (Z.pow_add_r 2 (e2 - e1 - 1 + 1) (e1 + 1074)) by lia.
  rewrite (Z.pow_add_r 2 (e2 - e1 - 1) 1) by lia.
  assert (Hp : 0 < 2 ^ (e1 + 1074)) by (apply Z.pow_pos_nonneg; lia).
  assert (Hq : 0 < 2 ^ (e2 - e1 - 1)) by (apply Z.pow_pos_nonneg; lia).
  change (2 ^ 1) with 2. change (2 ^ 53) with (2 * 2 ^ 52) in Hm1.
  set (p := 2 ^ (e1 + 1074)) in *. set (q := 2 ^ (e2 - e1 - 1)) in *.
  set (h := 2 ^ 52) in *. clearbody p q h.
  assert (Ha : Zpos m1 * p < 2 * h * p) by nia.
  assert (Hb : 2 * h * p ≤ Zpos m2 * 2 * p) by nia.
  assert (Hc : Zpos m2 * 2 * p * 1 ≤ Zpos m2 * 2 * p * q)
    by (apply Z.mul_le_mono_nonneg_l; lia).
  lia.
Qed.

Lemma ulps_positive (m : positive) (e : Z) :
  bounded prec emax m e = true → 0 < Zpos m * 2 ^ (e + 1074).
Proof.
  intros (He & _ & _)%bounded_mantissa.
  apply Z.mul_pos_pos; [done|]. apply Z.pow_pos_nonneg; lia.
Qed.

(** The comparison of [SFcompare] on canonical pairs is the comparison
    of their values. *)
Lemma magnitude_compare (m1 m2 : positive) (e1 e2 : Z) :
  bounded prec emax m1 e1 = true → bounded prec emax m2 e2 = true →
  match e1 ?= e2 with
  | Lt => Lt
  | Gt => Gt
  | Eq => Pos.compare_cont Eq m1 m2
  end
  = (Zpos m1 * 2 ^ (e1 + 1074) ?= Zpos m2 * 2 ^ (e2 + 1074)).
Proof.
  intros H1 H2. destruct (Z.compare_spec e1 e2) as [-> | Hlt | Hgt].
  - pose proof (bounded_mantissa _ _ H2) as (He & _ & _).
    assert (Hp : 0 < 2 ^ (e2 + 1074)) by (apply Z.pow_pos_nonneg; lia).
    change (Pos.compare_cont Eq m1 m2) with (Pos.compare m1 m2).
    symmetry. destruct (Pos.compare_spec m1 m2) as [-> | Hlt | Hgt].
    + apply Z.compare_refl.
    + apply Z.compare_lt_iff, Z.mul_lt_mono_pos_r; [done|lia].
    + apply Z.compare_gt_iff, Z.mul_lt_mono_pos_r; [done|lia].
  - symmetry. apply Z.compare_lt_iff. by apply ulps_exponent_lt.
  - symmetry. apply Z.compare_gt_iff. by apply ulps_exponent_lt.
Qed.

(** On binary64 values, [le_num] is the order of the values. *)
Lemma le_num_exact (x y : number) :
  is_binary64 x → is_binary64 y → le_num x y = true ↔ le_value x y.
Proof.
  unfold is_binary64, le_num, SFleb, SFcompare, le_value, ulps.
  destruct x as [sx|sx| |sx mx ex], y as [sy|sy| |sy my ey];
    cbn [valid_binary]; intros Hx Hy;
    try (by repeat match goal with s : bool |- _ => destruct s end).
  - pose proof (ulps_positive _ _ Hy).
    destruct sy; simpl; split; (done || lia).
  - pose proof (ulps_positive _ _ Hx).
    destruct sx; simpl; split; (done || lia).
  - pose proof (ulps_positive _ _ Hx) as Hpx.
    pose proof (ulps_positive _ _ Hy) as Hpy.
    pose proof (magnitude_compare _ _ _ _ Hx Hy) as Hcmp.
    set (a := Zpos mx * 2 ^ (ex + 1074)) in *.
    set (b := Zpos my * 2 ^ (ey + 1074)) in *.
    assert (Hopp : match ex ?= ey with
                   | Eq => CompOpp (Pos.compare_cont Eq mx my)
                   | Lt => Gt
                   | Gt => Lt
                   end = CompOpp (a ?= b))
      by (rewrite <- Hcmp; by destruct (ex ?= ey)).
    destruct sx, sy; try rewrite Hcmp; try rewrite Hopp;
      destruct (Z.compare_spec a b); simpl; split; (done || lia).
Qed.

(** On binary64 values, [lt_num] is the strict order of the values. *)
Lemma lt_num_exact (x y : number) :
  is_binary64 x → is_binary64 y → lt_num x y = true ↔ lt_value x y.
Proof.
  unfold is_binary64, lt_num, SFltb, SFcompare, lt_value, ulps.
  destruct x as [sx|sx| |sx mx ex], y as [sy|sy| |sy my ey];
    cbn [valid_binary]; intros Hx Hy;
    try (by repeat match goal with s : bool |- _ => destruct s end).
  - pose proof (ulps_positive _ _ Hy).
    destruct sy; simpl; split; (done || lia).
  - pose proof (ulps_positive _ _ Hx).
    destruct sx; simpl; split; (done || lia).
  - pose proof (ulps_positive _ _ Hx) as Hpx.
    pose proof (ulps_positive _ _ Hy) as Hpy.
    pose proof (magnitude_compare _ _ _ _ Hx Hy) as Hcmp.
    set (a := Zpos mx * 2 ^ (ex + 1074)) in *.
    set (b := Zpos my * 2 ^ (ey + 1074)) in *.
    assert (Hopp : match ex ?= ey with
                   | Eq => CompOpp (Pos.compare_cont Eq mx my)
                   | Lt => Gt
                   | Gt => Lt
                   end = CompOpp (a ?= b))
      by (rewrite <- Hcmp; by destruct (ex ?= ey)).
    destruct sx, sy; try rewrite Hcmp; try rewrite Hopp;
      destruct (Z.compare_spec a b); simpl; split; (done || lia).
Qed.

(** The thresholds of the tiers are binary64 values: 1.5, 2.5, 4 and 8
    in units of [2^-1074]. *)
Lemma thresholds_exact :
  (is_binary64 n1_5 ∧ is_binary64 n2_5 ∧ is_binary64 n4 ∧ is_binary64 n8)
  ∧ ulps n1_5 = Some (3 * 2 ^ 1073)
  ∧ ulps n2_5 = Some (5 * 2 ^ 1073)
  ∧ ulps n4 = Some (4 * 2 ^ 1074)
  ∧ ulps n8 = Some (8 * 2 ^ 1074).
Proof. by vm_compute. Qed.

(** * C4: the odds classifier *)

Lemma getOddsTier_monotone (o o' : number) :
  le_num o o' = true →
  (tier_rank (getOddsTier o) ≤ tier_rank (getOddsTier o'))%nat.
Proof.
  intros Hle.
  pose proof (le_num_trans o o' n1_5 Hle) as T1.
  pose proof (le_num_trans o o' n2_5 Hle) as T2.
  pose proof (le_num_trans o o' n4 Hle) as T3.
  pose proof (le_num_trans o o' n8 Hle) as T4.
  unfold getOddsTier.
  destruct (le_num o' n1_5), (le_num o' n2_5), (le_num o' n4), (le_num o' n8);
    try rewrite T1 by done; try rewrite T2 by done;
    try rewrite T3 by done; try rewrite T4 by done;
    repeat match goal with |- context [if ?b then _ else _] => destruct b end;
    simpl; lia.
Qed.

(** The tiers in terms of the comparisons of the source, for every
    number. *)
Lemma getOddsTier_thresholds (o o' : number) :
  (getOddsTier o = Favorite ↔ le_num o n1_5 = true)
  ∧ (getOddsTier o = Strong ↔ lt_num n1_5 o = true ∧ le_num o n2_5 = true)
  ∧ (getOddsTier o = Moderate ↔ lt_num n2_5 o = true ∧ le_num o n4 = true)
  ∧ (getOddsTier o = Long ↔ lt_num n4 o = true ∧ le_num o n8 = true)
  ∧ (getOddsTier o = Longshot ↔ le_num o n8 = false)
  ∧ (getOddsTier n1_5 = Favorite ∧ getOddsTier n2_5 = Strong
     ∧ getOddsTier n4 = Moderate ∧ getOddsTier n8 = Long)
  ∧ (le_num o o' = true →
     (tier_rank (getOddsTier o) ≤ tier_rank (getOddsTier o'))%nat).
Proof.
  pose proof (lt_num_iff n1_5 o n2_5 eq_refl) as L1.
  pose proof (lt_num_iff n2_5 o n4 eq_refl) as L2.
  pose proof (lt_num_iff n4 o n8 eq_refl) as L3.
  pose proof (λ H, le_num_trans o n1_5 n2_5 H eq_refl) as C1.
  pose proof (λ H, le_num_trans o n2_5 n4 H eq_refl) as C2.
  pose proof (λ H, le_num_trans o n4 n8 H eq_refl) as C3.
  split_and!; [..| apply getOddsTier_monotone]; try done.
  all: unfold getOddsTier.
  all: destruct (le_num o n1_5), (le_num o n2_5), (le_num o n4), (le_num o n8).
  all: intuition congruence.
Qed.

(** C4. Every binary64 number falls in the tier its value selects:
    favorite up to 1.5, strong above 1.5 and up to 2.5, moderate above 2.5
    and up to 4.0, long above 4.0 and up to 8.0, longshot for everything
    else ([NaN] included); the four thresholds belong to the lower tier;
    and the tier never moves towards favorite when the odds grow. *)
Theorem getOddsTier_classifies (o o' : number) :
  is_binary64 o → is_binary64 o' →
  (getOddsTier o = Favorite ↔ le_value o n1_5)
  ∧ (getOddsTier o = Strong ↔ lt_value n1_5 o ∧ le_value o n2_5)
  ∧ (getOddsTier o = Moderate ↔ lt_value n2_5 o ∧ le_value o n4)
  ∧ (getOddsTier o = Long ↔ lt_value n4 o ∧ le_value o n8)
  ∧ (getOddsTier o = Longshot ↔ ¬ le_value o n8)
  ∧ (getOddsTier n1_5 = Favorite ∧ getOddsTier n2_5 = Strong
     ∧ getOddsTier n4 = Moderate ∧ getOddsTier n8 = Long)
  ∧ (le_value o o' →
     (tier_rank (getOddsTier o) ≤ tier_rank (getOddsTier o'))%nat).
Proof.
  intros Ho Ho'.
  destruct thresholds_exact as ((V1 & V2 & V3 & V4) & _).
  destruct (getOddsTier_thresholds o o') as (T1 & T2 & T3 & T4 & T5 & B & M).
  rewrite <- !le_num_exact, <- !lt_num_exact by done.
  split_and!; try done.
  rewrite T5. by destruct (le_num o n8).
Qed.

Lemma getOddsTier_classifies_witness :
  (getOddsTier n1_2 = Favorite ↔ le_value n1_2 n1_5)
  ∧ (tier_rank (getOddsTier n1_2) ≤ tier_rank (getOddsTier n4))%nat.
Proof.
  assert (H12 : is_binary64 n1_2) by reflexivity.
  assert (H4 : is_binary64 n4) by reflexivity.
  destruct (getOddsTier_classifies n1_2 n4 H12 H4)
    as (Hfav & _ & _ & _ & _ & _ & Hmono).
  split; [exact Hfav|]. apply Hmono. vm_compute. discriminate.
Defined.

(** The example of the specification: odds of 1.2 are a favorite. *)
Example getOddsTier_1_2 : getOddsTier n1_2 = Favorite.
Proof. reflexivity. Qed.

(** * Numbers: [toFixed] *)

Lemma is_digit_intro (c : ascii) :
  ((48 <=? nat_of_ascii c) && (nat_of_ascii c <=? 57))%nat = true → is_digit c.
Proof.
  intros [H1 H2]%andb_prop. apply Nat.leb_le in H1, H2. by split.
Qed.

Lemma string_of_uint_digits (d : Decimal.uint) :
  Forall is_digit (list_ascii_of_string (NilEmpty.string_of_uint d)).
Proof.
  induction d; simpl;
    [constructor | apply Forall_cons_2; [by apply is_digit_intro | done]..].
Qed.

Lemma digits_of_digits (n : N) : Forall is_digit (digits_of n).
Proof.
  unfold digits_of, NilZero.string_of_uint.
  destruct (N.to_uint n) eqn:E; try apply string_of_uint_digits.
  apply Forall_cons_2; [by apply is_digit_intro | constructor].
Qed.

Lemma digits_of_nonempty (n : N) : digits_of n ≠ [].
Proof.
  unfold digits_of, NilZero.string_of_uint.
  by destruct (N.to_uint n).
Qed.

(** The digits of [n] read back as [n]. *)
Lemma digits_of_value (n : N) :
  N.of_uint <$> NilZero.uint_of_string (string_of_list_ascii (digits_of n))
  = Some n.
Proof.
  unfold digits_of. rewrite string_of_list_ascii_of_string.
  assert (Hn : N.to_uint n ≠ Decimal.Nil).
  { destruct n as [|p]; [done|]. simpl.
    intros H. by apply (DecimalPos.Unsigned.to_uint_nonnil p). }
  rewrite (NilZero.usu _ Hn). simpl. by rewrite DecimalN.Unsigned.of_to.
Qed.

Lemma pad_fraction_length (f : nat) (m : list ascii) :
  (f + 1 ≤ length (pad_fraction f m))%nat.
Proof.
  unfold pad_fraction. destruct (Nat.leb_spec (length m) f).
  - rewrite length_app, length_replicate. lia.
  - lia.
Qed.

Lemma pad_fraction_digits (f : nat) (m : list ascii) :
  Forall is_digit m → Forall is_digit (pad_fraction f m).
Proof.
  intros Hm. unfold pad_fraction. destruct (length m <=? f)%nat; [|done].
  apply Forall_app. split; [|done].
  apply Forall_replicate. by apply is_digit_intro.
Qed.

(** With three digits or more, the point leaves a non-empty whole part and
    two decimals. *)
Lemma insert_point_two (m : list ascii) :
  (3 ≤ length m)%nat →
  ∃ whole d1 d2,
    insert_point 2 m = whole ++ [point_char; d1; d2]
    ∧ whole ≠ [] ∧ whole ++ [d1; d2] = m.
Proof.
  intros Hm. unfold insert_point.
  set (k := (length m - 2)%nat).
  assert (Hd : length (drop k m) = 2%nat) by (rewrite length_drop; lia).
  destruct (drop k m) as [|d1 [|d2 [|]]] eqn:E; try done.
  exists (take k m), d1, d2. split_and!; [done| |].
  - intros H. apply (f_equal length) in H. rewrite length_take in H.
    simpl in H. lia.
  - by rewrite <- E, take_drop.
Qed.

Lemma fixed_digits_two (n : N) :
  ∃ whole d1 d2,
    fixed_digits 2 n = whole ++ [point_char; d1; d2]
    ∧ whole ≠ []
    ∧ Forall is_digit (whole ++ [d1; d2])
    ∧ whole ++ [d1; d2] = pad_fraction 2 (digits_of n).
Proof.
  unfold fixed_digits.
  destruct (insert_point_two (pad_fraction 2 (digits_of n)))
    as (whole & d1 & d2 & Heq & Hne & Hm).
  { apply (pad_fraction_length 2). }
  exists whole, d1, d2. split_and!; try done.
  rewrite Hm. apply pad_fraction_digits, digits_of_digits.
Qed.

Lemma hundredths_text_two_decimals (sign : bool) (n : N) (s : string) :
  hundredths_text sign n s → two_decimals s.
Proof.
  intros (whole & d1 & d2 & -> & Hne & Hdig & _).
  apply Forall_app in Hdig as [Hwhole Hfrac].
  apply Forall_cons in Hfrac as [H1 Hfrac].
  apply Forall_cons in Hfrac as [H2 _].
  by exists sign, whole, d1, d2.
Qed.

(** [toFixed(2)] of a finite number below [10^21] in magnitude. *)
Lemma toFixed_two_finite (s : bool) (m : positive) (e : Z) :
  ge_1e21 m e = false →
  ∃ text, toFixed 2 (S754_finite s m e) = Some text
          ∧ hundredths_text s (scaled_round 2 m e) text.
Proof.
  intros Hsmall. unfold toFixed. rewrite Hsmall.
  destruct (fixed_digits_two (scaled_round 2 m e))
    as (whole & d1 & d2 & Heq & Hne & Hdig & Hpad).
  eexists. split; [done|].
  exists whole, d1, d2. by rewrite Heq.
Qed.

(** The integer that [toFixed(f)] prints is the nearest one to
    [m * 2^e * 10^f], the larger of the two at a tie. *)
Lemma scaled_round_nearest (f : nat) (m : positive) (e : Z) :
  let n := Z.of_N (scaled_round f m e) in
  match e with
  | Zneg k =>
      2 * (n * 2 ^ Zpos k) - 2 ^ Zpos k ≤ 2 * (Zpos m * 10 ^ Z.of_nat f)
      ∧ 2 * (Zpos m * 10 ^ Z.of_nat f) < 2 * (n * 2 ^ Zpos k) + 2 ^ Zpos k
  | _ => n = Zpos m * 2 ^ e * 10 ^ Z.of_nat f
  end.
Proof.
  unfold scaled_round. destruct e as [|k|k]; simpl.
  - rewrite Z2N.id; [done|]. apply Z.mul_nonneg_nonneg; [lia|].
    apply Z.pow_nonneg. lia.
  - rewrite Z2N.id; [done|]. apply Z.mul_nonneg_nonneg; [|apply Z.pow_nonneg; lia].
    apply Z.mul_nonneg_nonneg; [lia|]. apply Z.pow_nonneg. lia.
  - assert (Hd : 0 < 2 ^ Zpos k) by (apply Z.pow_pos_nonneg; lia).
    assert (Hp : 0 ≤ 10 ^ Z.of_nat f) by (apply Z.pow_nonneg; lia).
    set (d := 2 ^ Zpos k) in *. set (p := 10 ^ Z.of_nat f) in *.
    assert (Hnum : 0 ≤ 2 * Zpos m * p + d) by nia.
    rewrite Z2N.id by (apply Z.div_pos; lia).
    pose proof (Z.div_mod (2 * Zpos m * p + d) (2 * d) ltac:(lia)) as Hdm.
    pose proof (Z.mod_pos_bound (2 * Zpos m * p + d) (2 * d) ltac:(lia)) as Hb.
    nia.
Qed.

(** * C8: [formatOdds] *)

Lemma formatOdds_falls_back_iff (x : oddsval) :
  formatOdds_falls_back x = true
  ↔ absent_or_nan x ∨ ∃ s, x = ONum (S754_zero s).
Proof.
  unfold formatOdds_falls_back, absent_or_nan. split.
  - destruct x as [| |[s|s| |s m e]]; simpl; try done; eauto 6.
  - intros [[->| [->| ->]] | [s ->]]; done.
Qed.

(** C8 as stated fails at the number zero: it is neither [null] nor
    [undefined] nor [NaN], and yet [formatOdds] answers its default text
    and not the two-decimal rendering ["0.00"] of zero. *)
Lemma formatOdds_zero_is_default :
  ¬ absent_or_nan (ONum n0)
  ∧ formatOdds_falls_back (ONum n0) = true
  ∧ formatOdds (ONum n0) = Some default_odds_text
  ∧ dollar_text n0 = Some "$0.00"%string.
Proof.
  split_and!; try reflexivity.
  intros [H | [H | H]]; discriminate H.
Qed.

(** C8, amended. [formatOdds] answers its default text exactly when its
    argument is [null], [undefined], [NaN] or a zero; every other finite
    number below [10^21] in magnitude is rendered as ["$"], an optional
    sign and the nearest number of hundredths with exactly two decimal
    places; an infinity is rendered by its name. *)
Theorem formatOdds_amended (x : oddsval) :
  (formatOdds_falls_back x = true
   ↔ absent_or_nan x ∨ ∃ s, x = ONum (S754_zero s))
  ∧ (formatOdds_falls_back x = true → formatOdds x = Some default_odds_text)
  ∧ (∀ s m e, x = ONum (S754_finite s m e) → ge_1e21 m e = false →
       ∃ text, formatOdds x = Some ("$" +:+ text)
               ∧ two_decimals text
               ∧ hundredths_text s (scaled_round 2 m e) text)
  ∧ (∀ s, x = ONum (S754_infinity s) →
       formatOdds x = Some (if s then "$-Infinity" else "$Infinity")%string).
Proof.
  split_and!.
  - apply formatOdds_falls_back_iff.
  - intros H. unfold formatOdds. by rewrite H.
  - intros s m e -> Hsmall.
    destruct (toFixed_two_finite s m e Hsmall) as (text & Htext & Hshape).
    exists text.
    split; [|split; [by eapply hundredths_text_two_decimals | done]].
    unfold formatOdds.
    change (formatOdds_falls_back (ONum (S754_finite s m e))) with false.
    unfold dollar_text. by rewrite Htext.
  - intros s ->. by destruct s.
Qed.

Lemma formatOdds_amended_witness :
  ∃ text, formatOdds (ONum n1_2) = Some ("$" +:+ text)
          ∧ two_decimals text
          ∧ hundredths_text false 120 text.
Proof.
  exact (proj1 (proj2 (proj2 (formatOdds_amended (ONum n1_2))))
           false 5404319552844595%positive (-52) eq_refl eq_refl).
Defined.

(** The example of the specification: [formatOdds(1.2)] is ["$1.20"]. *)
Example formatOdds_1_2 : formatOdds (ONum n1_2) = Some "$1.20"%string.
Proof. reflexivity. Qed.

(** * C7: the potential payout of a bet *)

(** C7 as stated fails when the snapshot has no odds for the horse. In
    the sample session the server confirms a winner bet on horse 1 before
    any odds have arrived: the bet is shown with the payout of the
    fallback odds 2.0 and not with the pending text. *)
Lemma potentialPayout_unknown_odds_not_pending :
  let g := Play.play Play.winner_placed in
  run Play.winner_placed new_game = Some g
  ∧ currentRaceBets g = [Play.recorded_winner]
  ∧ currentOdds g !! 1 = None
  ∧ potentialPayout Play.recorded_winner g = Some "$2.00"%string
  ∧ potentialPayout Play.recorded_winner g ≠ Some pending_text.
Proof.
  split_and!; try (vm_compute; reflexivity).
  vm_compute. discriminate.
Qed.

(** C7, amended. A trifecta bet always shows the pending text. A winner
    or place bet on a horse of the current race shows the amount times the
    horse's current winner or place odds when the snapshot has them as a
    number that is neither zero nor [NaN], and the amount times the
    fallback odds 2.0 when the snapshot has no entry for the horse. The
    pending text is shown when no race is held, when the horse is not in
    the current race, and when the snapshot has the entry without a usable
    value. *)
Theorem potentialPayout_amended (bet : BetInfo) (g : Game) :
  let b := info_bet bet in
  let known (entry : OddsEntry) : oddsval :=
    if String.eqb (bet_type b) "winner" then winner entry else place entry in
  (bet_type b = "trifecta" → potentialPayout bet g = Some pending_text)
  ∧ (currentRace g = None → potentialPayout bet g = Some pending_text)
  ∧ (∀ race, currentRace g = Some race →
       find_horse (head (bet_selection b)) race = None →
       potentialPayout bet g = Some pending_text)
  ∧ (∀ race horse,
       bet_type b = "winner" ∨ bet_type b = "place" →
       currentRace g = Some race →
       find_horse (head (bet_selection b)) race = Some horse →
       match currentOdds g !! horse_id horse with
       | Some entry =>
           match known entry with
           | ONum odds =>
               if truthy (ONum odds)
               then potentialPayout bet g
                    = dollar_text (mul_num (bet_amount b) odds)
               else potentialPayout bet g = Some pending_text
           | _ => potentialPayout bet g = Some pending_text
           end
       | None =>
           potentialPayout bet g = dollar_text (mul_num (bet_amount b) n2)
       end).
Proof.
  intros b known. unfold potentialPayout. fold b. split_and!.
  - intros ->. by destruct (currentRace g).
  - by intros ->.
  - intros race -> ->. by destruct (negb _).
  - intros race horse Htype -> ->. unfold getHorseCurrentOdds, known.
    destruct Htype as [-> | ->]; simpl;
      destruct (currentOdds g !! horse_id horse) as [entry|]; try done.
    + destruct (winner entry) as [| |x]; simpl; try done.
      by destruct (negb _).
    + destruct (place entry) as [| |x]; simpl; try done.
      by destruct (negb _).
Qed.

Lemma potentialPayout_amended_witness :
  let g := Play.play Play.winner_placed in
  currentRaceBets g = [Play.recorded_winner]
  ∧ potentialPayout Play.recorded_winner g = dollar_text (mul_num n1 n2).
Proof.
  split; [vm_compute; reflexivity|].
  exact (proj2 (proj2 (proj2
           (potentialPayout_amended Play.recorded_winner
              (Play.play Play.winner_placed))))
           (Sample.race 1 "betting") (Sample.horse 1 "Thunder")
           (or_introl eq_refl) eq_refl eq_refl).
Defined.

(** * C1: a race with a new id *)

(** Reads of fields after writes to fields. *)
Ltac by_fields := intros; repeat split; reflexivity.

Lemma updateUser_frame (userData : User) (g : Game) :
  currentRace (updateUser userData g) = currentRace g
  ∧ currentRaceBets (updateUser userData g) = currentRaceBets g
  ∧ trifectaSelection (updateUser userData g) = trifectaSelection g.
Proof.
  unfold updateUser, refreshBalance, updateBalance.
  destruct (user g) as [u|]; [|done]. simpl.
  by destruct ((userData ∪ u) !! "balance") as [[]|].
Qed.

Lemma updatePhase_frame (phase : string) (t : number) (g : Game) :
  currentRace (updatePhase phase t g) = currentRace g
  ∧ currentRaceBets (updatePhase phase t g) = currentRaceBets g
  ∧ (trifectaSelection g = [] → trifectaSelection (updatePhase phase t g) = []).
Proof.
  unfold updatePhase. destruct (phase =? "betting")%string; by_fields || done.
Qed.

Lemma resetForNewRace_new (race : Race) (g : Game) :
  is_new_race race g = true →
  resetForNewRace race g = set_trifectaSelection [] (set_currentRaceBets [] g).
Proof. intros H. unfold resetForNewRace. by rewrite H. Qed.

Lemma updateRaceState_new (race : Race) (g : Game) :
  is_new_race race g = true →
  currentRace (updateRaceState race g) = Some race
  ∧ currentRaceBets (updateRaceState race g) = []
  ∧ trifectaSelection (updateRaceState race g) = [].
Proof.
  intros Hnew. unfold updateRaceState, run_stmts. simpl.
  rewrite (resetForNewRace_new _ _ Hnew).
  set (g1 := set_currentRace _ _).
  destruct (updatePhase_frame (race_phase race) (race_time_remaining race) g1)
    as (Hr & Hb & Hs).
  rewrite Hr, Hb, Hs; by_fields.
Qed.

Lemma handleMessage_reached (message : Message) (g : Game) :
  reaches_switch message g = true →
  handleMessage message g
  = handleMessage_switch message
      match msg_user message with
      | Some userData => updateUser userData g
      | None => g
      end.
Proof. intros H. unfold handleMessage. by rewrite H. Qed.

Lemma handleMessage_stopped (message : Message) (g : Game) :
  reaches_switch message g = false →
  ∃ userData, msg_user message = Some userData
              ∧ handleMessage message g = updateUser userData g.
Proof.
  intros H. unfold handleMessage. rewrite H. unfold reaches_switch in H.
  destruct (msg_user message) as [userData|]; [by exists userData | done].
Qed.

(** C1. When [updateRaceState] is given a race whose id differs from
    the id of the held race, or no race is held, it empties the bets of
    the current race and the trifecta selection while the old race is
    still held; no state it passes through holds the new race together
    with bets or a selection; and when it returns the new race is held
    and both are empty, whatever they contained. [handleMessage] runs it
    on the race of every [race_state] message for which it gets to its
    [switch], and then leaves that state; when the merge of the user of
    the message stops it before, the held race is not replaced and the
    bets and the selection are as they were. *)
Theorem updateRaceState_resets (message : Message) (race : Race) (g : Game) :
  msg_payload message = RaceState race →
  is_new_race race g = true →
  (currentRaceBets (resetForNewRace race g) = []
   ∧ trifectaSelection (resetForNewRace race g) = []
   ∧ currentRace (resetForNewRace race g) = currentRace g)
  ∧ (∀ s, s ∈ stmts_trace (updateRaceState_stmts race) g →
          currentRace s = Some race →
          currentRaceBets s = [] ∧ trifectaSelection s = [])
  ∧ (currentRace (updateRaceState race g) = Some race
     ∧ currentRaceBets (updateRaceState race g) = []
     ∧ trifectaSelection (updateRaceState race g) = [])
  ∧ (reaches_switch message g = true →
     currentRace (handleMessage message g) = Some race
     ∧ currentRaceBets (handleMessage message g) = []
     ∧ trifectaSelection (handleMessage message g) = [])
  ∧ (reaches_switch message g = false →
     currentRace (handleMessage message g) = currentRace g
     ∧ currentRaceBets (handleMessage message g) = currentRaceBets g
     ∧ trifectaSelection (handleMessage message g) = trifectaSelection g).
Proof.
  intros Hmsg Hnew.
  assert (Hold : ∀ s, currentRace s = currentRace g →
                      currentRace s ≠ Some race).
  { intros s Hs Hrace. unfold is_new_race in Hnew.
    rewrite <- Hs, Hrace, Z.eqb_refl in Hnew. done. }
  split_and!.
  1-3: by rewrite resetForNewRace_new.
  - intros s Hs Hrace. simpl in Hs. rewrite resetForNewRace_new in Hs by done.
    set (g1 := set_trifectaSelection [] (set_currentRaceBets [] g)) in Hs.
    set (g2 := set_currentRace (Some race) g1) in Hs.
    destruct (updatePhase_frame (race_phase race) (race_time_remaining race) g2)
      as (_ & Hb & Hsel).
    repeat (apply elem_of_cons in Hs as [-> | Hs]).
    + by destruct (Hold g).
    + by destruct (Hold g1).
    + by_fields.
    + by rewrite Hb, Hsel.
    + by apply elem_of_nil in Hs.
  - by apply updateRaceState_new.
  - by apply updateRaceState_new.
  - by apply updateRaceState_new.
  - intros Hreached. rewrite handleMessage_reached by done.
    unfold handleMessage_switch. rewrite Hmsg. apply updateRaceState_new.
    unfold is_new_race in *.
    destruct (msg_user message) as [userData|]; [|done].
    by rewrite (proj1 (updateUser_frame userData g)).
  - intros Hstopped.
    destruct (handleMessage_stopped _ _ Hstopped) as (userData & _ & ->).
    apply updateUser_frame.
Qed.

Lemma updateRaceState_resets_witness :
  let g := Play.play Play.picking in
  (currentRaceBets g = [Play.recorded_winner] ∧ trifectaSelection g = [2; 3])
  ∧ (currentRace (handleMessage Play.next_race g)
       = Some (Sample.race 2 "betting")
     ∧ currentRaceBets (handleMessage Play.next_race g) = []
     ∧ trifectaSelection (handleMessage Play.next_race g) = []).
Proof.
  split; [by vm_compute|].
  exact (proj1 (proj2 (proj2 (proj2
           (updateRaceState_resets Play.next_race (Sample.race 2 "betting")
              (Play.play Play.picking) eq_refl eq_refl)))) eq_refl).
Defined.

(** * C10: merging the user of a message *)

(** With a session, [updateUser] leaves the merged object in [user] and
    nothing else changes: writing the merged balance back changes
    nothing. *)
Lemma updateUser_session (userData u : User) (g : Game) :
  user g = Some u →
  updateUser userData g = set_user (Some (userData ∪ u)) g.
Proof.
  intros Hu. unfold updateUser. rewrite Hu.
  unfold refreshBalance. cbn [user set_user].
  destruct ((userData ∪ u) !! "balance") as [[| |x|]|] eqn:E; try done.
  unfold updateBalance. cbn [user set_user]. by rewrite insert_id.
Qed.

(** C10. Before a session exists, merging the user of a message leaves
    the whole state as it is. Once a session exists, the merge is partial:
    a field that the payload does not carry keeps its value, a field that
    it carries takes the payload's value, and no other part of the state
    changes. *)
Theorem updateUser_partial_merge (userData : User) (g : Game) :
  (user g = None → updateUser userData g = g)
  ∧ (∀ u, user g = Some u →
       ∃ u', user (updateUser userData g) = Some u'
             ∧ (∀ field, userData !! field = None → u' !! field = u !! field)
             ∧ (∀ field v, userData !! field = Some v → u' !! field = Some v)
             ∧ updateUser userData g = set_user (Some u') g).
Proof.
  split.
  - intros Hu. unfold updateUser. by rewrite Hu.
  - intros u Hu. exists (userData ∪ u).
    rewrite (updateUser_session _ _ _ Hu). split_and!; try done.
    + intros field Hf. by rewrite lookup_union_r.
    + intros field v Hf. by apply lookup_union_Some_l.
Qed.

Lemma updateUser_partial_merge_witness :
  let g := Play.play Sample.session in
  let userData : User := {[ "rank" := VNum n4 ]} in
  updateUser userData new_game = new_game
  ∧ ∃ u', user (updateUser userData g) = Some u'
          ∧ u' !! "balance" = Some (VNum n8)
          ∧ u' !! "rank" = Some (VNum n4).
Proof.
  intros g userData. split.
  - exact (proj1 (updateUser_partial_merge userData new_game) eq_refl).
  - destruct (proj2 (updateUser_partial_merge userData g) Sample.alice)
      as (u' & Hu' & Hkeep & Htake & _); [by vm_compute|].
    exists u'. split_and!; [done| |].
    + rewrite Hkeep; by vm_compute.
    + apply Htake. by vm_compute.
Defined.

(** * C2: toggling the horses of a trifecta *)

Lemma selectTrifectaHorse_invariant (horseId : Z) (g : Game) :
  (length (trifectaSelection g) ≤ 3)%nat ∧ NoDup (trifectaSelection g) →
  (length (trifectaSelection (selectTrifectaHorse horseId g)) ≤ 3)%nat
  ∧ NoDup (trifectaSelection (selectTrifectaHorse horseId g)).
Proof.
  intros [Hlen Hnd]. unfold selectTrifectaHorse, parseInt.
  destruct (negb _); [done|].
  case_bool_decide as Hin.
  - cbn [trifectaSelection set_trifectaSelection]. split.
    + pose proof (length_filter (λ id, id ≠ horseId) (trifectaSelection g)). lia.
    + by apply NoDup_filter.
  - destruct (Nat.ltb_spec (length (trifectaSelection g)) 3).
    + cbn [trifectaSelection set_trifectaSelection]. split.
      * rewrite length_app. simpl. lia.
      * apply NoDup_app. split_and!; [done| |apply NoDup_singleton].
        intros x Hx ->%list_elem_of_singleton. done.
    + done.
Qed.

Lemma toggle_all_invariant (horseIds : list Z) (g : Game) :
  (length (trifectaSelection g) ≤ 3)%nat ∧ NoDup (trifectaSelection g) →
  (length (trifectaSelection (toggle_all horseIds g)) ≤ 3)%nat
  ∧ NoDup (trifectaSelection (toggle_all horseIds g)).
Proof.
  revert g. induction horseIds as [|h hs IH]; intros g Hg; [done|].
  apply IH. by apply selectTrifectaHorse_invariant.
Qed.

Lemma selectTrifectaHorse_betType (horseId : Z) (g : Game) :
  selectedBetType (selectTrifectaHorse horseId g) = selectedBetType g.
Proof.
  unfold selectTrifectaHorse. destruct (negb _); [done|].
  case_bool_decide; [done|]. by destruct (_ <? _)%nat.
Qed.

Lemma toggle_all_betType (horseIds : list Z) (g : Game) :
  selectedBetType (toggle_all horseIds g) = selectedBetType g.
Proof.
  revert g. induction horseIds as [|h hs IH]; intros g; [done|].
  simpl. fold (toggle_all hs (selectTrifectaHorse h g)).
  by rewrite IH, selectTrifectaHorse_betType.
Qed.

(** A click on the button of a horse while the trifecta is selected is a
    toggle: [selectHorse] hands it to [selectTrifectaHorse]. *)
Lemma selectHorse_toggles (horseId : Z) (g : Game) :
  selectedBetType g = "trifecta"%string →
  step (UiHorse horseId) g = Some (selectTrifectaHorse horseId g).
Proof.
  intros Htype. unfold step, selectHorse, handleTrifectaSelection.
  by rewrite Htype.
Qed.

Lemma run_toggles (horseIds : list Z) (g : Game) :
  selectedBetType g = "trifecta"%string →
  run (map UiHorse horseIds) g = Some (toggle_all horseIds g).
Proof.
  revert g. induction horseIds as [|h hs IH]; intros g Htype; [done|].
  cbn [map run]. rewrite (selectHorse_toggles _ _ Htype). simpl.
  apply IH. by rewrite selectTrifectaHorse_betType.
Qed.

(** C2. A toggle is a click on the button of a horse while the trifecta
    is the selected bet type, the one call of [selectTrifectaHorse] in
    the program. From an empty selection and after any list of toggles,
    the selection has at most three horses and no horse twice. A toggle
    of a selected horse removes it and nothing else, a toggle of another
    horse adds it when fewer than three are selected, and with three
    selected it shows the capacity notice and leaves the selection as it
    is. *)
Theorem selectTrifectaHorse_toggles (horseIds : list Z) (horseId : Z)
  (g : Game) :
  selectedBetType g = "trifecta"%string →
  trifectaSelection g = [] →
  ∃ g',
    run (map UiHorse horseIds) g = Some g'
    ∧ step (UiHorse horseId) g' = Some (selectTrifectaHorse horseId g')
    ∧ let selection := trifectaSelection g' in
      ((length selection ≤ 3)%nat ∧ NoDup selection)
      ∧ (horseId ∈ selection →
         selectTrifectaHorse horseId g'
         = set_trifectaSelection (filter (λ id, id ≠ horseId) selection) g'
         ∧ (horseId ∉ filter (λ id, id ≠ horseId) selection)
         ∧ (∀ id, id ≠ horseId →
                  (id ∈ filter (λ id, id ≠ horseId) selection
                   ↔ id ∈ selection)))
      ∧ (horseId ∉ selection → (length selection < 3)%nat →
         selectTrifectaHorse horseId g'
         = set_trifectaSelection (selection ++ [horseId]) g')
      ∧ (horseId ∉ selection → length selection = 3%nat →
         selectTrifectaHorse horseId g' = showError capacity_notice g'
         ∧ notices (selectTrifectaHorse horseId g')
           = notices g' ++ [capacity_notice]
         ∧ trifectaSelection (selectTrifectaHorse horseId g') = selection).
Proof.
  intros Htri Hempty. exists (toggle_all horseIds g).
  set (g' := toggle_all horseIds g). set (selection := trifectaSelection g').
  assert (Hinv : (length selection ≤ 3)%nat ∧ NoDup selection).
  { apply toggle_all_invariant. rewrite Hempty. split; [simpl; lia|constructor]. }
  pose proof (toggle_all_betType horseIds g) as Htype. fold g' in Htype.
  rewrite Htri in Htype.
  split; [by apply run_toggles|].
  split; [by apply selectHorse_toggles|].
  cbn zeta. fold selection.
  assert (Hstep : selectTrifectaHorse horseId g'
                  = if bool_decide (horseId ∈ selection)
                    then set_trifectaSelection
                           (filter (λ id, id ≠ horseId) selection) g'
                    else if (length selection <? 3)%nat
                         then set_trifectaSelection (selection ++ [horseId]) g'
                         else showError capacity_notice g').
  { unfold selectTrifectaHorse, parseInt. by rewrite Htype. }
  rewrite Hstep. split_and!; try apply Hinv.
  - intros Hin. rewrite bool_decide_eq_true_2 by done.
    split_and!; [done| |].
    + intros [H _]%list_elem_of_filter. done.
    + intros id Hid. rewrite list_elem_of_filter. tauto.
  - intros Hout Hlen. rewrite bool_decide_eq_false_2 by done.
    apply Nat.ltb_lt in Hlen. by rewrite Hlen.
  - intros Hout Hlen. rewrite bool_decide_eq_false_2 by done.
    by rewrite Hlen.
Qed.

Lemma selectTrifectaHorse_toggles_witness :
  let g := selectBetType "trifecta" new_game in
  ∃ g', run (map UiHorse [1; 2; 1; 3; 4]) g = Some g'
        ∧ trifectaSelection g' = [2; 3; 4]
        ∧ step (UiHorse 5) g' = Some (showError capacity_notice g').
Proof.
  intros g.
  destruct (selectTrifectaHorse_toggles [1; 2; 1; 3; 4] 5 g eq_refl eq_refl)
    as (g' & Hrun & Hstep & _ & _ & _ & Hfull).
  assert (Hg' : g' = toggle_all [1; 2; 1; 3; 4] g).
  { vm_compute in Hrun. injection Hrun as <-. by vm_compute. }
  exists g'. split; [exact Hrun|].
  assert (Hsel : trifectaSelection g' = [2; 3; 4])
    by (rewrite Hg'; by vm_compute).
  split; [exact Hsel|].
  destruct Hfull as (Hsame & _).
  - rewrite Hsel. apply (bool_decide_unpack _). by vm_compute.
  - by rewrite Hsel.
  - by rewrite Hstep, Hsame.
Defined.

(** * C3: the mystery trifecta *)

Lemma submseteq_NoDup (l k : list Z) : l ⊆+ k → NoDup k → NoDup l.
Proof.
  intros [k' Hk]%submseteq_Permutation Hnd. rewrite Hk in Hnd.
  by apply NoDup_app in Hnd as [? _].
Qed.

Section MysteryFacts.

Variable random_index : RandomIndex.

(** The loop appends its picks to what it was given: as many as the
    budget and the candidates allow, each taken from the candidates and
    none taken twice. *)
Lemma mystery_loop_picks (budget : nat) (horsesCopy selectedHorses : list Z) :
  ∃ picks,
    mystery_loop random_index budget horsesCopy selectedHorses
    = selectedHorses ++ picks
    ∧ length picks = (budget `min` length horsesCopy)%nat
    ∧ picks ⊆+ horsesCopy.
Proof.
  revert horsesCopy selectedHorses.
  induction budget as [|budget IH]; intros horsesCopy selectedHorses.
  { exists []. split_and!; [by rewrite app_nil_r | done | apply submseteq_nil_l]. }
  destruct horsesCopy as [|first rest].
  { exists []. split_and!; [by rewrite app_nil_r | done | done]. }
  cbn [mystery_loop].
  set (randomIndex := fin_to_nat (random_index _ (length rest))).
  assert (Hrange : (randomIndex < length (first :: rest))%nat)
    by apply fin_to_nat_lt.
  destruct (lookup_lt_is_Some_2 _ _ Hrange) as [selectedHorse Hsel].
  rewrite (nth_lookup_Some _ _ first _ Hsel).
  destruct (IH (delete randomIndex (first :: rest))
               (selectedHorses ++ [selectedHorse]))
    as (picks & Heq & Hlen & Hsub).
  exists (selectedHorse :: picks). split_and!.
  - by rewrite Heq, <- app_assoc.
  - rewrite length_delete in Hlen by done. simpl in *. lia.
  - rewrite (delete_Permutation _ _ _ Hsel). by apply submseteq_skip.
Qed.

Lemma mystery_picks_spec (availableHorses : list Z) :
  length (mystery_picks random_index availableHorses)
  = (length availableHorses `min` 3)%nat
  ∧ mystery_picks random_index availableHorses ⊆+ availableHorses.
Proof.
  unfold mystery_picks.
  destruct (mystery_loop_picks 3 availableHorses [])
    as (picks & -> & Hlen & Hsub).
  simpl. split; [lia | done].
Qed.

End MysteryFacts.

(** * C5: bets while betting is closed *)

(** What [placeBet] does, guard by guard. *)
Lemma placeBet_closed (g : Game) :
  betting_closed g = true → placeBet g = showError closed_notice g.
Proof. intros H. unfold placeBet. by rewrite H. Qed.

(** Through [placeBet], the entry of the single bets, a bet outside the
    betting phase is rejected as C5 says: the notice is shown, nothing is
    sent and the bets of the race are as before. *)
Lemma placeBet_rejects_when_closed (g : Game) :
  match currentRace g with
  | None => True
  | Some race => race_phase race ≠ "betting"
  end →
  notices (placeBet g) = notices g ++ [closed_notice]
  ∧ outbox (placeBet g) = outbox g
  ∧ currentRaceBets (placeBet g) = currentRaceBets g.
Proof.
  intros Hclosed. rewrite placeBet_closed; [done|].
  unfold betting_closed. destruct (currentRace g) as [race|]; [|done].
  apply String.eqb_neq in Hclosed. by rewrite Hclosed.
Qed.

Lemma placeBet_rejects_when_closed_witness :
  let g := set_selectedHorse (Some 1) (Play.play Play.picks_while_racing) in
  notices (placeBet g) = notices g ++ [closed_notice]
  ∧ outbox (placeBet g) = outbox g
  ∧ currentRaceBets (placeBet g) = currentRaceBets g.
Proof.
  apply placeBet_rejects_when_closed. by vm_compute.
Defined.

(** [placeTrifectaBet] never looks at the phase: with three horses
    picked, no trifecta bet yet and an open socket, it sends the bet. *)
Lemma placeTrifectaBet_sends (g : Game) :
  length (trifectaSelection g) = 3%nat →
  has_bet_of_type "trifecta" g = false →
  ws_is_open g = true →
  outbox (placeTrifectaBet g)
  = outbox g ++ [FPlaceBet "trifecta" n1 (trifectaSelection g)]
  ∧ notices (placeTrifectaBet g) = notices g.
Proof.
  intros Hlen Hnone Hopen. unfold placeTrifectaBet, send.
  by rewrite Hlen, Hnone, Hopen.
Qed.

(** C5 at the trifecta button. Its handler is [placeTrifectaBet] itself,
    which has no guard on the phase. In the sample run race 1 is held
    with the phase [racing], the betting panel is displayed and the user
    has picked three horses for a trifecta: a click on the button sends a
    [place_bet] frame and shows no notice, while in the same state a
    click on a horse for a winner bet is rejected with the notice that
    betting is closed. *)
Theorem placeTrifectaBet_ignores_phase :
  let g := Play.play Play.picks_while_racing in
  run Play.picks_while_racing new_game = Some g
  ∧ (race_phase <$> currentRace g) = Some "racing"%string
  ∧ betting_closed g = true
  ∧ bettingPanelShown g = true
  ∧ trifectaSelection g = [1; 2; 3]
  ∧ step UiPlaceTrifecta g = Some (placeTrifectaBet g)
  ∧ outbox (placeTrifectaBet g)
    = outbox g ++ [FPlaceBet "trifecta" n1 [1; 2; 3]]
  ∧ notices (placeTrifectaBet g) = notices g
  ∧ notices (selectHorse 1 (selectBetType "winner" g))
    = notices g ++ [closed_notice]
  ∧ outbox (selectHorse 1 (selectBetType "winner" g)) = outbox g.
Proof. by vm_compute. Qed.

(** * C6: one bet of each type *)

Lemma showError_frame (message : string) (g : Game) :
  notices (showError message g) = notices g ++ [message]
  ∧ outbox (showError message g) = outbox g
  ∧ currentRaceBets (showError message g) = currentRaceBets g.
Proof. by_fields. Qed.

(** [placeTrifectaBet] with a trifecta bet among the bets of the race. *)
Lemma placeTrifectaBet_duplicate (g : Game) :
  has_bet_of_type "trifecta" g = true →
  ∃ notice, placeTrifectaBet g = showError notice g.
Proof.
  intros Hdup. unfold placeTrifectaBet. rewrite Hdup.
  destruct (negb _); eauto.
Qed.

(** [placeBet] with a bet of the selected type among the bets of the
    race. *)
Lemma placeBet_duplicate (g : Game) :
  has_bet_of_type (selectedBetType g) g = true →
  ∃ notice, placeBet g = showError notice g.
Proof.
  intros Hdup. unfold placeBet.
  destruct (betting_closed g); [eauto|].
  destruct (selectedBetType g =? "trifecta")%string eqn:Htri.
  - apply String.eqb_eq in Htri. rewrite Htri in Hdup.
    by apply placeTrifectaBet_duplicate.
  - rewrite Hdup. destruct (selectedHorse g) as [[| |]|]; eauto.
Qed.

(** C6 as stated fails in its last part: the bets of the race are not
    kept to one of each type. In the sample session the server confirms
    two winner bets, and both are recorded. *)
Lemma currentRaceBets_two_winner_bets :
  let g := Play.play Play.confirmed_twice in
  run Play.confirmed_twice new_game = Some g
  ∧ length (bets_of_type "winner" (currentRaceBets g)) = 2%nat
  ∧ ¬ one_bet_per_type (currentRaceBets g).
Proof.
  split_and!; [by vm_compute..|].
  intros H. specialize (H "winner"%string). vm_compute in H. lia.
Qed.

(** C6, amended. When the bets of the race hold a bet of a type, an
    attempt to place another bet of that type, through [placeBet] for the
    type that is selected and through [placeTrifectaBet] for a trifecta,
    is rejected before anything is sent: one notice is shown, the outbox
    is as before, and the attempt leaves the bets of the race as they
    are. The bets of the race grow only when the server confirms a bet,
    and every confirmed bet is recorded, whatever its type. *)
Theorem duplicate_bet_rejected (g : Game) :
  (has_bet_of_type (selectedBetType g) g = true →
   ∃ notice,
     notices (placeBet g) = notices g ++ [notice]
     ∧ outbox (placeBet g) = outbox g
     ∧ currentRaceBets (placeBet g) = currentRaceBets g)
  ∧ (has_bet_of_type "trifecta" g = true →
     ∃ notice,
       notices (placeTrifectaBet g) = notices g ++ [notice]
       ∧ outbox (placeTrifectaBet g) = outbox g
       ∧ currentRaceBets (placeTrifectaBet g) = currentRaceBets g)
  ∧ (∀ bet, ∃ betInfo,
       info_bet betInfo = bet
       ∧ currentRaceBets (addBetToCurrentRace bet g)
         = currentRaceBets g ++ [betInfo]).
Proof.
  split_and!.
  - intros [notice ->]%placeBet_duplicate. exists notice. apply showError_frame.
  - intros [notice ->]%placeTrifectaBet_duplicate.
    exists notice. apply showError_frame.
  - intros bet. unfold addBetToCurrentRace.
    destruct (bet_type bet =? "trifecta")%string;
      [| destruct (_ ≫= _)]; eexists; (split; [|reflexivity]); reflexivity.
Qed.

Lemma duplicate_bet_rejected_witness :
  let g := set_selectedHorse (Some 2) (Play.play Play.winner_placed) in
  ∃ notice,
    notices (placeBet g) = notices g ++ [notice]
    ∧ outbox (placeBet g) = outbox g
    ∧ currentRaceBets (placeBet g) = currentRaceBets g.
Proof.
  apply duplicate_bet_rejected. by vm_compute.
Defined.

(** * C9: reconnection *)

(** ** Handlers that leave the sockets and the timers alone *)

Ltac by_cases :=
  repeat first [ case_match | case_bool_decide ]; reflexivity.

Lemma showError_connection (message : string) (g : Game) :
  connection (showError message g) = connection g.
Proof. reflexivity. Qed.

Lemma send_connection (frame : Frame) (g : Game) :
  connection (send frame g) = connection g.
Proof. unfold send. by_cases. Qed.

Lemma login_connection (g : Game) : connection (login g) = connection g.
Proof.
  unfold login. case_match; [reflexivity | apply send_connection].
Qed.

Lemma refreshBalance_connection (g : Game) :
  connection (refreshBalance g) = connection g.
Proof. unfold refreshBalance, updateBalance. by_cases. Qed.

Lemma updateUser_connection (userData : User) (g : Game) :
  connection (updateUser userData g) = connection g.
Proof.
  unfold updateUser. case_match; [|reflexivity].
  by rewrite refreshBalance_connection.
Qed.

Lemma showGameScreen_connection (g : Game) :
  connection (showGameScreen g) = connection g.
Proof.
  unfold showGameScreen. repeat case_match; try reflexivity.
  by rewrite !send_connection, refreshBalance_connection.
Qed.

Lemma updateRaceState_connection (race : Race) (g : Game) :
  connection (updateRaceState race g) = connection g.
Proof.
  unfold updateRaceState, run_stmts. simpl.
  unfold updatePhase, resetForNewRace. by_cases.
Qed.

Lemma leaders_loop_connection (leaders : list Leader) (index : nat)
  (found : bool) (g : Game) :
  connection (leaders_loop index leaders found g).2 = connection g.
Proof.
  revert index found g.
  induction leaders as [|leader rest IH]; intros index found g; [done|].
  simpl. case_match; rewrite IH; [|done].
  unfold set_user_rank. by_cases.
Qed.

Lemma updateLeaderboard_connection (leaders : list Leader) (rank : oddsval)
  (g : Game) :
  connection (updateLeaderboard leaders rank g) = connection g.
Proof.
  unfold updateLeaderboard.
  pose proof (leaders_loop_connection leaders 0 false g) as H.
  destruct (leaders_loop 0 leaders false g) as [found g']. simpl in H.
  rewrite <- H. unfold set_user_rank. by_cases.
Qed.

Lemma handleMessage_connection (message : Message) (g : Game) :
  connection (handleMessage message g) = connection g.
Proof.
  unfold handleMessage.
  set (g1 := match msg_user message with
             | Some userData => updateUser userData g
             | None => g
             end).
  assert (H1 : connection g1 = connection g).
  { unfold g1. case_match; [apply updateUser_connection | done]. }
  rewrite <- H1. case_match; [|done]. unfold handleMessage_switch.
  destruct (msg_payload message); try reflexivity.
  - by rewrite showGameScreen_connection.
  - apply updateRaceState_connection.
  - unfold updatePhase. by_cases.
  - unfold addBetToCurrentRace, updateBalance. by_cases.
  - apply updateLeaderboard_connection.
Qed.

Lemma placeTrifectaBet_connection (g : Game) :
  connection (placeTrifectaBet g) = connection g.
Proof.
  unfold placeTrifectaBet. repeat case_match; try reflexivity.
  unfold clearTrifectaSelection.
  change (connection (send (FPlaceBet "trifecta" n1 (trifectaSelection g)) g)
          = connection g).
  apply send_connection.
Qed.

Lemma placeBet_connection (g : Game) : connection (placeBet g) = connection g.
Proof.
  unfold placeBet. repeat case_match; try reflexivity.
  all: try apply placeTrifectaBet_connection.
  all: unfold clearSelections;
    match goal with
    | |- connection (set_trifectaSelection _ (set_selectedHorse _ (send ?f ?s))) = _ =>
        change (connection (send f s) = connection s)
    end;
    apply send_connection.
Qed.

Lemma selectHorse_connection (horseId : Z) (g : Game) :
  connection (selectHorse horseId g) = connection g.
Proof.
  unfold selectHorse, handleTrifectaSelection, handleSingleBetSelection.
  case_match.
  - unfold selectTrifectaHorse. by_cases.
  - by rewrite placeBet_connection.
Qed.

Lemma selectMysteryTrifecta_connection (random_index : RandomIndex) (g : Game) :
  connection (selectMysteryTrifecta random_index g) = connection g.
Proof. unfold selectMysteryTrifecta. by_cases. Qed.

(** ** Sockets that have not closed *)

Lemma live_close (l : list ReadyState) (i : nat) (st : ReadyState) :
  l !! i = Some st → st ≠ CLOSED →
  S (length (filter (λ st, st ≠ CLOSED) (<[i:=CLOSED]> l)))
  = length (filter (λ st, st ≠ CLOSED) l).
Proof.
  intros Hi Hst.
  rewrite insert_take_drop by (by eapply lookup_lt_Some).
  rewrite <- (take_drop_middle l i st Hi) at 3.
  rewrite !filter_app, !filter_cons, !length_app.
  rewrite decide_False by (intros H; by apply H).
  rewrite decide_True by done. simpl. lia.
Qed.

Lemma live_open (l : list ReadyState) (i : nat) :
  l !! i = Some CONNECTING →
  length (filter (λ st, st ≠ CLOSED) (<[i:=OPEN]> l))
  = length (filter (λ st, st ≠ CLOSED) l).
Proof.
  intros Hi.
  rewrite insert_take_drop by (by eapply lookup_lt_Some).
  rewrite <- (take_drop_middle l i CONNECTING Hi) at 3.
  rewrite !filter_app, !filter_cons, !length_app.
  by rewrite !decide_True by done.
Qed.

Lemma live_closing (l : list ReadyState) (i : nat) :
  l !! i = Some OPEN →
  length (filter (λ st, st ≠ CLOSED) (<[i:=CLOSING]> l))
  = length (filter (λ st, st ≠ CLOSED) l).
Proof.
  intros Hi.
  rewrite insert_take_drop by (by eapply lookup_lt_Some).
  rewrite <- (take_drop_middle l i OPEN Hi) at 3.
  rewrite !filter_app, !filter_cons, !length_app.
  by rewrite !decide_True by done.
Qed.

(** ** The steps of the event loop on sockets and timers *)

Lemma step_EvClose (i : nat) (g g' : Game) :
  step (EvClose i) g = Some g' →
  ∃ st, sockets g !! i = Some st ∧ st ≠ CLOSED
        ∧ sockets g' = <[i:=CLOSED]> (sockets g)
        ∧ timers g' = timers g ++ [reconnect_delay].
Proof.
  unfold step. destruct (sockets g !! i) as [st|] eqn:E; [|done].
  destruct st; intros [= <-]; try done; by eexists.
Qed.

Lemma step_EvTimer (k : nat) (g g' : Game) :
  step (EvTimer k) g = Some g' →
  ∃ delay, timers g !! k = Some delay
           ∧ timers g' = delete k (timers g)
           ∧ sockets g' = sockets g ++ [CONNECTING]
           ∧ ws g' = Some (length (sockets g)).
Proof.
  unfold step. destruct (timers g !! k) as [delay|] eqn:E; [|done].
  intros [= <-]. by exists delay.
Qed.

Lemma step_EvOpen (i : nat) (g g' : Game) :
  step (EvOpen i) g = Some g' →
  sockets g !! i = Some CONNECTING
  ∧ sockets g' = <[i:=OPEN]> (sockets g)
  ∧ timers g' = timers g.
Proof.
  unfold step. destruct (sockets g !! i) as [st|] eqn:E; [|done].
  destruct st; intros [= <-]; try done.
  pose proof (login_connection
                (set_connected true (set_readyState i OPEN g))) as H.
  unfold connection in H. injection H as Hs Ht.
  unfold onopen. by rewrite Hs, Ht.
Qed.

Lemma step_EvClosing (i : nat) (g g' : Game) :
  step (EvClosing i) g = Some g' →
  sockets g !! i = Some OPEN
  ∧ sockets g' = <[i:=CLOSING]> (sockets g)
  ∧ timers g' = timers g.
Proof.
  unfold step. destruct (sockets g !! i) as [st|] eqn:E; [|done].
  destruct st; by intros [= <-].
Qed.

(** Every other event leaves the sockets and the timers as they are. *)
Lemma step_other (ev : Event) (g g' : Game) :
  step ev g = Some g' →
  match ev with
  | EvOpen _ | EvClosing _ | EvClose _ | EvTimer _ => True
  | _ => connection g' = connection g
  end.
Proof.
  destruct ev; try done; unfold step; intros H.
  - destruct (sockets g !! i) as [[]|]; try done. injection H as <-.
    apply handleMessage_connection.
  - destruct (sockets g !! i) as [[]|]; try done; by injection H as <-.
  - by injection H as <-.
  - injection H as <-. apply login_connection.
  - by injection H as <-.
  - injection H as <-. apply selectHorse_connection.
  - injection H as <-. apply placeTrifectaBet_connection.
  - injection H as <-. apply selectMysteryTrifecta_connection.
  - by injection H as <-.
Qed.

(** One socket is live or one timer is pending, never both, never two of
    a kind; a pending timer has the fixed delay. *)
Lemma reachable_connection (g : Game) :
  reachable g →
  (length (live_sockets g) + length (timers g) = 1)%nat
  ∧ Forall (λ delay, delay = reconnect_delay) (timers g).
Proof.
  induction 1 as [|ev g g' Hreach [IHn IHd] Hstep]; [by vm_compute|].
  unfold live_sockets in *.
  destruct ev;
    try (pose proof (step_other _ _ _ Hstep) as Hc; simpl in Hc;
         unfold connection in Hc; injection Hc as Hs Ht;
         by rewrite Hs, Ht).
  - apply step_EvOpen in Hstep as (Hi & -> & ->).
    by rewrite live_open.
  - apply step_EvClosing in Hstep as (Hi & -> & ->).
    by rewrite live_closing.
  - apply step_EvClose in Hstep as (st & Hi & Hst & -> & ->).
    pose proof (live_close _ _ _ Hi Hst) as Hlive.
    rewrite length_app. simpl. split; [lia|].
    apply Forall_app. split; [done|]. by constructor.
  - apply step_EvTimer in Hstep as (delay & Hk & -> & -> & _).
    rewrite filter_app, length_app, length_delete by done.
    apply lookup_lt_Some in Hk. simpl. split; [lia|].
    rewrite delete_take_drop. apply Forall_app. split.
    + by apply Forall_take.
    + by apply Forall_drop.
Qed.

(** C9. In every state the event loop can reach, at most one reconnect
    timer is pending. A close event arrives only while none is pending
    and starts exactly one, with the fixed delay of 3000 ms, leaving no
    live socket; when the timer expires it is gone and [connect] has
    created one new socket, whose close event starts the next timer. The
    cycle never stops: with no timer pending there is a live socket that
    can close, and a pending timer can expire. *)
Theorem reconnect_policy (g : Game) :
  reachable g →
  (length (timers g) ≤ 1)%nat
  ∧ (∀ i g', step (EvClose i) g = Some g' →
       timers g = [] ∧ timers g' = [reconnect_delay]
       ∧ live_sockets g' = [] ∧ reachable g')
  ∧ (∀ k g', step (EvTimer k) g = Some g' →
       timers g' = [] ∧ live_sockets g' = [CONNECTING] ∧ reachable g')
  ∧ (timers g = [] → ∃ i g', step (EvClose i) g = Some g')
  ∧ (timers g ≠ [] → ∃ g', step (EvTimer 0) g = Some g').
Proof.
  intros Hreach.
  destruct (reachable_connection g Hreach) as [Hone Hdelay].
  split_and!.
  - lia.
  - intros i g' Hstep.
    assert (Hreach' : reachable g') by (by eapply reachable_step).
    destruct (reachable_connection g' Hreach') as [Hone' _].
    apply step_EvClose in Hstep as (st & Hi & Hst & Hs & Ht).
    pose proof (live_close _ _ _ Hi Hst) as Hlive.
    unfold live_sockets in *. rewrite Hs, Ht in Hone'. rewrite Hs, Ht.
    rewrite length_app in Hone'. simpl in Hone'.
    assert (Hnone : timers g = []) by (apply nil_length_inv; lia).
    rewrite Hnone in *. split_and!; try done.
    apply nil_length_inv. lia.
  - intros k g' Hstep.
    assert (Hreach' : reachable g') by (by eapply reachable_step).
    apply step_EvTimer in Hstep as (delay & Hk & Ht & Hs & _).
    apply lookup_lt_Some in Hk.
    assert (Hdead : live_sockets g = []) by (apply nil_length_inv; lia).
    unfold live_sockets in *. rewrite Hs, Ht, filter_app, Hdead.
    split_and!; try done.
    apply nil_length_inv. rewrite length_delete; [lia|].
    by apply lookup_lt_is_Some_2.
  - intros Hnone. rewrite Hnone in Hone. simpl in Hone.
    destruct (live_sockets g) as [|st rest] eqn:Hlive; [simpl in Hone; lia|].
    assert (Hin : st ∈ live_sockets g) by (rewrite Hlive; left).
    apply list_elem_of_filter in Hin as [Hst [i Hi]%list_elem_of_lookup].
    exists i. unfold step. rewrite Hi. destruct st; by eauto.
  - intros Hsome. destruct (timers g) as [|delay rest] eqn:Ht; [done|].
    unfold step. rewrite Ht. by eauto.
Qed.

Lemma reconnect_policy_witness :
  (length (timers new_game) ≤ 1)%nat
  ∧ ∃ g', step (EvClose 0) new_game = Some g'
          ∧ timers g' = [reconnect_delay] ∧ live_sockets g' = [].
Proof.
  destruct (reconnect_policy new_game reachable_new) as (Hle & Hclose & _).
  split; [done|].
  destruct (Hclose 0%nat (onclose (set_readyState 0 CLOSED new_game)) eq_refl)
    as (_ & Ht & Hl & _).
  by eexists.
Defined.

(** * Further properties of the client *)

(** * The event loop: who writes what *)

(** Every handler of the embedding with its calls unfolded, apart from the
    loops. *)
Ltac unfold_handlers :=
  unfold onopen, onmessage, onclose, onerror, handleMessage,
    handleMessage_switch, reaches_switch, updateUser_throws, balance_throws,
    showGameScreen,
    updateUser, refreshBalance, updateBalance, updateRaceState, run_stmts,
    updateRaceState_stmts, resetForNewRace, updatePhase, updateOdds,
    addBetToCurrentRace, selectBetType, clearSelections,
    clearTrifectaSelection, selectHorse, handleTrifectaSelection,
    handleSingleBetSelection, selectTrifectaHorse, placeBet,
    placeTrifectaBet, selectMysteryTrifecta, login, send, showError,
    set_user_rank in *;
  cbn [foldl] in *.

Ltac by_unfolding :=
  unfold_handlers; repeat case_match; try done; split_and?; reflexivity.

(** The loop over the leaders writes to the user of the session and to
    nothing else. *)
Lemma leaders_loop_only_user (leaders : list Leader) (index : nat)
  (found : bool) (g : Game) :
  (leaders_loop index leaders found g).2
  = set_user (user (leaders_loop index leaders found g).2) g.
Proof.
  revert index found g.
  induction leaders as [|leader rest IH]; intros index found g.
  { by destruct g. }
  simpl. case_match; [|apply IH].
  rewrite IH. unfold set_user_rank. by case_match.
Qed.

Lemma updateLeaderboard_only_user (leaders : list Leader) (rank : oddsval)
  (g : Game) :
  updateLeaderboard leaders rank g
  = set_user (user (updateLeaderboard leaders rank g)) g.
Proof.
  unfold updateLeaderboard.
  pose proof (leaders_loop_only_user leaders 0 false g) as H.
  destruct (leaders_loop 0 leaders false g) as [found g']. simpl in H.
  rewrite H. unfold set_user_rank. cbn [user set_user].
  repeat case_match; by destruct g.
Qed.

(** ** Messages and clicks leave the transport alone *)

Lemma handleMessage_transport (message : Message) (g : Game) :
  transport (handleMessage message g) = transport g
  ∧ connected (handleMessage message g) = connected g
  ∧ page_state (handleMessage message g) = page_state g.
Proof.
  unfold handleMessage, handleMessage_switch.
  destruct (msg_payload message);
    try rewrite updateLeaderboard_only_user; by_unfolding.
Qed.

Lemma step_ui_transport (ev : Event) (g g' : Game) :
  is_ui ev = true → step ev g = Some g' →
  transport g' = transport g ∧ connected g' = connected g.
Proof.
  destruct ev; try done; intros _ [= <-].
  all: by_unfolding.
Qed.

(** ** The current socket *)

Ltac simpl_fields :=
  cbn [sockets ws connected timers user currentRace selectedBetType
       selectedHorse trifectaSelection currentRaceBets currentOdds
       usernameInput outbox notices bettingPanelShown
       set_sockets set_ws set_connected set_timers set_user set_currentRace
       set_selectedBetType set_selectedHorse set_trifectaSelection
       set_currentRaceBets set_currentOdds set_usernameInput set_outbox
       set_notices set_bettingPanelShown set_readyState connect] in *.

Lemma step_socket_ws (ev : Event) (g g' : Game) :
  step ev g = Some g' →
  match ev with
  | EvOpen _ | EvClosing _ | EvClose _ => ws g' = ws g
  | _ => True
  end.
Proof.
  destruct ev; try done; unfold step; intros H.
  all: destruct (sockets g !! i) as [[]|]; try done; injection H as <-.
  all: by_unfolding.
Qed.

Lemma latest_lookup (older : list ReadyState) (st st' : ReadyState) (i : nat) :
  Forall (λ s, s = CLOSED) older → (older ++ [st]) !! i = Some st' →
  st' ≠ CLOSED → i = length older ∧ st' = st.
Proof.
  intros Hold Hi Hst.
  apply lookup_app_Some in Hi as [Hi|[Hlen Hi]].
  - rewrite Forall_lookup in Hold. by specialize (Hold _ _ Hi).
  - apply list_lookup_singleton_Some in Hi as [Hi ->]. split; [lia|done].
Qed.

Lemma current_is_latest_transport (g g' : Game) :
  transport g' = transport g → current_is_latest g → current_is_latest g'.
Proof.
  unfold transport, current_is_latest. intros [= Hs Hw _]. by rewrite Hs, Hw.
Qed.

Lemma reachable_current_is_latest (g : Game) :
  reachable g → current_is_latest g.
Proof.
  induction 1 as [|ev g g' Hreach IH Hstep].
  { exists [], CONNECTING. by repeat split. }
  destruct (is_ui ev) eqn:Hui.
  { eapply current_is_latest_transport; [|done].
    by eapply step_ui_transport. }
  destruct IH as (older & st & Hs & Hw & Hold).
  destruct ev; try done.
  - pose proof (step_socket_ws _ _ _ Hstep) as Hws. simpl in Hws.
    apply step_EvOpen in Hstep as (Hi & Hs' & _).
    rewrite Hs in Hi.
    apply (latest_lookup _ _ _ _ Hold) in Hi as [-> <-]; [|done].
    exists older, OPEN. rewrite Hs', Hs, Hws. split_and!; try done.
    by rewrite insert_app_r_alt, Nat.sub_diag by lia.
  - unfold step in Hstep. destruct (sockets g !! i) as [[]|]; try done.
    injection Hstep as <-.
    eapply current_is_latest_transport; [apply handleMessage_transport|].
    by exists older, st.
  - unfold step in Hstep. destruct (sockets g !! i) as [[]|]; try done;
      injection Hstep as <-; by exists older, st.
  - pose proof (step_socket_ws _ _ _ Hstep) as Hws. simpl in Hws.
    apply step_EvClosing in Hstep as (Hi & Hs' & _).
    rewrite Hs in Hi.
    apply (latest_lookup _ _ _ _ Hold) in Hi as [-> <-]; [|done].
    exists older, CLOSING. rewrite Hs', Hs, Hws. split_and!; try done.
    by rewrite insert_app_r_alt, Nat.sub_diag by lia.
  - pose proof (step_socket_ws _ _ _ Hstep) as Hws. simpl in Hws.
    apply step_EvClose in Hstep as (st' & Hi & Hst & Hs' & _).
    rewrite Hs in Hi.
    apply (latest_lookup _ _ _ _ Hold) in Hi as [-> <-]; [|done].
    exists older, CLOSED. rewrite Hs', Hs, Hws. split_and!; try done.
    by rewrite insert_app_r_alt, Nat.sub_diag by lia.
  - destruct (reachable_connection g Hreach) as [Hone _].
    apply step_EvTimer in Hstep as (delay & Hk & _ & Hs' & Hws).
    apply lookup_lt_Some in Hk.
    assert (Hdead : live_sockets g = []) by (apply nil_length_inv; lia).
    exists (sockets g), CONNECTING. split_and!; try done.
    unfold live_sockets in Hdead. apply Forall_forall. intros s Hin.
    destruct (decide (s = CLOSED)) as [|Hne]; [done|].
    assert (Hl : s ∈ filter (λ st, st ≠ CLOSED) (sockets g))
      by (by apply list_elem_of_filter).
    rewrite Hdead in Hl. by apply elem_of_nil in Hl.
Qed.

Lemma run_reachable (evs : list Event) (g g' : Game) :
  reachable g → run evs g = Some g' → reachable g'.
Proof.
  revert g. induction evs as [|ev rest IH]; intros g Hreach; simpl.
  { by intros [= <-]. }
  destruct (step ev g) as [g1|] eqn:Hstep; [|done]. simpl.
  apply IH. by eapply reachable_step.
Qed.

Lemma play_reachable (evs : list Event) :
  run evs new_game = Some (Play.play evs) → reachable (Play.play evs).
Proof. apply run_reachable, reachable_new. Qed.

Lemma ws_is_open_transport (g g' : Game) :
  transport g' = transport g → ws_is_open g' = ws_is_open g.
Proof. unfold transport, ws_is_open. by intros [= -> -> _]. Qed.

(** The socket that opens is the current one. *)
Lemma reachable_open (i : nat) (g g' : Game) :
  reachable g → step (EvOpen i) g = Some g' →
  ws g = Some i
  ∧ g' = login (set_connected true (set_readyState i OPEN g))
  ∧ ws_is_open (set_connected true (set_readyState i OPEN g)) = true.
Proof.
  intros (older & last & Hs & Hw & Hold)%reachable_current_is_latest.
  unfold step. destruct (sockets g !! i) as [st|] eqn:Hi; [|done].
  destruct st; try done. intros [= <-].
  rewrite Hs in Hi.
  apply (latest_lookup _ _ _ _ Hold) in Hi as [-> <-]; [|done].
  split_and!; try done.
  unfold ws_is_open. simpl_fields. rewrite Hw, Hs.
  rewrite insert_app_r_alt, Nat.sub_diag by lia. simpl.
  by rewrite lookup_app_r, Nat.sub_diag by lia.
Qed.

Lemma current_readyState_transport (g g' : Game) :
  transport g' = transport g → current_readyState g' = current_readyState g.
Proof. unfold transport, current_readyState. by intros [= -> -> _]. Qed.

Lemma latest_readyState (older : list ReadyState) (last : ReadyState)
  (g : Game) :
  sockets g = older ++ [last] → ws g = Some (length older) →
  current_readyState g = Some last.
Proof.
  intros Hs Hw. unfold current_readyState. rewrite Hw, Hs. simpl.
  by rewrite lookup_app_r, Nat.sub_diag by lia.
Qed.

(** The flag [connected] is set from the opening of the current socket
    to its close event. *)
Lemma reachable_connected (g : Game) :
  reachable g → connected g = established (current_readyState g).
Proof.
  induction 1 as [|ev g g' Hreach IH Hstep]; [done|].
  destruct (is_ui ev) eqn:Hui.
  { destruct (step_ui_transport _ _ _ Hui Hstep) as [Ht ->].
    by rewrite (current_readyState_transport _ _ Ht). }
  destruct (reachable_current_is_latest g Hreach)
    as (older & last & Hs & Hw & Hold).
  pose proof (latest_readyState _ _ _ Hs Hw) as Hcur.
  assert (Hupd : ∀ st s, sockets s = <[length older:=st]> (sockets g) →
            ws s = ws g → current_readyState s = Some st).
  { intros st s Hs' Hw'. apply (latest_readyState older).
    - rewrite Hs', Hs. by rewrite insert_app_r_alt, Nat.sub_diag by lia.
    - by rewrite Hw'. }
  destruct ev; try done.
  - pose proof (step_socket_ws _ _ _ Hstep) as Hws. simpl in Hws.
    destruct (reachable_open _ _ _ Hreach Hstep) as (Hi & Hg' & _).
    apply step_EvOpen in Hstep as (_ & Hs' & _).
    rewrite Hw in Hi. injection Hi as <-.
    rewrite (Hupd OPEN g' Hs' Hws). rewrite Hg'. by_unfolding.
  - unfold step in Hstep. destruct (sockets g !! i) as [[]|]; try done.
    injection Hstep as <-. unfold onmessage.
    destruct (handleMessage_transport message g) as (Ht & -> & _).
    by rewrite (current_readyState_transport _ _ Ht).
  - unfold step in Hstep. destruct (sockets g !! i) as [[]|]; try done;
      by injection Hstep as <-.
  - pose proof (step_socket_ws _ _ _ Hstep) as Hws. simpl in Hws.
    assert (Hc : connected g' = connected g).
    { unfold step in Hstep. destruct (sockets g !! i) as [[]|]; try done.
      by injection Hstep as <-. }
    apply step_EvClosing in Hstep as (Hi & Hs' & _).
    rewrite Hs in Hi.
    apply (latest_lookup _ _ _ _ Hold) in Hi as [-> <-]; [|done].
    rewrite (Hupd CLOSING g' Hs' Hws), Hc, IH, Hcur. done.
  - pose proof (step_socket_ws _ _ _ Hstep) as Hws. simpl in Hws.
    assert (Hc : connected g' = false).
    { unfold step in Hstep. destruct (sockets g !! i) as [[]|]; try done;
        by injection Hstep as <-. }
    apply step_EvClose in Hstep as (st & Hi & Hst & Hs' & _).
    rewrite Hs in Hi.
    apply (latest_lookup _ _ _ _ Hold) in Hi as [-> <-]; [|done].
    by rewrite (Hupd CLOSED g' Hs' Hws), Hc.
  - destruct (reachable_connection g Hreach) as [Hone _].
    assert (Hc : connected g' = connected g).
    { unfold step in Hstep. destruct (timers g !! k); try done.
      by injection Hstep as <-. }
    apply step_EvTimer in Hstep as (delay & Hk & _ & Hs' & Hws).
    apply lookup_lt_Some in Hk.
    assert (Hdead : live_sockets g = []) by (apply nil_length_inv; lia).
    assert (Hlast : last = CLOSED).
    { destruct (decide (last = CLOSED)) as [|Hne]; [done|].
      assert (Hl : last ∈ live_sockets g).
      { apply list_elem_of_filter. split; [done|].
        rewrite Hs. apply elem_of_app. right. left. }
      rewrite Hdead in Hl. by apply elem_of_nil in Hl. }
    rewrite (latest_readyState (sockets g) CONNECTING g' Hs' Hws).
    by rewrite Hc, IH, Hcur, Hlast.
Qed.

(** X1. In every state the event loop can reach, the current socket is
    the last one the game has created and every older socket has closed:
    a socket that can still deliver an event is the current one. The
    flag [connected] is set from the opening of the current socket to
    its close event: exactly while its [readyState] is [OPEN] or
    [CLOSING]; frames go out only while it is set. *)
Theorem current_socket_is_the_live_one (g : Game) :
  reachable g →
  ws g = Some (length (sockets g) - 1)%nat
  ∧ sockets g ≠ []
  ∧ (∀ i st, sockets g !! i = Some st → st ≠ CLOSED → ws g = Some i)
  ∧ connected g = established (current_readyState g)
  ∧ (ws_is_open g = true → connected g = true).
Proof.
  intros Hreach.
  pose proof (reachable_connected g Hreach) as Hconnected.
  destruct (reachable_current_is_latest g Hreach)
    as (older & last & Hs & Hw & Hold).
  split_and!.
  - rewrite Hs, Hw, length_app. simpl. f_equal. lia.
  - rewrite Hs. by destruct older.
  - intros i st Hi Hst. rewrite Hs in Hi. rewrite Hw.
    by apply (latest_lookup _ _ _ _ Hold) in Hi as [-> _].
  - done.
  - rewrite Hconnected. unfold ws_is_open, current_readyState.
    destruct (ws g) as [i|]; [|done]. simpl.
    by destruct (sockets g !! i) as [[]|].
Qed.

Lemma current_socket_is_the_live_one_witness :
  let g := Play.play (Sample.session
                        ++ [EvClose 0; EvTimer 0; EvOpen 1; EvClosing 1]) in
  sockets g = [CLOSED; CLOSING] ∧ ws g = Some 1%nat
  ∧ (∀ i st, sockets g !! i = Some st → st ≠ CLOSED → ws g = Some i)
  ∧ connected g = true.
Proof.
  intros g. split; [by vm_compute|]. split; [by vm_compute|].
  destruct (current_socket_is_the_live_one g) as (_ & _ & Hlive & Hc & _).
  { apply play_reachable. by vm_compute. }
  split; [exact Hlive|]. by rewrite Hc.
Defined.

(** X2. When a socket opens, in any state the event loop can reach, it
    is the current socket; the game is connected and calls [login]: with
    a username in the input, the one frame [login] of that username goes
    out; with an empty input nothing is sent and the notice asks for a
    username. *)
Theorem open_logs_in (i : nat) (g g' : Game) :
  reachable g → step (EvOpen i) g = Some g' →
  ws g' = Some i ∧ ws_is_open g' = true ∧ connected g' = true
  ∧ (if String.eqb (usernameInput g) ""
     then outbox g' = outbox g ∧ notices g' = notices g ++ [username_notice]
     else outbox g' = outbox g ++ [FLogin (usernameInput g)]
          ∧ notices g' = notices g).
Proof.
  intros Hreach Hstep.
  destruct (reachable_open _ _ _ Hreach Hstep) as (Hw & -> & Hopen).
  unfold login. simpl_fields.
  destruct (String.eqb (usernameInput g) "") eqn:Hname.
  - by rewrite <- Hw.
  - unfold send. rewrite Hopen. by rewrite <- Hw.
Qed.

Lemma open_logs_in_witness :
  let g := Play.play [UiUsername "alice"] in
  ∃ g', step (EvOpen 0) g = Some g' ∧ outbox g' = [FLogin "alice"]
        ∧ notices g' = [].
Proof.
  eexists. split; [reflexivity|].
  exact (proj2 (proj2 (proj2
           (open_logs_in 0 (Play.play [UiUsername "alice"]) _
              (play_reachable [UiUsername "alice"] eq_refl) eq_refl)))).
Defined.

(** X3. Nothing is queued: while the current socket is not open, no
    event other than the opening of a socket hands a frame to a socket;
    frames go out only on an open current socket. *)
Theorem offline_sends_nothing (ev : Event) (g g' : Game) :
  ws_is_open g = false → (∀ i, ev ≠ EvOpen i) → step ev g = Some g' →
  outbox g' = outbox g.
Proof.
  intros Hclosed Hev.
  assert (Hsend : ∀ f s, ws s = ws g → sockets s = sockets g →
            send f s = showError not_ready_notice s).
  { intros f s Hw Hs. unfold send, ws_is_open in *. by rewrite Hw, Hs, Hclosed. }
  destruct ev; unfold step; intros Hstep.
  1: by destruct (Hev i).
  all: repeat case_match; try done; injection Hstep as <-; try reflexivity.
  all: try (unfold login; case_match; [done|]; by rewrite Hsend).
  all: try (unfold selectHorse, handleTrifectaSelection,
              handleSingleBetSelection, selectTrifectaHorse, placeBet,
              placeTrifectaBet, selectMysteryTrifecta;
            repeat first [case_match | case_bool_decide]; rewrite ?Hsend;
            reflexivity).
  unfold onmessage, handleMessage, handleMessage_switch.
  case_match; [|by_unfolding].
  destruct (msg_payload message);
    try rewrite updateLeaderboard_only_user;
    unfold showGameScreen, updateUser, refreshBalance, updateBalance;
    repeat case_match; rewrite ?Hsend; try reflexivity.
  all: try by_unfolding.
  all: rewrite ?Hsend; try reflexivity.
Qed.

Lemma offline_sends_nothing_witness :
  let g := Play.play (Play.picks_while_racing ++ [EvClose 0]) in
  ws_is_open g = false ∧ length (trifectaSelection g) = 3%nat
  ∧ outbox (placeTrifectaBet g) = outbox g.
Proof.
  split; [by vm_compute|]. split; [by vm_compute|].
  by apply (offline_sends_nothing UiPlaceTrifecta
              (Play.play (Play.picks_while_racing ++ [EvClose 0]))).
Defined.

(** ** What is sent *)

Ltac no_frame := exists []; split; [by rewrite app_nil_r | by constructor].

Lemma showError_appends (P : Frame → Prop) (message : string) (g : Game) :
  ∃ new, outbox (showError message g) = outbox g ++ new ∧ Forall P new.
Proof. no_frame. Qed.

Lemma send_appends (P : Frame → Prop) (frame : Frame) (g : Game) :
  P frame →
  ∃ new, outbox (send frame g) = outbox g ++ new ∧ Forall P new.
Proof.
  intros HP. unfold send. case_match; [|no_frame].
  exists [frame]. split; [done|]. by repeat constructor.
Qed.

Lemma appends_trans (P : Frame → Prop) (g1 g2 g3 : Game) :
  (∃ new, outbox g2 = outbox g1 ++ new ∧ Forall P new) →
  (∃ new, outbox g3 = outbox g2 ++ new ∧ Forall P new) →
  ∃ new, outbox g3 = outbox g1 ++ new ∧ Forall P new.
Proof.
  intros (new1 & H1 & HP1) (new2 & H2 & HP2). exists (new1 ++ new2).
  split; [by rewrite H2, H1, app_assoc | by apply Forall_app].
Qed.

Lemma placeTrifectaBet_appends (g : Game) :
  ∃ new, outbox (placeTrifectaBet g) = outbox g ++ new
         ∧ Forall (sent_from g) new.
Proof.
  unfold placeTrifectaBet.
  destruct (length (trifectaSelection g) =? 3)%nat eqn:Hlen; cbn [negb];
    [|apply showError_appends].
  case_match; [apply showError_appends|].
  unfold clearTrifectaSelection.
  change (outbox (set_trifectaSelection [] ?s)) with (outbox s).
  apply send_appends. split_and!; try done.
  by apply Nat.eqb_eq in Hlen.
Qed.

Lemma placeBet_appends (g : Game) :
  ∃ new, outbox (placeBet g) = outbox g ++ new ∧ Forall (sent_from g) new.
Proof.
  unfold placeBet. case_match; [apply showError_appends|].
  destruct (selectedBetType g =? "trifecta")%string eqn:Htype;
    [apply placeTrifectaBet_appends|].
  apply String.eqb_neq in Htype.
  destruct (selectedHorse g) as [[|horse|horse]|];
    try apply showError_appends.
  all: case_match; [apply showError_appends|].
  all: unfold clearSelections;
    change (outbox (set_trifectaSelection [] (set_selectedHorse None ?s)))
      with (outbox s);
    apply send_appends; (split; [done|]); (split; [done|]);
    rewrite decide_False by done; (split; [done|]); by eexists.
Qed.

Lemma handleMessage_appends (message : Message) (g : Game) :
  ∃ new, outbox (handleMessage message g) = outbox g ++ new
         ∧ Forall (sent_from g) new.
Proof.
  unfold handleMessage, handleMessage_switch.
  set (g1 := match msg_user message with
             | Some userData => updateUser userData g
             | None => g
             end).
  assert (H1 : outbox g1 = outbox g) by (unfold g1; by_unfolding).
  rewrite <- H1. clearbody g1.
  case_match; [|no_frame].
  destruct (msg_payload message);
    try rewrite updateLeaderboard_only_user;
    try (exists []; split; [rewrite app_nil_r; by_unfolding | constructor]).
  unfold showGameScreen. simpl_fields. repeat case_match; try no_frame.
  eapply appends_trans; [|by apply send_appends].
  eapply appends_trans; [|by apply send_appends].
  exists []. split; [|by constructor]. rewrite app_nil_r. by_unfolding.
Qed.

(** Every event appends to the frames that went out, and what it
    appends is built from the state it starts in. *)
Lemma step_appends (ev : Event) (g g' : Game) :
  step ev g = Some g' →
  ∃ new, outbox g' = outbox g ++ new ∧ Forall (sent_from g) new.
Proof.
  destruct ev; unfold step; intros Hstep.
  all: repeat case_match; try done; injection Hstep as <-.
  all: try no_frame.
  - unfold onopen, login. simpl_fields.
    destruct (usernameInput g =? "")%string eqn:Hname; [no_frame|].
    apply String.eqb_neq in Hname.
    change (outbox g) with
      (outbox (set_connected true (set_readyState i OPEN g))).
    by apply send_appends.
  - apply handleMessage_appends.
  - unfold login.
    destruct (usernameInput g =? "")%string eqn:Hname; [no_frame|].
    apply String.eqb_neq in Hname. by apply send_appends.
  - unfold selectHorse, handleTrifectaSelection, handleSingleBetSelection.
    case_match.
    + unfold selectTrifectaHorse.
      repeat first [case_match | case_bool_decide]; no_frame.
    + apply (placeBet_appends (set_selectedHorse (Some horseId) g)).
  - apply placeTrifectaBet_appends.
  - unfold selectMysteryTrifecta. repeat case_match; no_frame.
Qed.

Lemma sent_from_well_formed (g : Game) (frame : Frame) :
  sent_from g frame → well_formed frame.
Proof.
  destruct frame as [username|type amount selection| |]; simpl; try done.
  - by intros [_ ?].
  - intros (? & _ & H). split; [done|]. case_decide; [by destruct H|].
    by destruct H as [_ ?].
Qed.

(** X4. Every frame the game has handed to a socket, in any state the
    event loop can reach, is well formed: a login names a user, a bet
    stakes one dollar, a trifecta names three horses and every other bet
    one horse whose id is not zero. *)
Theorem frames_well_formed (g : Game) :
  reachable g → Forall well_formed (outbox g).
Proof.
  induction 1 as [|ev g g' _ IH Hstep]; [by constructor|].
  apply step_appends in Hstep as (new & -> & Hnew).
  apply Forall_app. split; [done|].
  eapply Forall_impl; [done|]. apply sent_from_well_formed.
Qed.

Lemma frames_well_formed_witness :
  let g := Play.play (Play.picks_while_racing ++ [UiPlaceTrifecta]) in
  outbox g = [FLogin "alice"; FGetRaceState; FGetLeaderboard;
              FPlaceBet "trifecta" n1 [1; 2; 3]]
  ∧ Forall well_formed (outbox g).
Proof.
  split; [by vm_compute|].
  apply (frames_well_formed
           (Play.play (Play.picks_while_racing ++ [UiPlaceTrifecta]))).
  apply play_reachable. by vm_compute.
Defined.

(** ** The selection in the states the event loop reaches *)

Lemma selection_ok_cleared (g' : Game) :
  trifectaSelection g' = [] → selection_ok g'.
Proof. intros H. unfold selection_ok. rewrite H. simpl. split; [lia|done]. Qed.

Lemma selection_ok_kept (g g' : Game) :
  trifectaSelection g' = trifectaSelection g →
  selectedBetType g' = selectedBetType g →
  selection_ok g → selection_ok g'.
Proof. unfold selection_ok. by intros -> ->. Qed.

Lemma selectTrifectaHorse_selection_ok (horseId : Z) (g : Game) :
  selection_ok g → selection_ok (selectTrifectaHorse horseId g).
Proof.
  intros [Hlen Hidle]. unfold selectTrifectaHorse, parseInt.
  destruct (selectedBetType g =? "trifecta")%string eqn:Htype; [|done].
  apply String.eqb_eq in Htype. cbn [negb].
  case_bool_decide; [|destruct (Nat.ltb_spec (length (trifectaSelection g)) 3)].
  - split; simpl_fields; [|done].
    pose proof (length_filter (λ id, id ≠ horseId) (trifectaSelection g)). lia.
  - split; simpl_fields; [|done]. rewrite length_app. simpl. lia.
  - done.
Qed.

Lemma selectMysteryTrifecta_selection_ok (random_index : RandomIndex)
  (g : Game) :
  selection_ok g → selection_ok (selectMysteryTrifecta random_index g).
Proof.
  intros Hok. unfold selectMysteryTrifecta.
  destruct (selectedBetType g =? "trifecta")%string eqn:Htype; [|done].
  apply String.eqb_eq in Htype. cbn [negb].
  destruct (currentRace g) as [race|]; [|done].
  split; unfold clearTrifectaSelection; simpl_fields; [|done].
  rewrite app_nil_l.
  destruct (mystery_picks_spec random_index (map horse_id (race_horses race)))
    as [-> _].
  lia.
Qed.

(** What an event does to the selection: it keeps it together with the
    bet type, clears it, toggles one horse or draws the mystery
    trifecta. *)
Lemma step_selection (ev : Event) (g g' : Game) :
  step ev g = Some g' →
  (trifectaSelection g' = trifectaSelection g
   ∧ selectedBetType g' = selectedBetType g)
  ∨ trifectaSelection g' = []
  ∨ (∃ horseId, ev = UiHorse horseId ∧ g' = selectTrifectaHorse horseId g)
  ∨ (∃ random_index,
       ev = UiMystery random_index
       ∧ g' = selectMysteryTrifecta random_index g).
Proof.
  destruct ev; unfold step; intros Hstep.
  all: repeat case_match; try done; injection Hstep as <-.
  all: try (left; by_unfolding).
  all: try (right; left; by_unfolding).
  - unfold onmessage, handleMessage, handleMessage_switch.
    destruct (msg_payload message);
      try rewrite updateLeaderboard_only_user;
      try (left; by_unfolding).
    + unfold updateRaceState, run_stmts, updateRaceState_stmts,
        updatePhase, resetForNewRace.
      cbn [foldl]. repeat case_match;
        first [ right; left; by_unfolding | left; by_unfolding ].
    + unfold updatePhase.
      repeat case_match;
        first [ right; left; by_unfolding | left; by_unfolding ].
  - unfold selectHorse, handleTrifectaSelection, handleSingleBetSelection.
    case_match; [right; right; left; by eexists|].
    unfold placeBet, placeTrifectaBet.
    repeat case_match;
      first [ right; left; by_unfolding | left; by_unfolding ].
  - unfold placeTrifectaBet.
    repeat case_match;
      first [ right; left; by_unfolding | left; by_unfolding ].
  - right. right. right. by eexists.
Qed.

Lemma step_selection_ok (ev : Event) (g g' : Game) :
  step ev g = Some g' → selection_ok g → selection_ok g'.
Proof.
  intros [[Hs Ht]|[Hs|[(h & _ & ->)|(r & _ & ->)]]]%step_selection Hok.
  - by eapply selection_ok_kept.
  - by apply selection_ok_cleared.
  - by apply selectTrifectaHorse_selection_ok.
  - by apply selectMysteryTrifecta_selection_ok.
Qed.

(** X5. In every state the event loop can reach, at most three horses
    are selected for the trifecta, and none is while another bet type is
    selected. *)
Theorem selection_bounded (g : Game) :
  reachable g →
  (length (trifectaSelection g) ≤ 3)%nat
  ∧ (selectedBetType g ≠ "trifecta"%string → trifectaSelection g = []).
Proof.
  induction 1 as [|ev g g' _ IH Hstep]; [split; [simpl; lia | done]|].
  by eapply step_selection_ok.
Qed.

Lemma selection_bounded_witness :
  let g := Play.play (Play.picking ++ [UiHorse 4; UiHorse 1; UiHorse 1]) in
  trifectaSelection g = [2; 3; 4]
  ∧ (length (trifectaSelection g) ≤ 3)%nat.
Proof.
  split; [by vm_compute|].
  apply (selection_bounded
           (Play.play (Play.picking ++ [UiHorse 4; UiHorse 1; UiHorse 1]))).
  apply play_reachable. by vm_compute.
Defined.

(** ** Who writes to the session, the race, the bets and the odds *)

Lemma step_server_state (ev : Event) (g g' : Game) :
  (∀ i message, ev ≠ EvMessage i message) → step ev g = Some g' →
  server_state g' = server_state g.
Proof.
  intros Hev. destruct ev; unfold step; intros Hstep.
  all: try (by destruct (Hev _ _ eq_refl)).
  all: repeat case_match; try done; injection Hstep as <-.
  all: unfold_handlers; repeat first [case_match | case_bool_decide];
    reflexivity.
Qed.

Lemma step_page_state (ev : Event) (g g' : Game) :
  is_ui ev = false → step ev g = Some g' → page_state g' = page_state g.
Proof.
  destruct ev; try done; unfold step; intros _ Hstep.
  all: repeat case_match; try done; injection Hstep as <-.
  all: try apply handleMessage_transport.
  all: by_unfolding.
Qed.

(** X6. Each part of the state has one kind of writer. The session, the
    race that is held, the bets of the race and the odds change only
    when a message arrives: no click, no event of a socket and no
    reconnect timer writes to them, so a click records no bet and moves
    no balance, and a reconnect keeps them. The bet type, the horse of a
    single bet and the username change only on a click or an input:
    never on a message. *)
Theorem one_writer (ev : Event) (g g' : Game) :
  step ev g = Some g' →
  ((∀ i message, ev ≠ EvMessage i message) →
   server_state g' = server_state g)
  ∧ (is_ui ev = false → page_state g' = page_state g).
Proof.
  intros Hstep. split; intros Hev.
  - by eapply step_server_state.
  - by eapply step_page_state.
Qed.

Lemma one_writer_witness :
  let g := Play.play Play.picks_while_racing in
  ∃ g', step UiPlaceTrifecta g = Some g'
        ∧ outbox g' = outbox g ++ [FPlaceBet "trifecta" n1 [1; 2; 3]]
        ∧ server_state g' = server_state g.
Proof.
  eexists. split; [reflexivity|]. split; [by vm_compute|].
  by apply (one_writer UiPlaceTrifecta (Play.play Play.picks_while_racing)).
Defined.

(** The race, the odds and the bets after a message, by its type. *)
Lemma updateUser_footprint (userData : User) (g : Game) :
  updateUser userData g = set_user (user (updateUser userData g)) g.
Proof. unfold_handlers. repeat case_match; by destruct g. Qed.

Lemma refreshBalance_footprint (g : Game) :
  refreshBalance g = set_user (user (refreshBalance g)) g.
Proof. unfold_handlers. repeat case_match; by destruct g. Qed.

(** A message that does not get to the [switch] writes to the user and
    to nothing else. *)
Lemma handleMessage_stopped_footprint (message : Message) (g : Game) :
  reaches_switch message g = false →
  handleMessage message g = set_user (user (handleMessage message g)) g.
Proof.
  intros (userData & _ & ->)%handleMessage_stopped.
  apply updateUser_footprint.
Qed.

(** The race and the odds after a message, by its type. *)
Lemma handleMessage_currentRace (message : Message) (g : Game) :
  currentRace (handleMessage message g)
  = if reaches_switch message g
    then match msg_payload message with
         | RaceState race => Some race
         | _ => currentRace g
         end
    else currentRace g.
Proof.
  destruct (reaches_switch message g) eqn:Hreached.
  - rewrite handleMessage_reached by done. unfold handleMessage_switch.
    destruct (msg_payload message);
      try rewrite updateLeaderboard_only_user; by_unfolding.
  - by rewrite handleMessage_stopped_footprint.
Qed.

Lemma handleMessage_currentOdds (message : Message) (g : Game) :
  currentOdds (handleMessage message g)
  = if reaches_switch message g
    then match msg_payload message with
         | OddsUpdate odds _ => odds
         | _ => currentOdds g
         end
    else currentOdds g.
Proof.
  destruct (reaches_switch message g) eqn:Hreached.
  - rewrite handleMessage_reached by done. unfold handleMessage_switch.
    destruct (msg_payload message);
      try rewrite updateLeaderboard_only_user; by_unfolding.
  - by rewrite handleMessage_stopped_footprint.
Qed.

(** X7. A [phase_update] never writes to the race that is held. When
    the message gets to the [switch] of [handleMessage], it displays the
    betting panel for the phase [betting] and hides it for any other;
    when the merge of its user stops the handler before, the panel stays
    as it was. Either way the phase that [placeBet] reads stays the one
    of the last [race_state]: when that one is not [betting], a click on
    a horse for a single bet is still rejected after the [phase_update],
    with the notice that betting is closed. *)
Theorem phase_update_keeps_race (message : Message) (phase : string)
  (time_remaining : number) (horseId : Z) (g : Game) :
  msg_payload message = PhaseUpdate phase time_remaining →
  let g' := handleMessage message g in
  currentRace g' = currentRace g
  ∧ betting_closed g' = betting_closed g
  ∧ bettingPanelShown g'
    = (if reaches_switch message g then String.eqb phase "betting"
       else bettingPanelShown g)
  ∧ (betting_closed g = true → selectedBetType g ≠ "trifecta"%string →
     outbox (selectHorse horseId g') = outbox g'
     ∧ notices (selectHorse horseId g') = notices g' ++ [closed_notice]).
Proof.
  intros Hmsg g'.
  assert (Hrace : currentRace g' = currentRace g).
  { unfold g'. rewrite handleMessage_currentRace, Hmsg. by case_match. }
  assert (Hclosed : betting_closed g' = betting_closed g).
  { unfold betting_closed. by rewrite Hrace. }
  split_and!; try done.
  - unfold g'. destruct (reaches_switch message g) eqn:Hreached.
    + rewrite handleMessage_reached by done. unfold handleMessage_switch.
      rewrite Hmsg. unfold updatePhase.
      by destruct (phase =? "betting")%string.
    + by rewrite handleMessage_stopped_footprint.
  - intros Hc Htype.
    assert (Htype' : selectedBetType g' = selectedBetType g).
    { destruct (handleMessage_transport message g) as (_ & _ & Hp).
      unfold page_state in Hp. by injection Hp. }
    apply String.eqb_neq in Htype.
    unfold selectHorse, handleSingleBetSelection. rewrite Htype', Htype.
    rewrite placeBet_closed; [done|].
    unfold betting_closed in *. simpl_fields. by rewrite Hrace.
Qed.

Lemma phase_update_keeps_race_witness :
  let g := Play.play (Sample.logged_in
             ++ [EvMessage 0 (Sample.plain (RaceState (Sample.race 1 "racing")))]) in
  let g' := handleMessage (Sample.plain (PhaseUpdate "betting" n8)) g in
  bettingPanelShown g = false ∧ bettingPanelShown g' = true
  ∧ outbox (selectHorse 1 g') = outbox g'
  ∧ notices (selectHorse 1 g') = notices g' ++ [closed_notice].
Proof.
  intros g g'. split; [by vm_compute|].
  destruct (phase_update_keeps_race (Sample.plain (PhaseUpdate "betting" n8))
              "betting" n8 1 g eq_refl) as (_ & _ & Hshown & Hbet).
  split; [exact Hshown|]. apply Hbet; by vm_compute.
Defined.

Lemma updateRaceState_held (race : Race) (g : Game) :
  is_new_race race g = false →
  updateRaceState race g
  = updatePhase (race_phase race) (race_time_remaining race)
      (set_currentRace (Some race) g).
Proof.
  intros Hheld. unfold updateRaceState, run_stmts, updateRaceState_stmts.
  cbn [foldl]. unfold resetForNewRace. by rewrite Hheld.
Qed.

(** X8. A [race_state] for the race that is already held keeps the bets
    of the race, and its odds object is never stored: the odds that
    payouts are computed from stay the ones of the last [odds_update].
    When the message gets to the [switch] of [handleMessage], the race
    of the message is held afterwards and the trifecta selection is kept
    unless the phase of the message is [betting], which clears it; when
    the merge of its user stops the handler before, the race and the
    selection are as they were. *)
Theorem race_state_of_held_race (message : Message) (race : Race) (g : Game) :
  msg_payload message = RaceState race →
  is_new_race race g = false →
  let g' := handleMessage message g in
  currentRaceBets g' = currentRaceBets g
  ∧ currentOdds g' = currentOdds g
  ∧ (∀ horseId betType,
       getHorseCurrentOdds horseId betType g'
       = getHorseCurrentOdds horseId betType g)
  ∧ (reaches_switch message g = true →
     currentRace g' = Some race
     ∧ trifectaSelection g'
       = (if String.eqb (race_phase race) "betting" then []
          else trifectaSelection g))
  ∧ (reaches_switch message g = false →
     currentRace g' = currentRace g
     ∧ trifectaSelection g' = trifectaSelection g).
Proof.
  intros Hmsg Hheld g'.
  assert (Hodds : currentOdds g' = currentOdds g).
  { unfold g'. rewrite handleMessage_currentOdds, Hmsg. by case_match. }
  assert (Hswitch : reaches_switch message g = true →
            g' = updatePhase (race_phase race) (race_time_remaining race)
                   (set_currentRace (Some race)
                      match msg_user message with
                      | Some userData => updateUser userData g
                      | None => g
                      end)).
  { intros Hreached. unfold g'. rewrite handleMessage_reached by done.
    unfold handleMessage_switch. rewrite Hmsg.
    apply updateRaceState_held.
    destruct (msg_user message) as [userData|]; [|done].
    by rewrite updateUser_footprint. }
  split_and!; try done.
  - destruct (reaches_switch message g) eqn:Hreached.
    + rewrite Hswitch by done.
      destruct (msg_user message) as [userData|];
        [rewrite updateUser_footprint|]; unfold updatePhase; by case_match.
    + unfold g'. by rewrite handleMessage_stopped_footprint.
  - intros horseId betType. unfold getHorseCurrentOdds. by rewrite Hodds.
  - intros Hreached. rewrite Hswitch by done.
    destruct (msg_user message) as [userData|];
      [rewrite updateUser_footprint|]; unfold updatePhase; by case_match.
  - intros Hstopped. unfold g'.
    by rewrite handleMessage_stopped_footprint.
Qed.

Lemma race_state_of_held_race_witness :
  let g := Play.play Play.picking in
  let again := Sample.plain (RaceState (Sample.race 1 "betting")) in
  (currentRaceBets g = [Play.recorded_winner] ∧ trifectaSelection g = [2; 3])
  ∧ currentRaceBets (handleMessage again g) = [Play.recorded_winner]
  ∧ trifectaSelection (handleMessage again g) = [].
Proof.
  intros g again. split; [by vm_compute|].
  destruct (race_state_of_held_race again (Sample.race 1 "betting") g
              eq_refl eq_refl) as (Hbets & _ & _ & Hreached & _).
  split; [by rewrite Hbets|]. by destruct (Hreached eq_refl) as [_ ->].
Defined.

(** * C3: the mystery trifecta, on the page *)

Lemma page_reachable_reachable (g : Game) : page_reachable g → reachable g.
Proof.
  induction 1 as [|ev g g' _ IH _ Hstep]; [apply reachable_new|].
  by eapply reachable_step.
Qed.

Lemma page_reachable_run (evs : list Event) (g g' : Game) :
  page_reachable g → clickable_run evs g → run evs g = Some g' →
  page_reachable g'.
Proof.
  revert g. induction evs as [|ev rest IH]; intros g Hreach; simpl.
  { by intros _ [= <-]. }
  intros [Hclick Hrest]. destruct (step ev g) as [g1|] eqn:Hstep; [|done].
  simpl. apply IH; [|done]. by eapply page_reachable_step.
Qed.

(** Once a race is held, a race is held. *)
Lemma step_currentRace_None (ev : Event) (g g' : Game) :
  step ev g = Some g' → currentRace g' = None → currentRace g = None.
Proof.
  intros Hstep Hnone.
  assert (Hkept : (∀ i message, ev ≠ EvMessage i message) →
            currentRace g = None).
  { intros Hother.
    pose proof (step_server_state _ _ _ Hother Hstep) as Hs.
    unfold server_state in Hs. injection Hs as _ Hr _ _. by rewrite <- Hr. }
  destruct ev; try by apply Hkept.
  unfold step in Hstep. repeat case_match; try done.
  injection Hstep as <-. unfold onmessage in Hnone.
  rewrite handleMessage_currentRace in Hnone.
  by repeat case_match.
Qed.

(** The horses have buttons once a race is held: before, the page
    delivers no toggle, and nothing is selected. *)
Lemma page_reachable_no_race (g : Game) :
  page_reachable g → currentRace g = None → trifectaSelection g = [].
Proof.
  induction 1 as [|ev g g' _ IH Hclick Hstep]; [done|].
  intros Hnone. pose proof (step_currentRace_None _ _ _ Hstep Hnone) as Hg.
  destruct (step_selection _ _ _ Hstep)
    as [[Hs _]|[Hs|[(h & -> & ->)|(r & -> & ->)]]].
  - rewrite Hs. by apply IH.
  - done.
  - simpl in Hclick. by rewrite Hg in Hclick.
  - unfold selectMysteryTrifecta. rewrite Hg.
    destruct (negb _); by apply IH.
Qed.

(** C3. The button of the mystery trifecta is in the section of the
    trifecta, which the page displays while the trifecta is the selected
    bet type. In every state the page can reach, a click on it replaces
    the selection, whatever it was, by [min N 3] ids of the [N] horses
    of the race that is held, none when no race is held, no id twice
    when the ids of the horses are distinct: three when [N] is at least
    3, [N] otherwise; this holds for every source of random indices, and
    nothing else changes. *)
Theorem selectMysteryTrifecta_draws (random_index : RandomIndex)
  (g g' : Game) :
  page_reachable g →
  clickable (UiMystery random_index) g →
  step (UiMystery random_index) g = Some g' →
  let availableHorses :=
    match currentRace g with
    | Some race => map horse_id (race_horses race)
    | None => []
    end in
  let picks := trifectaSelection g' in
  NoDup availableHorses →
  length picks = (length availableHorses `min` 3)%nat
  ∧ ((3 ≤ length availableHorses)%nat → length picks = 3%nat)
  ∧ ((length availableHorses < 3)%nat →
     length picks = length availableHorses)
  ∧ NoDup picks
  ∧ (∀ id, id ∈ picks → id ∈ availableHorses)
  ∧ picks = mystery_picks random_index availableHorses
  ∧ g' = set_trifectaSelection picks g.
Proof.
  intros Hreach Htri [= <-] availableHorses picks Hnd. simpl in Htri.
  assert (Hsel : selectMysteryTrifecta random_index g
                 = set_trifectaSelection
                     (mystery_picks random_index availableHorses) g).
  { unfold selectMysteryTrifecta, availableHorses. rewrite Htri.
    cbn [String.eqb Ascii.eqb Bool.eqb negb].
    destruct (currentRace g) as [race|] eqn:Hrace; [reflexivity|].
    change (mystery_picks random_index []) with (@nil Z).
    pose proof (page_reachable_no_race g Hreach Hrace) as Hempty.
    destruct g. simpl in Hempty. by rewrite Hempty. }
  assert (Hpicks : picks = mystery_picks random_index availableHorses).
  { unfold picks. by rewrite Hsel. }
  destruct (mystery_picks_spec random_index availableHorses) as [Hlen Hsub].
  rewrite <- Hpicks in Hlen, Hsub, Hsel.
  split_and!; try done; try lia.
  - by eapply submseteq_NoDup.
  - intros id Hid. by eapply elem_of_submseteq.
Qed.

Lemma selectMysteryTrifecta_draws_witness :
  let evs := Play.winner_placed ++ [UiBetType "trifecta"] in
  let g := Play.play evs in
  ∃ g', step (UiMystery Sample.first_index) g = Some g'
        ∧ trifectaSelection g' = [1; 2; 3].
Proof.
  intros evs g. eexists. split; [reflexivity|].
  assert (Hreach : page_reachable g).
  { apply (page_reachable_run evs new_game);
      [apply page_reachable_new | by vm_compute | by vm_compute]. }
  destruct (selectMysteryTrifecta_draws Sample.first_index g _ Hreach
              eq_refl eq_refl)
    as (_ & _ & _ & _ & _ & -> & _); [|by vm_compute].
  apply (bool_decide_unpack _). by vm_compute.
Defined.

(** ** Trifectas on distinct horses *)

Lemma sent_from_distinct (g : Game) (frame : Frame) :
  NoDup (trifectaSelection g) → sent_from g frame →
  distinct_selection frame.
Proof.
  intros Hnd. destruct frame as [|type amount selection| |]; try done.
  simpl. intros (_ & _ & H). case_decide.
  - by destruct H as [-> _].
  - destruct H as (_ & horse & -> & _). apply NoDup_singleton.
Qed.

Lemma step_distinct_ok (ev : Event) (g g' : Game) :
  step ev g = Some g' → distinct_horses ev → distinct_ok g → distinct_ok g'.
Proof.
  intros Hstep Hev (Hsel & Hrace & Hout). split_and!.
  - destruct (step_selection _ _ _ Hstep) as [[Hs _]|[Hs|[(h & _ & ->)|(r & _ & ->)]]].
    + by rewrite Hs.
    + rewrite Hs. apply NoDup_nil_2.
    + unfold selectTrifectaHorse, parseInt.
      repeat first [case_match | case_bool_decide]; try done; simpl_fields.
      * by apply NoDup_filter.
      * apply NoDup_app. split_and!; [done| |apply NoDup_singleton].
        by intros x Hx ->%list_elem_of_singleton.
    + unfold selectMysteryTrifecta. repeat case_match; try done.
      unfold clearTrifectaSelection. simpl_fields. rewrite app_nil_l.
      eapply submseteq_NoDup; [apply mystery_picks_spec|]. by apply Hrace.
  - intros race Hheld.
    assert (Hkept : (∀ i message, ev ≠ EvMessage i message) →
              NoDup (map horse_id (race_horses race))).
    { intros Hother.
      pose proof (step_server_state _ _ _ Hother Hstep) as Hs.
      unfold server_state in Hs. injection Hs as _ Hr _ _.
      apply Hrace. by rewrite <- Hr. }
    destruct ev; try by apply Hkept.
    unfold step in Hstep. repeat case_match; try done.
    injection Hstep as <-. unfold onmessage in Hheld.
    rewrite handleMessage_currentRace in Hheld. simpl in Hev.
    destruct (reaches_switch message g); [|by apply Hrace].
    destruct (msg_payload message); try by apply Hrace.
    by injection Hheld as <-.
  - apply step_appends in Hstep as (new & -> & Hnew).
    apply Forall_app. split; [done|].
    eapply Forall_impl; [done|]. intros frame. by apply sent_from_distinct.
Qed.

(** X9. When every race the server announces has horses of distinct
    ids, the trifecta selection never holds a horse twice, and no bet
    that has gone out names a horse twice: every trifecta frame names
    three different horses. *)
Theorem trifectas_name_distinct_horses (evs : list Event) (g : Game) :
  Forall distinct_horses evs → run evs new_game = Some g →
  NoDup (trifectaSelection g)
  ∧ ∀ amount selection,
      FPlaceBet "trifecta" amount selection ∈ outbox g →
      NoDup selection ∧ length selection = 3%nat.
Proof.
  intros Hevs Hrun.
  assert (Hok : distinct_ok g).
  { assert (Hnew : distinct_ok new_game).
    { split_and!; [apply NoDup_nil_2 | done | by constructor]. }
    revert Hnew Hrun. generalize new_game.
    induction Hevs as [|ev rest Hev _ IH]; intros s Hs; simpl.
    { by intros [= <-]. }
    destruct (step ev s) as [s'|] eqn:Hstep; [|done]. simpl.
    apply IH. by eapply step_distinct_ok. }
  destruct Hok as (Hsel & _ & Hout). split; [done|].
  intros amount selection Hin.
  rewrite Forall_forall in Hout. split; [by apply (Hout _ Hin)|].
  assert (Hwf : Forall well_formed (outbox g)).
  { assert (Hnew : Forall well_formed (outbox new_game)) by constructor.
    revert Hnew Hrun. generalize new_game. clear.
    induction evs as [|ev rest IH]; intros s Hs; simpl.
    { by intros [= <-]. }
    destruct (step ev s) as [s'|] eqn:Hstep; [|done]. simpl.
    apply IH.
    apply step_appends in Hstep as (new & -> & Hnew).
    apply Forall_app. split; [done|].
    eapply Forall_impl; [done|]. apply sent_from_well_formed. }
  rewrite Forall_forall in Hwf. by destruct (Hwf _ Hin) as [_ ?].
Qed.

Lemma trifectas_name_distinct_horses_witness :
  let evs := Play.picks_while_racing ++ [UiPlaceTrifecta] in
  FPlaceBet "trifecta" n1 [1; 2; 3] ∈ outbox (Play.play evs)
  ∧ NoDup [1; 2; 3].
Proof.
  intros evs.
  assert (Hin : FPlaceBet "trifecta" n1 [1; 2; 3] ∈ outbox (Play.play evs)).
  { replace (outbox (Play.play evs))
      with [FLogin "alice"; FGetRaceState; FGetLeaderboard;
            FPlaceBet "trifecta" n1 [1; 2; 3]] by (by vm_compute).
    rewrite !elem_of_cons. tauto. }
  split; [exact Hin|].
  refine (proj1 (proj2 (trifectas_name_distinct_horses evs (Play.play evs)
                          _ _) n1 [1; 2; 3] Hin)).
  - repeat constructor; simpl; try done.
    all: apply (bool_decide_unpack _); by vm_compute.
  - by vm_compute.
Defined.

(** ** Replies to messages *)

Lemma send_open (frame : Frame) (g : Game) :
  ws_is_open g = true → send frame g = set_outbox (outbox g ++ [frame]) g.
Proof. intros H. unfold send. by rewrite H. Qed.

Lemma send_not_open (frame : Frame) (g : Game) :
  ws_is_open g = false → send frame g = showError not_ready_notice g.
Proof. intros H. unfold send. by rewrite H. Qed.

(** A socket that delivers a message is the current one, and open. *)
Lemma reachable_message_open (i : nat) (message : Message) (g g' : Game) :
  reachable g → step (EvMessage i message) g = Some g' →
  ws_is_open g = true ∧ g' = handleMessage message g.
Proof.
  intros (older & last & Hs & Hw & Hold)%reachable_current_is_latest.
  unfold step. destruct (sockets g !! i) as [st|] eqn:Hi; [|done].
  destruct st; try done. intros [= <-]. split; [|done].
  rewrite Hs in Hi.
  apply (latest_lookup _ _ _ _ Hold) in Hi as [-> <-]; [|done].
  unfold ws_is_open. rewrite Hw, Hs.
  by rewrite lookup_app_r, Nat.sub_diag by lia.
Qed.

(** X10. In the states the event loop can reach, the game answers one
    message only: on a [login_success] whose user carries a number for
    the balance it asks for the race state and then for the leaderboard.
    A [login_success] without such a user stops in [showGameScreen]
    before anything is sent, and no other message makes the game send
    anything. *)
Theorem replies_to_login_success_only (i : nat) (message : Message)
  (g g' : Game) :
  reachable g → step (EvMessage i message) g = Some g' →
  outbox g'
  = outbox g
    ++ match msg_payload message, msg_user message with
       | LoginSuccess, Some userData =>
           match userData !! "balance" with
           | Some (VNum _) => [FGetRaceState; FGetLeaderboard]
           | _ => []
           end
       | _, _ => []
       end.
Proof.
  intros Hreach Hstep.
  destruct (reachable_message_open _ _ _ _ Hreach Hstep) as [Hopen ->].
  clear Hreach Hstep.
  destruct (reaches_switch message g) eqn:Hreached.
  2: { rewrite handleMessage_stopped_footprint by done. simpl_fields.
       unfold reaches_switch, updateUser_throws, balance_throws in Hreached.
       destruct (msg_user message) as [userData|]; [|done].
       destruct (user g) as [u|]; [|done]. simpl_fields.
       destruct (msg_payload message); rewrite ?app_nil_r; try done.
       destruct (userData !! "balance") as [balance|] eqn:Hb;
         [|by rewrite app_nil_r].
       rewrite (lookup_union_Some_l _ _ _ _ Hb) in Hreached.
       destruct balance; by rewrite ?app_nil_r. }
  rewrite handleMessage_reached by done. unfold handleMessage_switch.
  destruct (msg_payload message).
  2: { destruct (msg_user message) as [userData|];
         [|by rewrite app_nil_r].
       unfold showGameScreen, balance_throws. simpl_fields.
       destruct (userData !! "balance") as [[]|]; rewrite ?app_nil_r;
         try by rewrite updateUser_footprint.
       rewrite refreshBalance_footprint, updateUser_footprint.
       rewrite (send_open FGetRaceState) by exact Hopen.
       rewrite send_open by exact Hopen.
       simpl_fields. by rewrite <- app_assoc. }
  all: cbn [app]; rewrite app_nil_r.
  all: try rewrite updateLeaderboard_only_user; by_unfolding.
Qed.

Lemma replies_to_login_success_only_witness :
  let g := Play.play [UiUsername "alice"; EvOpen 0] in
  let message := {| msg_user := Some Sample.alice;
                    msg_payload := LoginSuccess |} in
  ∃ g', step (EvMessage 0 message) g = Some g'
        ∧ outbox g' = outbox g ++ [FGetRaceState; FGetLeaderboard].
Proof.
  intros g message. eexists. split; [reflexivity|].
  apply (replies_to_login_success_only 0 message g);
    [apply play_reachable|]; by vm_compute.
Defined.

(** ** Attempts to bet *)

(** X11. An attempt to bet has one of two outcomes, through [placeBet]
    as through [placeTrifectaBet] and a click on a horse for a single
    bet: either one [place_bet] frame goes out and no notice is shown,
    or one notice is shown and nothing goes out. The frame goes out only
    on an open socket, for a type of which the race has no bet yet, and
    the trifecta selection is empty after it. *)
Theorem bet_attempt_outcome (g : Game) :
  bet_outcome g (placeBet g)
  ∧ bet_outcome g (placeTrifectaBet g)
  ∧ ∀ horseId, selectedBetType g ≠ "trifecta"%string →
               bet_outcome g (selectHorse horseId g).
Proof.
  assert (Htri : ∀ s, bet_outcome s (placeTrifectaBet s)).
  { intros s. unfold bet_outcome, placeTrifectaBet.
    destruct (negb _); [right; by eexists|].
    destruct (has_bet_of_type "trifecta" s) eqn:Hnone; [right; by eexists|].
    destruct (ws_is_open s) eqn:Hopen.
    - left. rewrite send_open by done. by eexists _, _.
    - right. rewrite send_not_open by done. by eexists. }
  assert (Hbet : ∀ s, bet_outcome s (placeBet s)).
  { intros s. unfold placeBet.
    destruct (betting_closed s); [right; by eexists|].
    destruct (selectedBetType s =? "trifecta")%string; [done|].
    unfold bet_outcome.
    destruct (selectedHorse s) as [[|horse|horse]|]; try (right; by eexists).
    all: destruct (has_bet_of_type (selectedBetType s) s) eqn:Hnone;
      [right; by eexists|].
    all: destruct (ws_is_open s) eqn:Hopen;
      [ left; rewrite send_open by done; by eexists _, _
      | right; rewrite send_not_open by done; by eexists ]. }
  split_and!; [done..|].
  intros horseId Htype%String.eqb_neq.
  unfold selectHorse, handleSingleBetSelection. rewrite Htype.
  exact (Hbet (set_selectedHorse (Some horseId) g)).
Qed.

Lemma bet_attempt_outcome_witness :
  let g := Play.play Sample.session in
  selectedBetType g = "winner"%string ∧ bet_outcome g (selectHorse 3 g).
Proof.
  intros g. split; [by vm_compute|].
  by apply (proj2 (proj2 (bet_attempt_outcome g)) 3).
Defined.

(** X12. An attempt to bet while the current socket is not open is not
    kept for later: nothing goes out, the notice says that the
    connection is not ready, and the selection is cleared all the same,
    the three horses of a trifecta as the horse of a single bet. *)
Theorem unsent_bet_clears_selection (g : Game) :
  ws_is_open g = false →
  (length (trifectaSelection g) = 3%nat →
   has_bet_of_type "trifecta" g = false →
   outbox (placeTrifectaBet g) = outbox g
   ∧ notices (placeTrifectaBet g) = notices g ++ [not_ready_notice]
   ∧ trifectaSelection (placeTrifectaBet g) = [])
  ∧ (∀ horseId, horseId ≠ 0 →
     betting_closed g = false →
     selectedBetType g ≠ "trifecta"%string →
     has_bet_of_type (selectedBetType g) g = false →
     outbox (selectHorse horseId g) = outbox g
     ∧ notices (selectHorse horseId g) = notices g ++ [not_ready_notice]
     ∧ selectedHorse (selectHorse horseId g) = None).
Proof.
  intros Hclosed. split.
  - intros Hlen Hnone. unfold placeTrifectaBet.
    rewrite Hlen, Hnone, send_not_open by done. done.
  - intros horseId Hid Hbetting Htype%String.eqb_neq Hnone.
    unfold selectHorse, handleSingleBetSelection. rewrite Htype.
    unfold placeBet.
    change (betting_closed (set_selectedHorse _ g)) with (betting_closed g).
    rewrite Hbetting. simpl_fields. rewrite Htype.
    change (has_bet_of_type ?t (set_selectedHorse _ g))
      with (has_bet_of_type t g).
    rewrite Hnone, send_not_open by done.
    by destruct horseId.
Qed.

Lemma unsent_bet_clears_selection_witness :
  let g := Play.play (Play.picks_while_racing ++ [EvClose 0]) in
  trifectaSelection g = [1; 2; 3]
  ∧ outbox (placeTrifectaBet g) = outbox g
  ∧ notices (placeTrifectaBet g) = notices g ++ [not_ready_notice]
  ∧ trifectaSelection (placeTrifectaBet g) = [].
Proof.
  intros g. split; [by vm_compute|].
  assert (Hclosed : ws_is_open g = false) by (by vm_compute).
  assert (Hlen : length (trifectaSelection g) = 3%nat) by (by vm_compute).
  assert (Hnone : has_bet_of_type "trifecta" g = false) by (by vm_compute).
  exact (proj1 (unsent_bet_clears_selection g Hclosed) Hlen Hnone).
Defined.

(** ** A recorded bet blocks its type *)

Lemma handleMessage_currentRaceBets (message : Message) (g : Game) :
  (∀ race, msg_payload message ≠ RaceState race) →
  ∃ more, currentRaceBets (handleMessage message g)
          = currentRaceBets g ++ more.
Proof.
  intros Hother. unfold handleMessage, handleMessage_switch.
  set (g1 := match msg_user message with
             | Some userData => updateUser userData g
             | None => g
             end).
  assert (H1 : currentRaceBets g1 = currentRaceBets g)
    by (unfold g1; by_unfolding).
  rewrite <- H1. clearbody g1.
  case_match; [|exists []; by rewrite app_nil_r].
  destruct (msg_payload message);
    try rewrite updateLeaderboard_only_user;
    try (by destruct (Hother race));
    try (exists []; rewrite app_nil_r; by_unfolding).
  unfold addBetToCurrentRace. simpl_fields. eexists. f_equal.
  unfold updateBalance. by case_match.
Qed.

Lemma has_bet_of_type_app (type : string) (g g' : Game) (more : list BetInfo) :
  currentRaceBets g' = currentRaceBets g ++ more →
  has_bet_of_type type g = true → has_bet_of_type type g' = true.
Proof.
  unfold has_bet_of_type. intros -> H. by rewrite existsb_app, H.
Qed.

Lemma step_keeps_bet (type : string) (ev : Event) (g g' : Game) :
  announces_race ev = false → step ev g = Some g' →
  has_bet_of_type type g = true → has_bet_of_type type g' = true.
Proof.
  intros Hev Hstep.
  assert (Hkept : (∀ i message, ev ≠ EvMessage i message) →
            ∃ more, currentRaceBets g' = currentRaceBets g ++ more).
  { intros Hother.
    pose proof (step_server_state _ _ _ Hother Hstep) as Hs.
    unfold server_state in Hs. injection Hs as _ _ Hb _.
    exists []. by rewrite app_nil_r. }
  assert (Hbets : ∃ more, currentRaceBets g' = currentRaceBets g ++ more).
  { destruct ev; try by apply Hkept.
    unfold step in Hstep. repeat case_match; try done.
    injection Hstep as <-. apply handleMessage_currentRaceBets.
    intros race Hrace. simpl in Hev. by rewrite Hrace in Hev. }
  destruct Hbets as [more Hbets]. by apply has_bet_of_type_app with more.
Qed.

(** X13. Once a [bet_placed] message has got to the [switch] of
    [handleMessage], which records its bet, the game sends no further
    bet of the type of that bet until a message announces a race,
    whatever the user clicks and whatever else arrives meanwhile. *)
Theorem confirmed_type_is_blocked (message : Message) (new_balance : number)
  (bet : Bet) (evs : list Event) (g g' : Game) :
  msg_payload message = BetPlaced new_balance bet →
  reaches_switch message g = true →
  Forall (λ ev, announces_race ev = false) evs →
  run evs (handleMessage message g) = Some g' →
  ∃ new, outbox g' = outbox (handleMessage message g) ++ new
         ∧ ∀ amount selection,
             FPlaceBet (bet_type bet) amount selection ∉ new.
Proof.
  intros Hmsg Hreached Hevs.
  assert (Hheld : has_bet_of_type (bet_type bet) (handleMessage message g)
                  = true).
  { rewrite handleMessage_reached by done.
    unfold handleMessage_switch. rewrite Hmsg. unfold has_bet_of_type.
    unfold addBetToCurrentRace. simpl_fields. rewrite existsb_app.
    apply orb_true_iff. right.
    assert (Hself : (bet_type bet =? bet_type bet)%string = true)
      by apply String.eqb_refl.
    repeat case_match; simpl; by rewrite Hself. }
  revert Hheld. generalize (handleMessage message g).
  induction Hevs as [|ev rest Hev _ IH]; intros s Hheld; simpl.
  { intros [= <-]. exists []. split; [by rewrite app_nil_r|].
    intros amount selection Hin. by apply elem_of_nil in Hin. }
  destruct (step ev s) as [s'|] eqn:Hstep; [|done]. simpl. intros Hrun.
  destruct (IH s' (step_keeps_bet _ _ _ _ Hev Hstep Hheld) Hrun)
    as (new' & Hout & Hnone).
  destruct (step_appends _ _ _ Hstep) as (new & Hs' & Hnew).
  exists (new ++ new'). split; [by rewrite Hout, Hs', app_assoc|].
  intros amount selection [Hin|Hin]%elem_of_app; [|by eapply Hnone].
  rewrite Forall_forall in Hnew. destruct (Hnew _ Hin) as (_ & Hfree & _).
  by rewrite Hheld in Hfree.
Qed.

Lemma confirmed_type_is_blocked_witness :
  let g := Play.play Sample.session in
  let message := Sample.plain (BetPlaced n4 (Sample.bet "winner" [1])) in
  ∃ g' new, run [UiHorse 2; UiHorse 3] (handleMessage message g) = Some g'
            ∧ outbox g' = outbox (handleMessage message g) ++ new
            ∧ ∀ amount selection, FPlaceBet "winner" amount selection ∉ new.
Proof.
  intros g message.
  destruct (confirmed_type_is_blocked message n4 (Sample.bet "winner" [1])
              [UiHorse 2; UiHorse 3] g
              (Play.play (Play.winner_placed ++ [UiHorse 2; UiHorse 3]))
              eq_refl eq_refl)
    as (new & Hout & Hnone).
  - by repeat constructor.
  - by vm_compute.
  - exists (Play.play (Play.winner_placed ++ [UiHorse 2; UiHorse 3])), new.
    split; [by vm_compute|]. by split.
Defined.

(** ** The horses of the player's bets *)

(** X14. [isHorseInPlayerBets] follows the bets the server confirms.
    For a message that gets to the [switch] of [handleMessage], a
    confirmed trifecta adds each of its horses, any other confirmed bet
    its first horse; a [race_state] for another race forgets them all;
    no other message changes the answer for any horse, nor does a
    message that the merge of its user stops before the [switch]. *)
Theorem isHorseInPlayerBets_follows_bets (message : Message) (horseId : Z)
  (g : Game) :
  isHorseInPlayerBets horseId (handleMessage message g)
  = if reaches_switch message g
    then match msg_payload message with
         | BetPlaced _ bet =>
             isHorseInPlayerBets horseId g || bet_names bet horseId
         | RaceState race =>
             if is_new_race race g then false
             else isHorseInPlayerBets horseId g
         | _ => isHorseInPlayerBets horseId g
         end
    else isHorseInPlayerBets horseId g.
Proof.
  destruct (reaches_switch message g) eqn:Hreached;
    [|by rewrite handleMessage_stopped_footprint].
  rewrite handleMessage_reached by done. clear Hreached.
  unfold handleMessage_switch.
  destruct (msg_user message) as [userData|];
    [rewrite updateUser_footprint|].
  all: destruct (msg_payload message);
    try rewrite updateLeaderboard_only_user.
  all: try by_unfolding.
  all: try (unfold isHorseInPlayerBets, updateRaceState, run_stmts,
              updateRaceState_stmts, resetForNewRace, updatePhase,
              is_new_race;
            cbn [foldl]; simpl_fields; by repeat case_match).
  all: unfold isHorseInPlayerBets, addBetToCurrentRace, updateBalance,
         bet_names; simpl_fields.
  all: repeat case_match; simpl_fields; rewrite existsb_app; f_equal;
         cbn [existsb info_bet]; rewrite orb_false_r.
  all: repeat case_match; try done.
  all: try (symmetry; apply bool_decide_eq_false; congruence).
  all: match goal with
       | |- (?a =? ?b) = _ =>
           destruct (Z.eqb_spec a b) as [->|Hne]; symmetry;
             [by apply bool_decide_eq_true
             |apply bool_decide_eq_false; congruence]
       end.
Qed.

(** ** Toggling twice *)

Lemma filter_other_absent (horseId : Z) (l : list Z) :
  horseId ∉ l → filter (λ id, id ≠ horseId) l = l.
Proof.
  induction l as [|x l IH]; [done|].
  intros [Hx Hl]%not_elem_of_cons.
  rewrite filter_cons_True by done. by rewrite IH.
Qed.

Lemma filter_other_shorter (horseId : Z) (l : list Z) :
  horseId ∈ l → (length (filter (λ id, id ≠ horseId) l) < length l)%nat.
Proof.
  induction l as [|x l IH]; [by intros ?%elem_of_nil|].
  intros Hin. destruct (decide (x = horseId)) as [->|Hx].
  - rewrite filter_cons_False by (by intros H; apply H). simpl.
    pose proof (length_filter (λ id, id ≠ horseId) l). lia.
  - rewrite filter_cons_True by done. simpl.
    apply elem_of_cons in Hin as [->|Hin]; [done|].
    specialize (IH Hin). lia.
Qed.

Lemma filter_other_Permutation (horseId : Z) (l : list Z) :
  horseId ∈ l → NoDup l → filter (λ id, id ≠ horseId) l ++ [horseId] ≡ₚ l.
Proof.
  induction l as [|x l IH]; [by intros ?%elem_of_nil|].
  intros Hin [Hx Hl]%NoDup_cons.
  destruct (decide (x = horseId)) as [->|Hne].
  - rewrite filter_cons_False by (by intros H; apply H).
    rewrite filter_other_absent by done. by rewrite Permutation_app_comm.
  - rewrite filter_cons_True by done. simpl.
    apply elem_of_cons in Hin as [->|Hin]; [done|].
    by rewrite IH.
Qed.

(** X15. While the trifecta is selected, two clicks on the same horse
    undo each other when the horse was not selected and there was room
    for it: the state is as before. When the horse was one of at most
    three distinct horses selected, the second click puts it back in the
    last place: the same horses are selected, in another order. *)
Theorem selectTrifectaHorse_twice (horseId : Z) (g : Game) :
  selectedBetType g = "trifecta"%string →
  (horseId ∉ trifectaSelection g → (length (trifectaSelection g) < 3)%nat →
   selectTrifectaHorse horseId (selectTrifectaHorse horseId g) = g)
  ∧ (horseId ∈ trifectaSelection g → NoDup (trifectaSelection g) →
     (length (trifectaSelection g) ≤ 3)%nat →
     trifectaSelection (selectTrifectaHorse horseId
                          (selectTrifectaHorse horseId g))
     = filter (λ id, id ≠ horseId) (trifectaSelection g) ++ [horseId]
     ∧ trifectaSelection (selectTrifectaHorse horseId
                            (selectTrifectaHorse horseId g))
       ≡ₚ trifectaSelection g).
Proof.
  intros Htype. split.
  - intros Hout Hroom. unfold selectTrifectaHorse, parseInt.
    rewrite Htype. cbn [String.eqb Ascii.eqb Bool.eqb negb].
    rewrite (bool_decide_eq_false_2 _ Hout).
    apply Nat.ltb_lt in Hroom. rewrite Hroom. simpl_fields.
    rewrite Htype. cbn [String.eqb Ascii.eqb Bool.eqb negb].
    rewrite bool_decide_eq_true_2 by (apply elem_of_app; right; left).
    rewrite filter_app, filter_cons_False, filter_nil, app_nil_r
      by (by intros H; apply H).
    rewrite filter_other_absent by done. by destruct g.
  - intros Hin Hnd Hmax.
    pose proof (filter_other_shorter _ _ Hin) as Hlen.
    assert (Hsel : trifectaSelection
                     (selectTrifectaHorse horseId
                        (selectTrifectaHorse horseId g))
                   = filter (λ id, id ≠ horseId) (trifectaSelection g)
                     ++ [horseId]).
    { unfold selectTrifectaHorse, parseInt.
      rewrite Htype. cbn [String.eqb Ascii.eqb Bool.eqb negb].
      rewrite (bool_decide_eq_true_2 _ Hin). simpl_fields.
      rewrite Htype. cbn [String.eqb Ascii.eqb Bool.eqb negb].
      rewrite bool_decide_eq_false_2
        by (intros [H _]%list_elem_of_filter; by apply H).
      assert (Hroom : (length (filter (λ id, id ≠ horseId)
                                 (trifectaSelection g)) <? 3)%nat = true)
        by (apply Nat.ltb_lt; lia).
      by rewrite Hroom. }
    rewrite Hsel. split; [done|]. by apply filter_other_Permutation.
Qed.

Lemma selectTrifectaHorse_twice_witness :
  let g := Play.play Play.picking in
  trifectaSelection g = [2; 3]
  ∧ selectTrifectaHorse 4 (selectTrifectaHorse 4 g) = g
  ∧ trifectaSelection (selectTrifectaHorse 2 (selectTrifectaHorse 2 g))
    = [3; 2].
Proof.
  intros g.
  destruct (selectTrifectaHorse_twice 4 g eq_refl) as [Hundo _].
  destruct (selectTrifectaHorse_twice 2 g eq_refl) as [_ Hmove].
  split; [by vm_compute|]. split.
  - apply Hundo; [|by vm_compute].
    apply (bool_decide_unpack _). by vm_compute.
  - destruct Hmove as [-> _]; [..|by vm_compute].
    + apply (bool_decide_unpack _). by vm_compute.
    + apply (bool_decide_unpack _). by vm_compute.
    + vm_compute. lia.
Defined.

(** ** The mystery trifecta as a bet *)

(** X16. The mystery trifecta followed by the button that places the
    trifecta: with the trifecta selected, an open socket and no trifecta
    among the bets of the race, a race of three horses or more leaves
    the button enabled, and a click on it sends one [place_bet] frame on
    the three horses drawn, whatever was selected before, and empties
    the selection. After the draw from a race of fewer horses the button
    is disabled, so that the page delivers no click on it. *)
Theorem mystery_then_bet (random_index : RandomIndex) (race : Race)
  (g : Game) :
  selectedBetType g = "trifecta"%string →
  currentRace g = Some race →
  has_bet_of_type "trifecta" g = false →
  ws_is_open g = true →
  let picks := mystery_picks random_index (map horse_id (race_horses race)) in
  let g1 := selectMysteryTrifecta random_index g in
  trifectaSelection g1 = picks
  ∧ ((3 ≤ length (race_horses race))%nat →
     clickable UiPlaceTrifecta g1
     ∧ ∃ g', step UiPlaceTrifecta g1 = Some g'
             ∧ outbox g' = outbox g ++ [FPlaceBet "trifecta" n1 picks]
             ∧ notices g' = notices g
             ∧ trifectaSelection g' = []
             ∧ length picks = 3%nat
             ∧ picks ⊆+ map horse_id (race_horses race))
  ∧ ((length (race_horses race) < 3)%nat →
     placeTrifectaBtn_disabled g1 = true
     ∧ ¬ clickable UiPlaceTrifecta g1).
Proof.
  intros Htype Hrace Hnone Hopen picks g1.
  destruct (mystery_picks_spec random_index (map horse_id (race_horses race)))
    as [Hlen Hsub].
  rewrite length_map in Hlen. fold picks in Hlen, Hsub.
  assert (Hsel : g1 = set_trifectaSelection picks g).
  { unfold g1, selectMysteryTrifecta. by rewrite Htype, Hrace. }
  rewrite Hsel. split_and!; [done| |].
  - intros Hcount. assert (Hthree : length picks = 3%nat) by lia.
    split.
    + split; [done|]. unfold placeTrifectaBtn_disabled. simpl_fields.
      by rewrite Hthree.
    + eexists. split; [reflexivity|].
      unfold placeTrifectaBet. simpl_fields.
      change (has_bet_of_type "trifecta" (set_trifectaSelection picks g))
        with (has_bet_of_type "trifecta" g).
      rewrite Hnone, Hthree. cbn [Nat.eqb negb].
      rewrite send_open by done. by split_and!.
  - intros Hcount.
    assert (Hfew : (length picks =? 3)%nat = false)
      by (apply Nat.eqb_neq; lia).
    assert (Hdisabled : placeTrifectaBtn_disabled
                          (set_trifectaSelection picks g) = true).
    { unfold placeTrifectaBtn_disabled. simpl_fields. by rewrite Hfew. }
    split; [done|]. intros [_ Hable]. by rewrite Hdisabled in Hable.
Qed.

Lemma mystery_then_bet_witness :
  let g := Play.play Play.picking in
  let g1 := selectMysteryTrifecta Sample.first_index g in
  trifectaSelection g = [2; 3]
  ∧ ∃ g', step UiPlaceTrifecta g1 = Some g'
          ∧ outbox g' = outbox g ++ [FPlaceBet "trifecta" n1 [1; 2; 3]]
          ∧ notices g' = notices g.
Proof.
  intros g g1. split; [by vm_compute|].
  destruct (proj1 (proj2 (mystery_then_bet Sample.first_index
                            (Sample.race 1 "betting") g
                            eq_refl eq_refl eq_refl eq_refl)))
    as (_ & g' & Hstep & Hout & Hnotices & _); [vm_compute; lia|].
  exists g'. split; [exact Hstep|]. split; [exact Hout | exact Hnotices].
Defined.

(** ** The leaderboard and the rank of the user *)

Lemma leaders_loop_rank_only (leaders : list Leader) (index : nat)
  (found : bool) (g : Game) :
  match user g with
  | None => (leaders_loop index leaders found g).2 = g
  | Some u =>
      ∃ u', (leaders_loop index leaders found g).2 = set_user (Some u') g
            ∧ ∀ field, field ≠ "rank"%string → u' !! field = u !! field
  end.
Proof.
  revert index found g.
  induction leaders as [|leader rest IH]; intros index found g.
  { destruct (user g) as [u|] eqn:Hu; [|done].
    exists u. split; [|done]. rewrite <- Hu. by destruct g. }
  simpl. destruct (is_current_user leader g) eqn:Hcur; [|apply IH].
  destruct (user g) as [u|] eqn:Hu.
  2: { unfold is_current_user in Hcur. by rewrite Hu in Hcur. }
  set (rank := VNum _).
  specialize (IH (S index) true (set_user_rank rank g)).
  unfold set_user_rank in *. rewrite Hu in *. simpl_fields.
  destruct IH as (u' & -> & Hkeep). exists u'. split; [done|].
  intros field Hfield. rewrite Hkeep by done. by rewrite lookup_insert_ne.
Qed.

(** X17. [updateLeaderboard] writes to the rank of the user and to
    nothing else: without a session it changes nothing, and with one
    every other field of the user, the balance among them, and the rest
    of the state are as before. *)
Theorem updateLeaderboard_writes_rank_only (leaders : list Leader)
  (currentUserRank : oddsval) (g : Game) :
  match user g with
  | None => updateLeaderboard leaders currentUserRank g = g
  | Some u =>
      ∃ u', updateLeaderboard leaders currentUserRank g
            = set_user (Some u') g
            ∧ ∀ field, field ≠ "rank"%string → u' !! field = u !! field
  end.
Proof.
  unfold updateLeaderboard.
  pose proof (leaders_loop_rank_only leaders 0 false g) as Hloop.
  destruct (leaders_loop 0 leaders false g) as [found g1]. simpl in Hloop.
  destruct (user g) as [u|] eqn:Hu.
  - destruct Hloop as (u1 & -> & Hkeep). simpl_fields.
    destruct found; [by exists u1|].
    destruct (if truthy currentUserRank then _ else _) as [rank|];
      [|by exists u1].
    destruct (value_truthy rank); [|by exists u1].
    unfold set_user_rank. simpl_fields.
    exists (<["rank" := rank]> u1). split; [done|].
    intros field Hfield. rewrite lookup_insert_ne by done. by apply Hkeep.
  - rewrite Hloop, Hu. done.
Qed.

Lemma leaders_loop_absent (name : string) (leaders : list Leader)
  (index : nat) (found : bool) (u : User) (g : Game) :
  user g = Some u → u !! "username" = Some (VStr name) →
  Forall (λ leader, leader_username leader ≠ name) leaders →
  leaders_loop index leaders found g = (found, g).
Proof.
  intros Hu Hname Habsent. revert index.
  induction Habsent as [|leader rest Hl _ IH]; intros index; [done|].
  simpl. unfold is_current_user. rewrite Hu. simpl. rewrite Hname.
  apply String.eqb_neq in Hl. by rewrite Hl.
Qed.

Lemma leaders_loop_listed (name : string) (before after : list Leader)
  (leader : Leader) (index : nat) (found : bool) (u : User) (g : Game) :
  user g = Some u → u !! "username" = Some (VStr name) →
  leader_username leader = name →
  Forall (λ leader, leader_username leader ≠ name) after →
  ∃ u', leaders_loop index (before ++ leader :: after) found g
        = (true, set_user (Some u') g)
        ∧ u' !! "rank"
          = Some (VNum (match leader_rank leader with
                        | ONum x =>
                            if truthy (leader_rank leader) then x
                            else lit (Z.of_nat (index + length before) + 1) 0
                        | _ => lit (Z.of_nat (index + length before) + 1) 0
                        end)).
Proof.
  intros Hu Hname Hleader Hafter. revert index found u g Hu Hname.
  induction before as [|other before IH]; intros index found u g Hu Hname.
  - simpl. unfold is_current_user. rewrite Hu. simpl. rewrite Hname.
    rewrite Hleader, String.eqb_refl.
    set (rank := VNum _).
    assert (Hu' : user (set_user_rank rank g)
                  = Some (<["rank" := rank]> u)).
    { unfold set_user_rank. by rewrite Hu. }
    rewrite (leaders_loop_absent name after _ _ _ _ Hu')
      by (by rewrite ?lookup_insert_ne).
    exists (<["rank" := rank]> u). split.
    + unfold set_user_rank. by rewrite Hu.
    + rewrite lookup_insert_eq. unfold rank. rewrite Nat.add_0_r.
      by repeat case_match.
  - cbn [app leaders_loop].
    replace (index + length (other :: before))%nat
      with (S index + length before)%nat by (simpl; lia).
    destruct (is_current_user other g) eqn:Hcur.
    + set (rank := VNum _).
      assert (Hu' : user (set_user_rank rank g)
                    = Some (<["rank" := rank]> u)).
      { unfold set_user_rank. by rewrite Hu. }
      destruct (IH (S index) true _ _ Hu') as (u' & -> & Hrank);
        [by rewrite lookup_insert_ne|].
      exists u'. split; [|done].
      unfold set_user_rank. rewrite Hu. by simpl_fields.
    + by apply (IH (S index) found u g).
Qed.

(** X18. The rank [updateLeaderboard] leaves with the user. When the
    user is listed, the last entry with the username decides: its rank
    when that is a number other than zero and [NaN], its position in the
    list, counted from one, otherwise. When the user is not listed, the
    rank of the message is taken when it is truthy, and the stored rank
    is kept when it is not. *)
Theorem updateLeaderboard_rank (name : string) (leaders : list Leader)
  (currentUserRank : oddsval) (u : User) (g : Game) :
  user g = Some u → u !! "username" = Some (VStr name) →
  (∀ before leader after,
     leaders = before ++ leader :: after →
     leader_username leader = name →
     Forall (λ leader, leader_username leader ≠ name) after →
     ∃ u', user (updateLeaderboard leaders currentUserRank g) = Some u'
           ∧ u' !! "rank"
             = Some (VNum (match leader_rank leader with
                           | ONum x =>
                               if truthy (leader_rank leader) then x
                               else lit (Z.of_nat (length before) + 1) 0
                           | _ => lit (Z.of_nat (length before) + 1) 0
                           end)))
  ∧ (Forall (λ leader, leader_username leader ≠ name) leaders →
     ∃ u', user (updateLeaderboard leaders currentUserRank g) = Some u'
           ∧ u' !! "rank"
             = if truthy currentUserRank
               then oddsval_to_value currentUserRank
               else u !! "rank").
Proof.
  intros Hu Hname. split.
  - intros before leader after -> Hleader Hafter.
    destruct (leaders_loop_listed name before after leader 0 false u g
                Hu Hname Hleader Hafter) as (u' & Hloop & Hrank).
    unfold updateLeaderboard. rewrite Hloop. simpl_fields.
    exists u'. by split.
  - intros Habsent. unfold updateLeaderboard.
    rewrite (leaders_loop_absent name leaders 0 false u g Hu Hname Habsent).
    rewrite Hu.
    destruct (truthy currentUserRank) eqn:Htruthy.
    + destruct currentUserRank as [| |x]; try done. simpl.
      simpl in Htruthy. rewrite Htruthy. unfold set_user_rank. rewrite Hu.
      simpl_fields. eexists. split; [done|]. by rewrite lookup_insert_eq.
    + destruct (u !! "rank") as [rank|] eqn:Hrank.
      * destruct (value_truthy rank).
        -- unfold set_user_rank. rewrite Hu. simpl_fields.
           eexists. split; [done|]. by rewrite lookup_insert_eq.
        -- by exists u.
      * by exists u.
Qed.

Lemma updateLeaderboard_rank_witness :
  let g := Play.play Sample.session in
  let leaders := [ {| leader_username := "bob"; leader_rank := OUndefined |};
                   {| leader_username := "alice"; leader_rank := OUndefined |} ] in
  ∃ u', user (updateLeaderboard leaders OUndefined g) = Some u'
        ∧ u' !! "rank" = Some (VNum n2).
Proof.
  intros g leaders.
  destruct (proj1 (updateLeaderboard_rank "alice" leaders OUndefined
                     Sample.alice g eq_refl eq_refl)
              [ {| leader_username := "bob"; leader_rank := OUndefined |} ]
              {| leader_username := "alice"; leader_rank := OUndefined |}
              [] eq_refl eq_refl (Forall_nil_2 _))
    as (u' & Hu' & Hrank).
  by exists u'.
Defined.

(** ** The balance after a confirmed bet *)

(** X19. On a [bet_placed] message that gets to the [switch] of
    [handleMessage], the balance of the session becomes the
    [new_balance] of the message, also when the user object of the same
    message carries another balance; the other fields of the user are
    the merged ones, without a session no user appears, and the bet is
    recorded in either case. When the merge of the user of the message
    stops the handler before the [switch], the user is the merged one,
    with the balance that is not a number, and no bet is recorded. *)
Theorem bet_placed_balance (message : Message) (new_balance : number)
  (bet : Bet) (g : Game) :
  msg_payload message = BetPlaced new_balance bet →
  let g' := handleMessage message g in
  (reaches_switch message g = true →
   user g'
   = (u ← user g;
      Some (<["balance" := VNum new_balance]>
              (default ∅ (msg_user message) ∪ u)))
   ∧ length (currentRaceBets g') = S (length (currentRaceBets g)))
  ∧ (reaches_switch message g = false →
     user g' = (u ← user g; Some (default ∅ (msg_user message) ∪ u))
     ∧ (∀ u', user g' = Some u' → ∀ x, u' !! "balance" ≠ Some (VNum x))
     ∧ currentRaceBets g' = currentRaceBets g).
Proof.
  intros Hmsg g'. split.
  - intros Hreached. unfold g'. rewrite handleMessage_reached by done.
    unfold handleMessage_switch. rewrite Hmsg.
    assert (Hbets : ∀ s, length (currentRaceBets (addBetToCurrentRace bet s))
                         = S (length (currentRaceBets s))).
    { intros s. unfold addBetToCurrentRace. simpl_fields.
      rewrite length_app. simpl. lia. }
    rewrite Hbets. unfold addBetToCurrentRace. simpl_fields.
    destruct (user g) as [u|] eqn:Hu.
    + destruct (msg_user message) as [userData|]; simpl.
      * rewrite (updateUser_session _ _ _ Hu). unfold updateBalance.
        by simpl_fields.
      * unfold updateBalance. rewrite Hu. simpl_fields.
        by rewrite (left_id_L ∅ (∪)).
    + assert (Hnone : ∀ s, user s = None → updateBalance new_balance s = s).
      { intros s Hs. unfold updateBalance. by rewrite Hs. }
      destruct (msg_user message) as [userData|]; simpl.
      * unfold updateUser. rewrite Hu. by rewrite Hnone, Hu.
      * by rewrite Hnone, Hu.
  - intros Hstopped. unfold g'.
    destruct (handleMessage_stopped _ _ Hstopped) as (userData & Hud & ->).
    unfold reaches_switch, updateUser_throws in Hstopped.
    rewrite Hud in *. destruct (user g) as [u|] eqn:Hu; [|done].
    rewrite (updateUser_session _ _ _ Hu). simpl_fields. split_and!; try done.
    intros u' [= <-] x Hx. unfold balance_throws in Hstopped.
    simpl_fields. by rewrite Hx in Hstopped.
Qed.

Lemma bet_placed_balance_witness :
  let g := Play.play Sample.session in
  let message :=
    {| msg_user := Some {[ "balance" := VNum n8 ]};
       msg_payload := BetPlaced n4 (Sample.bet "winner" [1]) |} in
  ∃ u, user (handleMessage message g) = Some u
       ∧ u !! "balance" = Some (VNum n4)
       ∧ u !! "username" = Some (VStr "alice").
Proof.
  intros g message.
  destruct (proj1 (bet_placed_balance message n4 (Sample.bet "winner" [1]) g
                     eq_refl) eq_refl)
    as [Huser _].
  eexists. split; [exact Huser|]. by vm_compute.
Defined.

(** ** The buttons of the betting grid *)

Lemma needsRecreation_false (buttons : list Button) (horses : list Horse) :
  needsRecreation buttons horses = false
  ↔ map btn_horseId buttons = map horse_id horses.
Proof.
  unfold needsRecreation, parseInt. revert horses.
  induction buttons as [|btn buttons IH]; intros [|horse horses]; simpl;
    try done.
  specialize (IH horses).
  destruct (Z.eqb_spec (btn_horseId btn) (horse_id horse)) as [Hid|Hid];
    simpl.
  - rewrite Hid. split.
    + intros H. f_equal. by apply IH.
    + intros [= H]. by apply IH.
  - rewrite orb_true_r. split; [done|]. by intros [= H _].
Qed.

Lemma updateBettingButtonOdds_ids (odds : Odds) (buttons : list Button) :
  map btn_horseId (updateBettingButtonOdds odds buttons)
  = map btn_horseId buttons.
Proof.
  unfold updateBettingButtonOdds. rewrite map_map.
  apply map_ext. intros btn. by case_match.
Qed.

(** X20. [updateBettingOptions] keeps the buttons of the grid exactly
    when they carry the ids of the horses of the race, in their order,
    and creates them anew otherwise; either way the grid then has one
    button for each horse of the race, in the order of the race. *)
Theorem updateBettingOptions_ids (horses : list Horse) (odds : Odds)
  (buttons : list Button) :
  (needsRecreation buttons horses = false
   ↔ map btn_horseId buttons = map horse_id horses)
  ∧ map btn_horseId (updateBettingOptions horses odds buttons)
    = map horse_id horses
  ∧ (map btn_horseId buttons ≠ map horse_id horses →
     updateBettingOptions horses odds buttons
     = createHorseButtons horses odds).
Proof.
  pose proof (needsRecreation_false buttons horses) as Hkeep.
  split_and!; [done| |].
  - unfold updateBettingOptions.
    destruct (needsRecreation buttons horses).
    + unfold createHorseButtons. rewrite map_map. by apply map_ext.
    + rewrite updateBettingButtonOdds_ids. by apply Hkeep.
  - intros Hne. unfold updateBettingOptions.
    destruct (needsRecreation buttons horses); [done|].
    destruct Hne. by apply Hkeep.
Qed.

Lemma updateBettingOptions_ids_witness :
  updateBettingOptions Sample.horses ∅ [] = createHorseButtons Sample.horses ∅
  ∧ map btn_horseId (updateBettingOptions Sample.horses ∅ []) = [1; 2; 3; 4].
Proof.
  destruct (updateBettingOptions_ids Sample.horses ∅ []) as (_ & Hids & Hnew).
  split; [by apply Hnew | exact Hids].
Defined.

Lemma formatOdds_n2 : formatOdds (ONum n2) = Some default_odds_text.
Proof. by vm_compute. Qed.

Lemma formatOdds_falsy (v : oddsval) :
  truthy v = false → formatOdds v = Some default_odds_text.
Proof. intros H. unfold formatOdds, formatOdds_falls_back. by rewrite H. Qed.

(** X21. A button as [createHorseButton] makes it and the same button
    after [updateBettingButtonOdds] with the same odds. The text of the
    winner odds is the same on both, whatever the odds are; with truthy
    place odds the text of the place odds is the same too, and with
    truthy winner odds the colour. For a horse that has an entry whose
    place odds are missing, [null], zero or [NaN], the new button shows
    [$1.50] and the updated one [$2.00]. *)
Theorem button_created_and_updated (horse : Horse) (odds : Odds)
  (entry : OddsEntry) :
  odds !! horse_id horse = Some entry →
  let created := createHorseButton horse odds in
  ∀ updated, updateBettingButtonOdds odds [created] = [updated] →
    btn_horseId updated = btn_horseId created
    ∧ btn_win updated = btn_win created
    ∧ (truthy (winner entry) = true → btn_tier updated = btn_tier created)
    ∧ (truthy (place entry) = true → btn_place updated = btn_place created)
    ∧ (truthy (place entry) = false →
       btn_place created = Some "$1.50"%string
       ∧ btn_place updated = Some "$2.00"%string).
Proof.
  intros Hentry created updated.
  unfold updateBettingButtonOdds, created, createHorseButton, parseInt.
  cbn [map btn_horseId]. rewrite Hentry. intros [= <-].
  unfold winner_of, place_of, or_else. rewrite Hentry.
  cbn [btn_horseId btn_win btn_tier btn_place].
  split_and!; try done.
  - destruct (truthy (winner entry)) eqn:Hw; [done|].
    by rewrite formatOdds_n2, formatOdds_falsy.
  - by intros ->.
  - by intros ->.
  - intros Hp. rewrite Hp. split; [by vm_compute|].
    by rewrite formatOdds_falsy.
Qed.

Lemma button_created_and_updated_witness :
  let horse := Sample.horse 1 "Thunder" in
  let odds : Odds := {[ 1 := {| winner := ONum n4; place := OUndefined |} ]} in
  btn_place (createHorseButton horse odds) = Some "$1.50"%string
  ∧ ∃ updated,
      updateBettingButtonOdds odds [createHorseButton horse odds] = [updated]
      ∧ btn_place updated = Some "$2.00"%string.
Proof.
  intros horse odds.
  destruct (button_created_and_updated horse odds
              {| winner := ONum n4; place := OUndefined |} eq_refl
              _ eq_refl) as (_ & _ & _ & _ & Hplace).
  destruct (Hplace eq_refl) as [Hc Hu]. split; [exact Hc|].
  eexists. split; [reflexivity | exact Hu].
Defined.

Lemma step_currentOdds (ev : Event) (g g' : Game) :
  updates_odds ev = false → step ev g = Some g' →
  currentOdds g' = currentOdds g.
Proof.
  intros Hev Hstep.
  assert (Hkept : (∀ i message, ev ≠ EvMessage i message) →
            currentOdds g' = currentOdds g).
  { intros Hother.
    pose proof (step_server_state _ _ _ Hother Hstep) as Hs.
    unfold server_state in Hs. by injection Hs. }
  destruct ev; try by apply Hkept.
  unfold step in Hstep. repeat case_match; try done.
  injection Hstep as <-. unfold onmessage.
  rewrite handleMessage_currentOdds. simpl in Hev.
  by repeat case_match.
Qed.

(** X22. The odds of a [race_state] message are never stored: until
    the first [odds_update] of the session the stored odds are empty,
    whatever the messages before carried. Until then [createTrack]
    gives every horse the moderate tier, and [getHorseCurrentOdds]
    answers the fallback of two dollars for every horse and bet type. *)
Theorem lanes_moderate_until_odds_update (evs : list Event) (g : Game) :
  Forall (λ ev, updates_odds ev = false) evs →
  run evs new_game = Some g →
  currentOdds g = ∅
  ∧ (∀ horse, lane_tier horse g = Moderate)
  ∧ (∀ horseId betType, getHorseCurrentOdds horseId betType g = ONum n2).
Proof.
  intros Hevs Hrun.
  assert (Hodds : currentOdds g = ∅).
  { assert (Hnew : currentOdds new_game = ∅) by done.
    revert Hnew Hrun. generalize new_game.
    induction Hevs as [|ev rest Hev _ IH]; intros s Hs; simpl.
    { by intros [= <-]. }
    destruct (step ev s) as [s'|] eqn:Hstep; [|done]. simpl.
    apply IH. by rewrite (step_currentOdds _ _ _ Hev Hstep). }
  split_and!; [done| |].
  - intros horse. unfold lane_tier. by rewrite Hodds, lookup_empty.
  - intros horseId betType. unfold getHorseCurrentOdds.
    by rewrite Hodds, lookup_empty.
Qed.

Lemma lanes_moderate_until_odds_update_witness :
  let g := Play.play Play.winner_placed in
  currentOdds g = ∅
  ∧ lane_tier (Sample.horse 1 "Thunder") g = Moderate
  ∧ getHorseCurrentOdds 1 "winner" g = ONum n2.
Proof.
  intros g.
  destruct (lanes_moderate_until_odds_update Play.winner_placed g)
    as (Hodds & Hlane & Hfallback).
  - by repeat constructor.
  - by vm_compute.
  - split_and!; [exact Hodds | apply Hlane | apply Hfallback].
Defined.

(** ** The trifecta of the three selects *)

Lemma falsy_false (val : option Z) :
  Script.falsy val = false → ∃ id, val = Some id ∧ id ≠ 0.
Proof. destruct val as [[| |]|]; try done; by eexists. Qed.

Lemma existsb_falsy (selection : Script.Selects) :
  existsb Script.falsy selection = false →
  ∃ ids, selection = map Some ids ∧ (0 ∉ ids).
Proof.
  induction selection as [|val rest IH]; simpl.
  { exists []. split; [done|]. apply not_elem_of_nil. }
  intros [Hval Hrest]%orb_false_iff.
  destruct (falsy_false _ Hval) as (horse & -> & Hhorse).
  destruct (IH Hrest) as (ids & -> & Hzero).
  exists (horse :: ids). split; [done|].
  by intros [?|?]%elem_of_cons.
Qed.

Lemma omap_id_Some (ids : list Z) : omap id (map Some ids) = ids.
Proof. induction ids as [|x l IH]; [done|]. simpl. f_equal. exact IH. Qed.

Lemma remove_dups_length_le (l : list (option Z)) :
  (length (remove_dups l) ≤ length l)%nat.
Proof.
  induction l as [|x l IH]; [done|]. simpl. case_match; simpl; lia.
Qed.

Lemma remove_dups_all (l : list (option Z)) :
  length (remove_dups l) = length l → NoDup l.
Proof.
  induction l as [|x l IH]; [constructor|]. simpl.
  pose proof (remove_dups_length_le l).
  case_match; simpl; [lia|].
  intros [= Hl]. apply NoDup_cons. split; [done|]. by apply IH.
Qed.

(** X23. The trifecta of [script.js]: a [place_bet] frame goes out only
    with a horse in each of the three selects, no id zero and no horse
    twice, on an open socket and while the race has no trifecta bet; the
    frame names the three horses in the order of the selects and the
    selects are emptied. In every other case one notice is shown,
    nothing goes out, and the selects keep their values unless the
    socket was the reason. *)
Theorem script_placeTrifectaBet (trifectaSelects : Script.Selects)
  (g : Game) :
  length trifectaSelects = 3%nat →
  let g' := (Script.placeTrifectaBet trifectaSelects g).1 in
  let selects' := (Script.placeTrifectaBet trifectaSelects g).2 in
  (∃ ids,
     trifectaSelects = map Some ids
     ∧ NoDup ids ∧ length ids = 3%nat ∧ (0 ∉ ids)
     ∧ has_bet_of_type "trifecta" g = false
     ∧ selects' = [None; None; None]
     ∧ if ws_is_open g
       then outbox g' = outbox g ++ [FPlaceBet "trifecta" n1 ids]
            ∧ notices g' = notices g
       else outbox g' = outbox g
            ∧ notices g' = notices g ++ [not_ready_notice])
  ∨ (∃ notice,
       outbox g' = outbox g ∧ notices g' = notices g ++ [notice]
       ∧ selects' = trifectaSelects).
Proof.
  intros Hlen g' selects'. unfold g', selects', Script.placeTrifectaBet.
  rewrite firstn_all2 by lia.
  destruct (existsb Script.falsy trifectaSelects) eqn:Hfalsy;
    [right; by eexists|].
  destruct (existsb_falsy _ Hfalsy) as (ids & -> & Hzero).
  rewrite length_map in Hlen.
  destruct (Nat.eqb_spec (length (remove_dups (map Some ids))) 3)
    as [Hsize|Hsize]; cbn [negb]; [|right; by eexists].
  destruct (has_bet_of_type "trifecta" g) eqn:Hnone; [right; by eexists|].
  left. exists ids. rewrite omap_id_Some. cbn [fst snd].
  split_and!; try done.
  - assert (Hnd : NoDup (map Some ids)).
    { apply remove_dups_all. by rewrite length_map, Hlen. }
    by apply (NoDup_fmap_1 Some).
  - by destruct ids as [|? [|? [|? [|]]]].
  - unfold send. by destruct (ws_is_open g).
Qed.

Lemma script_placeTrifectaBet_witness :
  let g := Play.play Sample.session in
  let g' := (Script.placeTrifectaBet [Some 3; Some 1; Some 2] g).1 in
  outbox g' = outbox g ++ [FPlaceBet "trifecta" n1 [3; 1; 2]].
Proof.
  intros g g'.
  destruct (script_placeTrifectaBet [Some 3; Some 1; Some 2] g eq_refl)
    as [(ids & Hids & _ & _ & _ & _ & _ & Hout)|(notice & Hout & _)].
  - destruct ids as [|a [|b [|c [|]]]]; try discriminate Hids.
    injection Hids as <- <- <-.
    replace (ws_is_open g) with true in Hout by (by vm_compute).
    exact (proj1 Hout).
  - exfalso. revert Hout. vm_compute. intros H.
    by apply (f_equal length) in H.
Defined.
